(** * Sketch cut-out pipeline: a shallow embedding of [src/imageProcessor.ts]

    The pipeline of [ImageProcessor.process] between [getImageData] and
    [putImageData] is embedded stage by stage:

    - [createMask]            luminance thresholding,
    - [findObjectContours]    4-connected component labelling, selection of
                              the main frame and of the components whose
                              bounding-box centre falls inside it,
    - [floodFill]             stack-based exterior marking, run from the four
                              corners,
    - [composite]             the final loop of [process].

    Buffers are JavaScript typed arrays.  They are modelled as [list Z];
    a read outside the buffer yields [undefined] ([None]) and a write outside
    the buffer is ignored, which is exactly what stdpp's list lookup and
    insert do.  Coordinates and indices are JavaScript numbers holding small
    integers and are modelled in [Z].  The two [while] loops are modelled
    with fuel; the fuel handed to them by the callers is proved sufficient. *)

From Stdlib Require Import ZArith Lia Bool QArith PrimFloat Permutation Sorted.
From stdpp Require Import base option list.

Open Scope Z_scope.

Set Warnings "-inexact-float".

(** ** Typed arrays *)

(** [a[i]] on a [Uint8ClampedArray] / [Uint8Array]. *)
Definition rd (a : list Z) (i : Z) : option Z :=
  if i <? 0 then None else a !! Z.to_nat i.

(** [a[i] = v] for a cell value [v] in 0..255, the only values the program
    stores (0, 1 and 255); a [Uint8ClampedArray] clamps any other value,
    which is not modelled. *)
Definition wr (a : list Z) (i v : Z) : list Z :=
  if i <? 0 then a else <[Z.to_nat i := v]> a.

(** [o === v] where [o] is the result of an array read. *)
Definition eqv (o : option Z) (v : Z) : bool :=
  match o with
  | Some z => z =? v
  | None => false
  end.

Definition Pixel : Type := Z * Z.
Definition Color : Type := Z * Z * Z * Z.

Record ImageData := mkImageData {
  width : Z;
  height : Z;
  data : list Z
}.

(** [new ImageData(w, h)]: a zero-filled RGBA buffer. *)
Definition newImageData (w h : Z) : ImageData :=
  mkImageData w h (replicate (Z.to_nat (4 * w * h)) 0).

(** [setPixelData(data, i, color)] *)
Definition setPixelData (d : list Z) (i : Z) (color : Color) : list Z :=
  let '(c0, c1, c2, c3) := color in
  wr (wr (wr (wr d i c0) (i + 1) c1) (i + 2) c2) (i + 3) c3.

(** The values taken by [i] in [for (let i = 0; i < len; i += 4)]. *)
Definition pixelStarts (len : nat) : list Z :=
  map (fun k => 4 * Z.of_nat k) (seq 0 (Nat.div (len + 3) 4)).

(** ** Thresholder ([createMask]) *)

Fixpoint float_of_pos (p : positive) : float :=
  match p with
  | xH => 1%float
  | xO q => (2 * float_of_pos q)%float
  | xI q => (2 * float_of_pos q + 1)%float
  end.

(** The double holding an integer (exact below 2^53). *)
Definition float_of_Z (z : Z) : float :=
  match z with
  | Z0 => 0%float
  | Zpos p => float_of_pos p
  | Zneg p => (- float_of_pos p)%float
  end.

(** A read used as a number: [undefined] becomes [NaN]. *)
Definition toNumber (o : option Z) : float :=
  match o with
  | Some z => float_of_Z z
  | None => nan
  end.

(** [0.2126 * r + 0.7152 * g + 0.0722 * b] in IEEE-754 binary64, evaluated
    left to right as JavaScript does. *)
Definition luminance (r g b : option Z) : float :=
  (0.2126 * toNumber r + 0.7152 * toNumber g + 0.0722 * toNumber b)%float.

Definition threshold : float := 100%float.

Definition lineColor : Color := (0, 0, 0, 255).
Definition whiteColor : Color := (255, 255, 255, 255).

Definition createMask_step (d : list Z) (md : list Z) (i : Z) : list Z :=
  let r := rd d i in
  let g := rd d (i + 1) in
  let b := rd d (i + 2) in
  if PrimFloat.ltb (luminance r g b) threshold
  then setPixelData md i lineColor
  else setPixelData md i whiteColor.

Definition createMask (imageData : ImageData) : ImageData :=
  let mask := newImageData (width imageData) (height imageData) in
  mkImageData (width mask) (height mask)
    (fold_left (createMask_step (data imageData))
       (pixelStarts (length (data imageData))) (data mask)).

(** ** Component labeller (first half of [findObjectContours]) *)

Record Component := mkComponent {
  pixels : list Pixel;
  minX : Z;
  minY : Z;
  maxX : Z;
  maxY : Z
}.

(** [[cx + 1, cy], [cx - 1, cy], [cx, cy + 1], [cx, cy - 1]] *)
Definition neighbors (p : Pixel) : list Pixel :=
  let '(cx, cy) := p in
  [(cx + 1, cy); (cx - 1, cy); (cx, cy + 1); (cx, cy - 1)].

Definition inRange (w h : Z) (p : Pixel) : bool :=
  (0 <=? fst p) && (fst p <? w) && (0 <=? snd p) && (snd p <? h).

(** Body of [for (const [nx, ny] of neighbors)]; the stack is a list whose
    head is the top. *)
Definition visitNeighbor (w h : Z) (d : list Z)
    (st : list Z * list Pixel) (n : Pixel) : list Z * list Pixel :=
  let '(visited, stack) := st in
  if inRange w h n then
    let nIdx := snd n * w + fst n in
    if eqv (rd d (nIdx * 4)) 0 && eqv (rd visited nIdx) 0
    then (wr visited nIdx 1, n :: stack)
    else st
  else st.

(** The four running extrema and [pixels.push([cx, cy])]. *)
Definition addPixel (c : Component) (p : Pixel) : Component :=
  let '(cx, cy) := p in
  mkComponent (pixels c ++ [p])
    (if cx <? minX c then cx else minX c)
    (if cy <? minY c then cy else minY c)
    (if cx >? maxX c then cx else maxX c)
    (if cy >? maxY c then cy else maxY c).

(** [while (stack.length > 0)] of the labeller. *)
Fixpoint traverse (fuel : nat) (w h : Z) (d : list Z)
    (visited : list Z) (stack : list Pixel) (c : Component)
    : option (list Z * Component) :=
  match stack with
  | [] => Some (visited, c)
  | p :: rest =>
      match fuel with
      | O => None
      | S fuel' =>
          let '(visited', stack') :=
            fold_left (visitNeighbor w h d) (neighbors p) (visited, rest) in
          traverse fuel' w h d visited' stack' (addPixel c p)
      end
  end.

Definition traverseFuel (visited : list Z) : nat := S (2 * length visited).

(** Body of the two nested [for] loops, at pixel [(x, y)]. *)
Definition scanPixel (w h : Z) (d : list Z)
    (st : list Z * list Component) (p : Pixel)
    : option (list Z * list Component) :=
  let '(visited, components) := st in
  let idx := snd p * w + fst p in
  if eqv (rd d (idx * 4)) 0 && eqv (rd visited idx) 0 then
    match traverse (traverseFuel visited) w h d (wr visited idx 1) [p]
            (mkComponent [] w h (-1) (-1)) with
    | Some (visited', c) => Some (visited', components ++ [c])
    | None => None
    end
  else Some st.

Definition zrange (n : Z) : list Z := map Z.of_nat (seq 0 (Z.to_nat n)).

(** Row-major scan order: [for y < height] outside, [for x < width] inside. *)
Definition coords (w h : Z) : list Pixel :=
  flat_map (fun y => map (fun x => (x, y)) (zrange w)) (zrange h).

Fixpoint scan (w h : Z) (d : list Z) (ps : list Pixel)
    (st : list Z * list Component) : option (list Z * list Component) :=
  match ps with
  | [] => Some st
  | p :: ps' =>
      match scanPixel w h d st p with
      | Some st' => scan w h d ps' st'
      | None => None
      end
  end.

Definition labelComponents (w h : Z) (d : list Z) : option (list Component) :=
  match scan w h d (coords w h) (replicate (Z.to_nat (w * h)) 0, []) with
  | Some (_, components) => Some components
  | None => None
  end.

(** ** Object selector (second half of [findObjectContours]) *)

Definition area (c : Component) : Z :=
  (maxX c - minX c) * (maxY c - minY c).

(** Components are objects compared by reference ([comp === mainFrame]);
    every slot of [components] holds a distinct object, so a reference is
    modelled by the position in [components]. *)
Definition indexed {A} (l : list A) : list (nat * A) :=
  combine (seq 0 (length l)) l.

Definition mainFrameStep (st : nat * Z) (ic : nat * Component) : nat * Z :=
  let '(mainFrame, maxArea) := st in
  if area (snd ic) >? maxArea then (fst ic, area (snd ic)) else st.

Definition selectMainFrame (components : list Component) : nat :=
  fst (fold_left mainFrameStep (indexed components) (0%nat, -1)).

(** [comp.minX + (comp.maxX - comp.minX) / 2]; halves of small integers are
    exact in binary64, so the rationals model them faithfully. *)
Definition centerX (c : Component) : Q :=
  (inject_Z (minX c) + inject_Z (maxX c - minX c) / 2)%Q.

Definition centerY (c : Component) : Q :=
  (inject_Z (minY c) + inject_Z (maxY c - minY c) / 2)%Q.

Definition insideFrame (mainFrame comp : Component) : bool :=
  Qle_bool (inject_Z (minX mainFrame)) (centerX comp)
  && Qle_bool (centerX comp) (inject_Z (maxX mainFrame))
  && Qle_bool (inject_Z (minY mainFrame)) (centerY comp)
  && Qle_bool (centerY comp) (inject_Z (maxY mainFrame)).

Definition retained (k : nat) (mainFrame : Component)
    (ic : nat * Component) : bool :=
  negb (Nat.eqb (fst ic) k) && insideFrame mainFrame (snd ic).

Definition objectComponents (components : list Component) (k : nat)
    (mainFrame : Component) : list Component :=
  mainFrame :: map snd (List.filter (retained k mainFrame) (indexed components)).

Definition paintPixel (w : Z) (d : list Z) (p : Pixel) : list Z :=
  setPixelData d ((snd p * w + fst p) * 4) lineColor.

Definition paintComponent (w : Z) (d : list Z) (c : Component) : list Z :=
  fold_left (paintPixel w) (pixels c) d.

Definition selectObject (w h : Z) (components : list Component) : ImageData :=
  let newMask := replicate (length (data (newImageData w h))) 255 in
  match components with
  | [] => mkImageData w h newMask
  | c0 :: _ =>
      let k := selectMainFrame components in
      let mainFrame := nth k components c0 in
      mkImageData w h
        (fold_left (paintComponent w) (objectComponents components k mainFrame)
           newMask)
  end.

Definition findObjectContours (imageData : ImageData) : option ImageData :=
  match labelComponents (width imageData) (height imageData) (data imageData) with
  | Some components =>
      Some (selectObject (width imageData) (height imageData) components)
  | None => None
  end.

(** ** Exterior filler ([floodFill]) *)

Definition fillColor : Color := (255, 0, 0, 255).

Definition isWhite (d : list Z) (i : Z) : bool :=
  eqv (rd d i) 255 && eqv (rd d (i + 1)) 255 && eqv (rd d (i + 2)) 255.

(** One iteration of [while (stack.length)] after [stack.pop()] gave [p]. *)
Definition floodFill_step (w h : Z) (d : list Z) (p : Pixel)
    (rest : list Pixel) : list Z * list Pixel :=
  let '(x, y) := p in
  if (x <? 0) || (x >=? w) || (y <? 0) || (y >=? h) then (d, rest)
  else
    let i := (y * w + x) * 4 in
    if isWhite d i
    then (setPixelData d i fillColor,
          (x, y - 1) :: (x, y + 1) :: (x - 1, y) :: (x + 1, y) :: rest)
    else (d, rest).

Fixpoint floodFill_loop (fuel : nat) (w h : Z) (d : list Z)
    (stack : list Pixel) : option (list Z) :=
  match stack with
  | [] => Some d
  | p :: rest =>
      match fuel with
      | O => None
      | S fuel' =>
          let '(d', stack') := floodFill_step w h d p rest in
          floodFill_loop fuel' w h d' stack'
      end
  end.

Definition floodFillFuel (d : list Z) : nat := S (5 * length d).

Definition floodFill (imageData : ImageData) (startX startY : Z)
    : option ImageData :=
  let w := width imageData in
  let h := height imageData in
  let d := data imageData in
  let startIdx := (startY * w + startX) * 4 in
  if eqv (rd d startIdx) 0
     || (eqv (rd d startIdx) 255 && eqv (rd d (startIdx + 1)) 0)
  then Some imageData
  else
    match floodFill_loop (floodFillFuel d) w h d [(startX, startY)] with
    | Some d' => Some (mkImageData w h d')
    | None => None
    end.

(** The four seeds of [process], in call order. *)
Definition corners (w h : Z) : list Pixel :=
  [(0, 0); (w - 1, 0); (0, h - 1); (w - 1, h - 1)].

Fixpoint floodFills (seeds : list Pixel) (m : ImageData) : option ImageData :=
  match seeds with
  | [] => Some m
  | s :: rest =>
      match floodFill m (fst s) (snd s) with
      | Some m' => floodFills rest m'
      | None => None
      end
  end.

(** ** Compositor (last loop of [process]) *)

Definition transparent : Color := (0, 0, 0, 0).

Definition composite_step (src : list Z) (out : list Z) (i : Z) : list Z :=
  let r := rd src i in
  let g := rd src (i + 1) in
  if eqv r 255 && eqv g 0 then setPixelData out i transparent
  else if eqv r 0 then setPixelData out i lineColor
  else setPixelData out i whiteColor.

Definition composite (w h : Z) (objectMask : ImageData) : ImageData :=
  let resultData := newImageData w h in
  mkImageData w h
    (fold_left (composite_step (data objectMask))
       (pixelStarts (length (data objectMask))) (data resultData)).

(** [process], from [originalImageData] to [resultData]: what lies between
    [getImageData] and [putImageData]. *)
Definition process (original : ImageData) : option ImageData :=
  let binaryMask := createMask original in
  match findObjectContours binaryMask with
  | Some objectMask =>
      match floodFills (corners (width objectMask) (height objectMask)) objectMask with
      | Some filled => Some (composite (width original) (height original) filled)
      | None => None
      end
  | None => None
  end.

(** ** Vocabulary of the statements *)

(** The coordinates of the [w] by [h] image. *)
Definition inb (w h : Z) (p : Pixel) : Prop :=
  0 <= fst p < w /\ 0 <= snd p < h.

(** Index of a pixel in a one-cell-per-pixel array ([y * width + x]). *)
Definition pidx (w : Z) (p : Pixel) : Z := snd p * w + fst p.

(** The four cells read at byte offset [i]. *)
Definition quad (d : list Z) (i : Z)
    : option Z * option Z * option Z * option Z :=
  (rd d i, rd d (i + 1), rd d (i + 2), rd d (i + 3)).

(** The RGBA cells of pixel [p]. *)
Definition px (w : Z) (d : list Z) (p : Pixel) := quad d (pidx w p * 4).

Definition colorQuad (c : Color)
    : option Z * option Z * option Z * option Z :=
  let '(c0, c1, c2, c3) := c in (Some c0, Some c1, Some c2, Some c3).

(** What the browser guarantees of an [ImageData]: positive dimensions and
    four cells per pixel. *)
Definition wfData (w h : Z) (d : list Z) : Prop :=
  0 < w /\ 0 < h /\ Z.of_nat (length d) = 4 * w * h.

Definition wf (m : ImageData) : Prop :=
  wfData (width m) (height m) (data m).

(** 4-adjacency. *)
Definition adj (p q : Pixel) : Prop := q ∈ neighbors p.

(** The three classes of a pixel, read the way the last loop of [process]
    reads them. *)
Inductive PixelClass := STROKE | INTERIOR | EXTERIOR.

Definition classify (q : option Z * option Z * option Z * option Z)
    : PixelClass :=
  let '(r, g, _, _) := q in
  if eqv r 255 && eqv g 0 then EXTERIOR
  else if eqv r 0 then STROKE
  else INTERIOR.

(** A pixel the flood fill may enter: in range and white. *)
Definition white (w h : Z) (d : list Z) (p : Pixel) : Prop :=
  inb w h p /\ isWhite d (pidx w p * 4) = true.

(** [joined P s p]: [p] is joined to [s] by a 4-connected path of pixels
    that all satisfy [P], both ends included. *)
Inductive joined (P : Pixel -> Prop) (s : Pixel) : Pixel -> Prop :=
| joined_refl : P s -> joined P s s
| joined_step p q : joined P s p -> adj p q -> P q -> joined P s q.

(** Joined to [s] through white pixels of [d]. *)
Definition wreach (w h : Z) (d : list Z) : Pixel -> Pixel -> Prop :=
  joined (white w h d).

(** [filled w h d0 S d]: [d] is [d0] with exactly the pixels of [S]
    overwritten by [fillColor]. *)
Definition filled (w h : Z) (d0 : list Z) (S : Pixel -> Prop) (d : list Z)
    : Prop :=
  length d = length d0 /\
  forall p, inb w h p ->
    (S p /\ px w d p = colorQuad fillColor) \/ (~ S p /\ px w d p = px w d0 p).

(** Number of white pixels, the termination measure of the fill. *)
Definition whites (w h : Z) (d : list Z) : nat :=
  length (List.filter (fun p => isWhite d (pidx w p * 4)) (coords w h)).

(** A mask as [findObjectContours] returns it: every pixel is a line pixel
    or a white pixel. *)
Definition objectMask (m : ImageData) : Prop :=
  wf m /\
  forall p, inb (width m) (height m) p ->
    px (width m) (data m) p = colorQuad lineColor \/
    px (width m) (data m) p = colorQuad whiteColor.

(** Invariant of the [while] loop of [floodFill], started on [d0] from the
    seed [s]: what has been overwritten so far is white-reachable from [s],
    and every white neighbour of an overwritten pixel is still on the
    stack. *)
Definition fillInv (w h : Z) (d0 : list Z) (s : Pixel)
    (d : list Z) (stack : list Pixel) : Prop :=
  length d = length d0 /\
  (forall p, inb w h p ->
     px w d p = px w d0 p \/
     (white w h d0 p /\ px w d p = colorQuad fillColor /\ wreach w h d0 s p)) /\
  (forall p q, white w h d0 p -> ~ white w h d p -> adj p q ->
     white w h d q -> q ∈ stack) /\
  (white w h d s -> s ∈ stack) /\
  (forall q, q ∈ stack -> white w h d0 q -> wreach w h d0 s q).

Definition fillMeasure (w h : Z) (d : list Z) (stack : list Pixel) : nat :=
  5 * whites w h d + length stack.

(** The pixels reached from one of several seeds. *)
Definition reachAny (w h : Z) (d : list Z) (seeds : list Pixel) (p : Pixel)
    : Prop :=
  exists s, s ∈ seeds /\ wreach w h d s p.

(** A set of pixels that white steps of [d0] cannot leave. *)
Definition closedUnder (w h : Z) (d0 : list Z) (S : Pixel -> Prop) : Prop :=
  forall p q, S p -> adj p q -> white w h d0 q -> S q.

(** In range and classified INTERIOR in [m]. *)
Definition interiorAt (m : ImageData) (p : Pixel) : Prop :=
  inb (width m) (height m) p /\
  classify (px (width m) (data m) p) = INTERIOR.

(** ** Vocabulary of the labeller *)

(** A STROKE pixel of a mask: in range, red cell equal to 0. *)
Definition stroke (w h : Z) (d : list Z) (p : Pixel) : Prop :=
  inb w h p /\ rd d (pidx w p * 4) = Some 0.

(** Joined through STROKE pixels. *)
Definition conn (w h : Z) (d : list Z) : Pixel -> Pixel -> Prop :=
  joined (stroke w h d).

Definition unv (w h : Z) (V : list Z) (p : Pixel) : Prop :=
  inb w h p /\ rd V (pidx w p) = Some 0.

Definition vis (w h : Z) (V : list Z) (p : Pixel) : Prop :=
  inb w h p /\ rd V (pidx w p) = Some 1.

(** The [visited] array: one cell per pixel, holding 0 or 1. *)
Definition goodVisited (w h : Z) (V : list Z) : Prop :=
  Z.of_nat (length V) = w * h /\
  forall i v, rd V i = Some v -> v = 0 \/ v = 1.

Definition unvisitedCount (w h : Z) (V : list Z) : nat :=
  length (List.filter (fun p => eqv (rd V (pidx w p)) 0) (coords w h)).

Definition travMeasure (w h : Z) (V : list Z) (stack : list Pixel) : nat :=
  2 * unvisitedCount w h V + length stack.

(** All member pixels of a sequence of components. *)
Definition allPixels (components : list Component) : list Pixel :=
  concat (map pixels components).

Definition boxCovers (c : Component) : Prop :=
  forall p, p ∈ pixels c ->
    minX c <= fst p <= maxX c /\ minY c <= snd p <= maxY c.

Definition boxTouched (c : Component) : Prop :=
  (exists p, p ∈ pixels c /\ fst p = minX c) /\
  (exists p, p ∈ pixels c /\ fst p = maxX c) /\
  (exists p, p ∈ pixels c /\ snd p = minY c) /\
  (exists p, p ∈ pixels c /\ snd p = maxY c).

(** The box is the minimum and maximum of the member coordinates. *)
Definition tightBox (c : Component) : Prop := boxCovers c /\ boxTouched c.

(** The box while a component is being collected. *)
Definition boxInv (w h : Z) (c : Component) : Prop :=
  boxCovers c /\
  ((pixels c = [] /\ minX c = w /\ minY c = h /\ maxX c = -1 /\ maxY c = -1)
   \/ boxTouched c).

(** The pixel list of [c] is a whole 4-connected group of STROKE pixels
    and nothing else. *)
Definition isGroup (w h : Z) (d : list Z) (c : Component) : Prop :=
  pixels c <> [] /\
  forall p q, p ∈ pixels c -> (q ∈ pixels c <-> conn w h d p q).

(** Invariant of the loop over the neighbours of a popped pixel; [P] is the
    pixel list of the component, the popped pixel included. *)
Definition nbInv (w h : Z) (d V0 : list Z) (s : Pixel) (P : list Pixel)
    (V : list Z) (stack : list Pixel) : Prop :=
  goodVisited w h V /\
  (forall q, vis w h V q <-> vis w h V0 q \/ q ∈ P \/ q ∈ stack) /\
  NoDup (P ++ stack) /\
  (forall q, q ∈ P ++ stack -> ~ vis w h V0 q /\ conn w h d s q).

(** Invariant of the [while] loop of the labeller, started from the seed
    [s] with the visited array [V0]. *)
Definition travInv (w h : Z) (d V0 : list Z) (s : Pixel)
    (V : list Z) (stack : list Pixel) (c : Component) : Prop :=
  nbInv w h d V0 s (pixels c) V stack /\
  (forall p q, p ∈ pixels c -> adj p q -> stroke w h d q -> vis w h V q) /\
  boxInv w h c /\
  s ∈ pixels c ++ stack /\
  ((pixels c = [] /\ stack = [s]) \/ head (pixels c) = Some s).

(** The first pixel pushed into a component is its row-major-least pixel,
    and these first pixels come in row-major order along the sequence: the
    sequence is in discovery order. *)
Definition discoveryOrder (w : Z) (components : list Component) : Prop :=
  (forall c s q, c ∈ components -> head (pixels c) = Some s -> q ∈ pixels c ->
     pidx w s <= pidx w q) /\
  (forall i j ci cj si sj,
     components !! i = Some ci -> components !! j = Some cj ->
     head (pixels ci) = Some si -> head (pixels cj) = Some sj ->
     (i < j)%nat -> pidx w si < pidx w sj).

(** Invariant of the row-major scan; [seen] are the pixels scanned so far. *)
Definition scanInv (w h : Z) (d : list Z) (seen : list Pixel)
    (V : list Z) (components : list Component) : Prop :=
  goodVisited w h V /\
  (forall p, vis w h V p <-> p ∈ allPixels components) /\
  NoDup (allPixels components) /\
  (forall c, c ∈ components -> isGroup w h d c /\ tightBox c) /\
  (forall p, p ∈ seen -> stroke w h d p -> vis w h V p) /\
  (forall c s, c ∈ components -> head (pixels c) = Some s -> s ∈ seen) /\
  discoveryOrder w components.

(** Strictly increasing row-major index. *)
Definition rowMajor (w : Z) (ps : list Pixel) : Prop :=
  StronglySorted (fun a b => pidx w a < pidx w b) ps.

(** State of the main-frame loop after the first [n] components. *)
Definition selected (comps : list Component) (n : nat) (st : nat * Z) : Prop :=
  (n = 0%nat /\ st = (0%nat, -1)) \/
  exists mf,
    (fst st < n)%nat /\ comps !! fst st = Some mf /\ snd st = area mf /\
    forall j c, (j < n)%nat -> comps !! j = Some c ->
      area c <= area mf /\ ((j < fst st)%nat -> area c < area mf).

(** The centre of a bounding box, as the specification writes it. *)
Definition boxCenterX (c : Component) : Q := (inject_Z (minX c + maxX c) / 2)%Q.
Definition boxCenterY (c : Component) : Q := (inject_Z (minY c + maxY c) / 2)%Q.

(** The centre of [comp]'s box lies in [mainFrame]'s box, bounds included. *)
Definition centerInside (mainFrame comp : Component) : Prop :=
  (inject_Z (minX mainFrame) <= boxCenterX comp)%Q /\
  (boxCenterX comp <= inject_Z (maxX mainFrame))%Q /\
  (inject_Z (minY mainFrame) <= boxCenterY comp)%Q /\
  (boxCenterY comp <= inject_Z (maxY mainFrame))%Q.

(** The comparison of [createMask] on three defined cells. *)
Definition isDark (r g b : Z) : bool :=
  PrimFloat.ltb (luminance (Some r) (Some g) (Some b)) threshold.

(** The luminance of the specification, in exact arithmetic. *)
Definition exactLuminance (r g b : Z) : Q :=
  (0.2126 * inject_Z r + 0.7152 * inject_Z g + 0.0722 * inject_Z b)%Q.

(** The colour [createMask] writes at byte offset [i]. *)
Definition maskColor (d : list Z) (i : Z) : Color :=
  if PrimFloat.ltb (luminance (rd d i) (rd d (i + 1)) (rd d (i + 2))) threshold
  then lineColor else whiteColor.

(** The colour the last loop of [process] writes at byte offset [i]. *)
Definition outputColor (src : list Z) (i : Z) : Color :=
  match classify (quad src i) with
  | EXTERIOR => transparent
  | STROKE => lineColor
  | INTERIOR => whiteColor
  end.

(** No pixel of the image is below the luminance threshold. *)
Definition uniformlyLight (img : ImageData) : Prop :=
  forall p r g b a,
    inb (width img) (height img) p ->
    px (width img) (data img) p = (Some r, Some g, Some b, Some a) ->
    isDark r g b = false.

(** No pixel of the image has a luminance below 100 when the formula is
    evaluated in exact arithmetic. *)
Definition exactlyLight (img : ImageData) : Prop :=
  forall p r g b a,
    inb (width img) (height img) p ->
    px (width img) (data img) p = (Some r, Some g, Some b, Some a) ->
    ~ (exactLuminance r g b < 100)%Q.

(** The mask has no STROKE pixel. *)
Definition noStroke (m : ImageData) : Prop :=
  forall p, ~ stroke (width m) (height m) (data m) p.

(** The fully transparent image. *)
Definition transparentImage (w h : Z) : ImageData :=
  mkImageData w h (replicate (Z.to_nat (4 * w * h)) 0).

(** Scenario B: the 10 by 10 image with a one-pixel black ring on rows and
    columns 2 to 7. *)
Definition onRing (p : Pixel) : bool :=
  let '(x, y) := p in
  ((2 <=? x) && (x <=? 7) && (2 <=? y) && (y <=? 7))
  && negb ((3 <=? x) && (x <=? 6) && (3 <=? y) && (y <=? 6)).

Definition insideRing (p : Pixel) : bool :=
  let '(x, y) := p in
  (3 <=? x) && (x <=? 6) && (3 <=? y) && (y <=? 6).

Definition colorCells (c : Color) : list Z :=
  let '(c0, c1, c2, c3) := c in [c0; c1; c2; c3].

Definition ringImage : ImageData :=
  mkImageData 10 10
    (flat_map (fun p => colorCells (if onRing p then lineColor else whiteColor))
       (coords 10 10)).

Definition ringExpected (p : Pixel) : Color :=
  if onRing p then lineColor
  else if insideRing p then whiteColor
  else transparent.

(** ** The cells touched by the two loops *)

(** A read or write of [data] or of [visited], with the index used. *)
Inductive Access := DataAt (i : Z) | VisitedAt (i : Z).

(** The cells touched by one iteration of the loop of [floodFill], after
    [stack.pop()] gave [p]: the short-circuit reads of the white test and,
    when it succeeds, the four writes of [setPixelData]. *)
Definition floodFill_accesses (w h : Z) (d : list Z) (p : Pixel)
    : list Access :=
  let '(x, y) := p in
  if (x <? 0) || (x >=? w) || (y <? 0) || (y >=? h) then []
  else
    let i := (y * w + x) * 4 in
    DataAt i ::
    (if eqv (rd d i) 255 then
       DataAt (i + 1) ::
       (if eqv (rd d (i + 1)) 255 then
          DataAt (i + 2) ::
          (if eqv (rd d (i + 2)) 255
           then [DataAt i; DataAt (i + 1); DataAt (i + 2); DataAt (i + 3)]
           else [])
        else [])
     else []).

Fixpoint floodFill_trace (fuel : nat) (w h : Z) (d : list Z)
    (stack : list Pixel) : option (list Access) :=
  match stack with
  | [] => Some []
  | p :: rest =>
      match fuel with
      | O => None
      | S fuel' =>
          let '(d', stack') := floodFill_step w h d p rest in
          match floodFill_trace fuel' w h d' stack' with
          | Some t => Some (floodFill_accesses w h d p ++ t)
          | None => None
          end
      end
  end.

(** The cells touched by the body of the neighbour loop at [n]. *)
Definition neighbor_accesses (w h : Z) (d visited : list Z) (n : Pixel)
    : list Access :=
  if inRange w h n then
    let nIdx := snd n * w + fst n in
    DataAt (nIdx * 4) ::
    (if eqv (rd d (nIdx * 4)) 0 then
       VisitedAt nIdx ::
       (if eqv (rd visited nIdx) 0 then [VisitedAt nIdx] else [])
     else [])
  else [].

Fixpoint neighbors_trace (w h : Z) (d : list Z) (ns : list Pixel)
    (st : list Z * list Pixel) : list Access :=
  match ns with
  | [] => []
  | n :: ns' =>
      neighbor_accesses w h d (fst st) n
      ++ neighbors_trace w h d ns' (visitNeighbor w h d st n)
  end.

Fixpoint traverse_trace (fuel : nat) (w h : Z) (d : list Z)
    (visited : list Z) (stack : list Pixel) : option (list Access) :=
  match stack with
  | [] => Some []
  | p :: rest =>
      match fuel with
      | O => None
      | S fuel' =>
          let '(visited', stack') :=
            fold_left (visitNeighbor w h d) (neighbors p) (visited, rest) in
          match traverse_trace fuel' w h d visited' stack' with
          | Some t => Some (neighbors_trace w h d (neighbors p) (visited, rest) ++ t)
          | None => None
          end
      end
  end.

(** The cells touched by the body of the scan at [p], traversal included. *)
Definition scanPixel_trace (w h : Z) (d visited : list Z) (p : Pixel)
    : option (list Access) :=
  let idx := snd p * w + fst p in
  if eqv (rd d (idx * 4)) 0 then
    if eqv (rd visited idx) 0 then
      match traverse_trace (traverseFuel visited) w h d (wr visited idx 1) [p] with
      | Some t => Some (DataAt (idx * 4) :: VisitedAt idx :: VisitedAt idx :: t)
      | None => None
      end
    else Some [DataAt (idx * 4); VisitedAt idx]
  else Some [DataAt (idx * 4)].

Fixpoint scan_trace (w h : Z) (d : list Z) (ps : list Pixel)
    (st : list Z * list Component) : option (list Access) :=
  match ps with
  | [] => Some []
  | p :: ps' =>
      match scanPixel_trace w h d (fst st) p, scanPixel w h d st p with
      | Some t, Some st' =>
          match scan_trace w h d ps' st' with
          | Some t' => Some (t ++ t')
          | None => None
          end
      | _, _ => None
      end
  end.

Definition labelComponents_trace (w h : Z) (d : list Z) : option (list Access) :=
  scan_trace w h d (coords w h) (replicate (Z.to_nat (w * h)) 0, []).

(** The access stays inside its buffer. *)
Definition inBuffer (dataLen visitedLen : Z) (a : Access) : Prop :=
  match a with
  | DataAt i => 0 <= i < dataLen
  | VisitedAt i => 0 <= i < visitedLen
  end.

(** ** Concrete inputs *)

(** Cells of an image given pixel by pixel. *)
Definition imageOf (w h : Z) (f : Pixel -> Color) : ImageData :=
  mkImageData w h (flat_map (fun p => colorCells (f p)) (coords w h)).

(** Scenario C on 7 by 7 pixels: a one-pixel frame on rows and columns 1 to
    5, a dot at its centre (3, 3) and a dot in the corner (0, 0). *)
Definition onFrame (p : Pixel) : bool :=
  let '(x, y) := p in
  ((1 <=? x) && (x <=? 5) && (1 <=? y) && (y <=? 5))
  && negb ((2 <=? x) && (x <=? 4) && (2 <=? y) && (y <=? 4)).

Definition isDot (p : Pixel) : bool :=
  let '(x, y) := p in
  ((x =? 3) && (y =? 3)) || ((x =? 0) && (y =? 0)).

Definition frameMask : ImageData :=
  imageOf 7 7 (fun p => if onFrame p || isDot p then lineColor else whiteColor).

(** The object mask of [frameMask]: the corner dot is dropped. *)
Definition frameObjectMask : ImageData :=
  imageOf 7 7
    (fun p => if onFrame p || ((fst p =? 3) && (snd p =? 3))
              then lineColor else whiteColor).

(** The one-pixel image of colour (4, 114, 244), whose luminance is 100
    in exact arithmetic. *)
Definition roundingImage : ImageData := mkImageData 1 1 [4; 114; 244; 255].

(** A uniformly light 3 by 2 image. *)
Definition lightImage : ImageData :=
  imageOf 3 2 (fun p => if fst p =? 1 then (200, 180, 90, 255) else whiteColor).

(** Decision procedures for the hypotheses on concrete images. *)
Definition wfb (m : ImageData) : bool :=
  (0 <? width m) && (0 <? height m)
  && (Z.of_nat (length (data m)) =? 4 * width m * height m).

Definition quadEqb (q1 q2 : option Z * option Z * option Z * option Z) : bool :=
  match q1, q2 with
  | (Some r, Some g, Some b, Some a), (Some r', Some g', Some b', Some a') =>
      (r =? r') && (g =? g') && (b =? b') && (a =? a')
  | _, _ => false
  end.

Definition objectMaskb (m : ImageData) : bool :=
  wfb m &&
  forallb (fun p =>
      quadEqb (px (width m) (data m) p) (colorQuad lineColor)
      || quadEqb (px (width m) (data m) p) (colorQuad whiteColor))
    (coords (width m) (height m)).

Definition uniformlyLightb (img : ImageData) : bool :=
  forallb (fun p =>
      match px (width img) (data img) p with
      | (Some r, Some g, Some b, Some a) => negb (isDark r g b)
      | _ => true
      end)
    (coords (width img) (height img)).

(** ** Vocabulary of the further properties *)

(** The values a cell of a [Uint8ClampedArray] holds. *)
Definition isByte (v : Z) : Prop := 0 <= v <= 255.

(** A colour whose four components are stored unchanged. *)
Definition byteColor (c : Color) : Prop :=
  let '(c0, c1, c2, c3) := c in isByte c0 /\ isByte c1 /\ isByte c2 /\ isByte c3.

(** Every pixel of the image is below the luminance threshold. *)
Definition uniformlyDark (img : ImageData) : Prop :=
  forall p r g b a,
    inb (width img) (height img) p ->
    px (width img) (data img) p = (Some r, Some g, Some b, Some a) ->
    isDark r g b = true.

Definition uniformlyDarkb (img : ImageData) : bool :=
  forallb (fun p =>
      match px (width img) (data img) p with
      | (Some r, Some g, Some b, Some a) => isDark r g b
      | _ => true
      end)
    (coords (width img) (height img)).

(** Two buffers hold the same red, green and blue cells at every pixel;
    the alpha cells are free. *)
Definition sameRGB (w h : Z) (d1 d2 : list Z) : Prop :=
  forall p, inb w h p ->
    rd d1 (pidx w p * 4) = rd d2 (pidx w p * 4) /\
    rd d1 (pidx w p * 4 + 1) = rd d2 (pidx w p * 4 + 1) /\
    rd d1 (pidx w p * 4 + 2) = rd d2 (pidx w p * 4 + 2).

Definition optEqb (o1 o2 : option Z) : bool :=
  match o1, o2 with
  | Some a, Some b => a =? b
  | None, None => true
  | _, _ => false
  end.

Definition sameRGBb (w h : Z) (d1 d2 : list Z) : bool :=
  forallb (fun p =>
      optEqb (rd d1 (pidx w p * 4)) (rd d2 (pidx w p * 4))
      && optEqb (rd d1 (pidx w p * 4 + 1)) (rd d2 (pidx w p * 4 + 1))
      && optEqb (rd d1 (pidx w p * 4 + 2)) (rd d2 (pidx w p * 4 + 2)))
    (coords w h).

(** The box of a component lies in the image. *)
Definition boxInImage (w h : Z) (c : Component) : Prop :=
  0 <= minX c /\ minX c <= maxX c /\ maxX c < w /\
  0 <= minY c /\ minY c <= maxY c /\ maxY c < h.

(** The thresholds of grey and single-channel colours, as a check on one
    cell value. *)
Definition channelCheck (v : Z) : bool :=
  Bool.eqb (isDark v v v) (v <? 100)
  && isDark v 0 0
  && isDark 0 0 v
  && Bool.eqb (isDark 0 v 0) (v <? 140).

(** A 2 by 3 image that is dark everywhere, half of it transparent. *)
Definition darkImage : ImageData :=
  imageOf 2 3 (fun p => if fst p =? 0 then (10, 20, 30, 0) else (90, 0, 255, 255)).

(** [lightImage] with other alpha cells. *)
Definition lightImageFaded : ImageData :=
  imageOf 3 2 (fun p => if fst p =? 1 then (200, 180, 90, 0) else (255, 255, 255, 17)).

(** A 5 by 4 mask whose lines are two straight strokes: a row and a column
    that do not touch. *)
Definition strokesMask : ImageData :=
  imageOf 5 4
    (fun p => if ((snd p =? 0) && (fst p <=? 2)) || ((fst p =? 4) && (1 <=? snd p))
              then lineColor else whiteColor).

(** The components of [ringImage] and of [strokesMask], as the labeller
    returns them. *)
Definition ringComponents : list Component :=
  Eval vm_compute in
    match labelComponents 10 10 (data ringImage) with
    | Some l => l
    | None => []
    end.

Definition strokesComponents : list Component :=
  Eval vm_compute in
    match labelComponents 5 4 (data strokesMask) with
    | Some l => l
    | None => []
    end.

(** * Proofs *)

(** ** Typed-array lemmas *)

Lemma length_wr d i v : length (wr d i v) = length d.
Proof. unfold wr. destruct (i <? 0); [done | apply length_insert]. Qed.

Lemma rd_wr_eq d i v :
  0 <= i < Z.of_nat (length d) -> rd (wr d i v) i = Some v.
Proof.
  intros Hi. unfold rd, wr.
  destruct (Z.ltb_spec i 0); [lia |].
  apply list_lookup_insert_eq. lia.
Qed.

Lemma rd_wr_ne d i j v : i <> j -> rd (wr d i v) j = rd d j.
Proof.
  intros Hij. unfold rd, wr.
  destruct (Z.ltb_spec j 0); [done |].
  destruct (Z.ltb_spec i 0); [done |].
  apply list_lookup_insert_ne. lia.
Qed.

Lemma rd_Some_range d i v : rd d i = Some v -> 0 <= i < Z.of_nat (length d).
Proof.
  unfold rd. destruct (Z.ltb_spec i 0) as [|Hi]; [done |].
  intros Hl%lookup_lt_Some. lia.
Qed.

Lemma rd_in_range d i : 0 <= i < Z.of_nat (length d) -> is_Some (rd d i).
Proof.
  intros Hi. unfold rd. destruct (Z.ltb_spec i 0); [lia |].
  apply lookup_lt_is_Some. lia.
Qed.

Lemma rd_replicate n v i :
  0 <= i < Z.of_nat n -> rd (replicate n v) i = Some v.
Proof.
  intros Hi. unfold rd. destruct (Z.ltb_spec i 0); [lia |].
  apply lookup_replicate_2. lia.
Qed.

Lemma eqv_true o v : eqv o v = true <-> o = Some v.
Proof.
  destruct o as [z|]; simpl; [| split; discriminate].
  rewrite Z.eqb_eq. split; congruence.
Qed.

Lemma length_setPixelData d i c : length (setPixelData d i c) = length d.
Proof.
  destruct c as [[[c0 c1] c2] c3]. unfold setPixelData.
  by rewrite !length_wr.
Qed.

Lemma rd_setPixelData_other d i c j :
  j < i \/ i + 3 < j -> rd (setPixelData d i c) j = rd d j.
Proof.
  intros Hj. destruct c as [[[c0 c1] c2] c3]. unfold setPixelData.
  rewrite !rd_wr_ne by lia. done.
Qed.

Lemma quad_setPixelData_same d i c :
  0 <= i -> i + 3 < Z.of_nat (length d) ->
  quad (setPixelData d i c) i = colorQuad c.
Proof.
  intros H0 H3. destruct c as [[[c0 c1] c2] c3].
  unfold quad, setPixelData, colorQuad.
  repeat f_equal.
  - rewrite !rd_wr_ne by lia. apply rd_wr_eq. lia.
  - rewrite !rd_wr_ne by lia. apply rd_wr_eq. rewrite length_wr. lia.
  - rewrite !rd_wr_ne by lia. apply rd_wr_eq. rewrite !length_wr. lia.
  - apply rd_wr_eq. rewrite !length_wr. lia.
Qed.

Lemma quad_setPixelData_other d i c j :
  j + 3 < i \/ i + 3 < j -> quad (setPixelData d i c) j = quad d j.
Proof.
  intros Hj. unfold quad.
  rewrite !rd_setPixelData_other by lia. done.
Qed.

Lemma isWhite_quad d i :
  isWhite d i = true <->
  exists a, quad d i = (Some 255, Some 255, Some 255, a).
Proof.
  unfold isWhite, quad. rewrite !andb_true_iff, !eqv_true. split.
  - intros [[-> ->] ->]. eauto.
  - intros [a Ha]. by inversion Ha.
Qed.

(** ** Geometry of the pixel grid *)

Section Grid.
Variables w h : Z.
Hypothesis Hw : 0 < w.
Hypothesis Hh : 0 < h.

Lemma inRange_inb p : inRange w h p = true <-> inb w h p.
Proof.
  unfold inRange, inb. rewrite !andb_true_iff.
  rewrite !Z.leb_le, !Z.ltb_lt. tauto.
Qed.

Lemma pidx_range p : inb w h p -> 0 <= pidx w p < w * h.
Proof. unfold inb, pidx. destruct p as [x y]; simpl. nia. Qed.

Lemma pidx_inj p q : inb w h p -> inb w h q -> pidx w p = pidx w q -> p = q.
Proof.
  unfold inb, pidx. destruct p as [x y], q as [x' y']; simpl.
  intros Hp Hq He.
  assert (y = y') by nia. subst y'.
  f_equal. lia.
Qed.

Lemma pidx_of_index k :
  0 <= k < w * h -> exists p, inb w h p /\ pidx w p = k.
Proof.
  intros Hk. exists (k mod w, k / w). unfold inb, pidx; simpl.
  pose proof (Z.mod_pos_bound k w Hw).
  pose proof (Z.div_mod k w ltac:(lia)).
  assert (0 <= k / w) by (apply Z.div_pos; lia).
  assert (k / w < h) by (apply Z.div_lt_upper_bound; nia).
  split; [lia | lia].
Qed.

Lemma elem_of_zrange n x : x ∈ zrange n <-> 0 <= x < n.
Proof.
  unfold zrange. rewrite list_elem_of_fmap. split.
  - intros (k & -> & Hk). apply elem_of_seq in Hk. lia.
  - intros Hx. exists (Z.to_nat x). split; [lia |].
    apply elem_of_seq. lia.
Qed.

Lemma elem_of_coords p : p ∈ coords w h <-> inb w h p.
Proof.
  unfold coords. rewrite list_elem_of_In, in_flat_map. split.
  - intros (y & Hy & Hp). apply list_elem_of_In, elem_of_zrange in Hy.
    apply list_elem_of_In, list_elem_of_fmap in Hp as (x & -> & Hx).
    apply elem_of_zrange in Hx. unfold inb; simpl. lia.
  - intros [Hx Hy]. destruct p as [x y]; simpl in *.
    exists y. split.
    + apply list_elem_of_In, elem_of_zrange. lia.
    + apply list_elem_of_In, list_elem_of_fmap. exists x. split; [done |].
      apply elem_of_zrange. lia.
Qed.

(** Reading and writing whole pixels. *)

Lemma px_setPixelData d p c q :
  wfData w h d -> inb w h p -> inb w h q ->
  px w (setPixelData d (pidx w p * 4) c) q =
  if decide (p = q) then colorQuad c else px w d q.
Proof.
  intros (_ & _ & Hlen) Hp Hq. unfold px.
  pose proof (pidx_range p Hp). pose proof (pidx_range q Hq).
  destruct (decide (p = q)) as [->|Hne].
  - apply quad_setPixelData_same; lia.
  - apply quad_setPixelData_other.
    assert (pidx w p <> pidx w q) by (intros He; apply Hne, pidx_inj; done).
    lia.
Qed.

Lemma wfData_setPixelData d i c :
  wfData w h d -> wfData w h (setPixelData d i c).
Proof. unfold wfData. rewrite length_setPixelData. done. Qed.

(** Two buffers of the image's size that agree on every pixel are equal. *)
Lemma data_ext d1 d2 :
  wfData w h d1 -> length d2 = length d1 ->
  (forall p, inb w h p -> px w d1 p = px w d2 p) -> d1 = d2.
Proof.
  intros (_ & _ & Hlen) Hl Hpx. apply list_eq. intros n.
  destruct (decide (n < length d1)%nat) as [Hn|Hn].
  2:{ rewrite !lookup_ge_None_2; [done | lia | lia]. }
  set (k := Z.of_nat n / 4).
  pose proof (Z.div_mod (Z.of_nat n) 4 ltac:(lia)) as Hdm.
  pose proof (Z.mod_pos_bound (Z.of_nat n) 4 ltac:(lia)) as Hm.
  assert (0 <= k < w * h) as Hk.
  { subst k. split; [apply Z.div_pos; lia |].
    apply Z.div_lt_upper_bound; lia. }
  destruct (pidx_of_index k Hk) as (p & Hp & Hpk).
  specialize (Hpx p Hp). unfold px, quad in Hpx. rewrite Hpk in Hpx.
  inversion Hpx as [[H0 H1 H2 H3]].
  assert (forall j, 0 <= j -> rd d1 j = rd d2 j ->
            d1 !! Z.to_nat j = d2 !! Z.to_nat j) as Hrd.
  { intros j Hj. unfold rd. destruct (Z.ltb_spec j 0); [lia | done]. }
  assert (Z.of_nat n = k * 4 \/ Z.of_nat n = k * 4 + 1 \/
          Z.of_nat n = k * 4 + 2 \/ Z.of_nat n = k * 4 + 3) as Hcase
    by (subst k; lia).
  destruct Hcase as [He|[He|[He|He]]].
  - apply Hrd in H0; [| lia]. rewrite <- He, Nat2Z.id in H0. done.
  - apply Hrd in H1; [| lia]. rewrite <- He, Nat2Z.id in H1. done.
  - apply Hrd in H2; [| lia]. rewrite <- He, Nat2Z.id in H2. done.
  - apply Hrd in H3; [| lia]. rewrite <- He, Nat2Z.id in H3. done.
Qed.

End Grid.

(** ** Counting with [filter] *)

Lemma filter_length_le {A} (f g : A -> bool) (l : list A) :
  (forall y, y ∈ l -> g y = true -> f y = true) ->
  (length (List.filter g l) <= length (List.filter f l))%nat.
Proof.
  induction l as [|a l IH]; intros Hgf; simpl; [lia |].
  assert (length (List.filter g l) <= length (List.filter f l))%nat as IH'
    by (apply IH; intros y Hy; apply Hgf; by apply elem_of_cons; right).
  destruct (g a) eqn:Hg.
  - rewrite (Hgf a (list_elem_of_here _ _) Hg). simpl. lia.
  - destruct (f a); simpl; lia.
Qed.

Lemma filter_length_lt {A} (f g : A -> bool) (l : list A) (x : A) :
  x ∈ l -> f x = true -> g x = false ->
  (forall y, y ∈ l -> g y = true -> f y = true) ->
  (length (List.filter g l) < length (List.filter f l))%nat.
Proof.
  intros Hx Hfx Hgx. induction l as [|a l IH]; intros Hgf;
    [by apply elem_of_nil in Hx |].
  assert (forall y, y ∈ l -> g y = true -> f y = true) as Hgf'
    by (intros y Hy; apply Hgf; by apply elem_of_cons; right).
  apply elem_of_cons in Hx as [<-|Hx]; simpl.
  - rewrite Hfx, Hgx. simpl.
    pose proof (filter_length_le f g l Hgf'). lia.
  - specialize (IH Hx Hgf'). destruct (g a) eqn:Hg.
    + rewrite (Hgf a (list_elem_of_here _ _) Hg). simpl. lia.
    + destruct (f a); simpl; lia.
Qed.

Lemma length_filter_le {A} (f : A -> bool) (l : list A) :
  (length (List.filter f l) <= length l)%nat.
Proof.
  induction l as [|a l IH]; simpl; [lia |]. destruct (f a); simpl; lia.
Qed.

Lemma length_zrange n : length (zrange n) = Z.to_nat n.
Proof. unfold zrange. by rewrite length_map, length_seq. Qed.

Lemma length_rows w (ys : list Z) :
  length (flat_map (fun y => map (fun x => (x, y)) (zrange w)) ys)
  = (length ys * Z.to_nat w)%nat.
Proof.
  induction ys as [|y ys IH]; simpl; [done |].
  rewrite length_app, IH, length_map, length_zrange. lia.
Qed.

Lemma length_coords w h : length (coords w h) = (Z.to_nat h * Z.to_nat w)%nat.
Proof. unfold coords. by rewrite length_rows, length_zrange. Qed.

(** ** The exterior filler *)

Section Fill.
Variables w h : Z.
Hypothesis Hw : 0 < w.
Hypothesis Hh : 0 < h.

Lemma white_px d1 d2 p :
  px w d1 p = px w d2 p -> white w h d1 p -> white w h d2 p.
Proof.
  unfold white, px. intros He [Hp Hwh]. split; [done |].
  apply isWhite_quad. apply isWhite_quad in Hwh as [a Ha].
  exists a. by rewrite <- He.
Qed.

Lemma fill_not_white d p :
  px w d p = colorQuad fillColor -> ~ white w h d p.
Proof.
  unfold white, px. intros He [_ Hwh].
  apply isWhite_quad in Hwh as [a Ha]. rewrite He in Ha. discriminate.
Qed.

Lemma joined_holds (P : Pixel -> Prop) s p : joined P s p -> P p.
Proof. by destruct 1. Qed.

Lemma joined_seed (P : Pixel -> Prop) s p : joined P s p -> P s.
Proof. induction 1; done. Qed.

Lemma joined_iff (P Q : Pixel -> Prop) s p :
  (forall q, P q <-> Q q) -> joined P s p <-> joined Q s p.
Proof.
  intros HPQ. split; induction 1 as [Hs|p q _ IH Hadj Hq].
  - apply joined_refl. by apply HPQ.
  - eapply joined_step; [exact IH | done | by apply HPQ].
  - apply joined_refl. by apply HPQ.
  - eapply joined_step; [exact IH | done | by apply HPQ].
Qed.

Lemma wreach_white d s p : wreach w h d s p -> white w h d p.
Proof. apply joined_holds. Qed.

Lemma wreach_seed_white d s p : wreach w h d s p -> white w h d s.
Proof. apply joined_seed. Qed.

Lemma wreach_seed d s : white w h d s -> wreach w h d s s.
Proof. apply joined_refl. Qed.

Lemma wreach_step d s p q :
  wreach w h d s p -> adj p q -> white w h d q -> wreach w h d s q.
Proof. apply joined_step. Qed.

Lemma white_setPixelData d p q :
  wfData w h d -> inb w h p ->
  white w h (setPixelData d (pidx w p * 4) fillColor) q <->
  q <> p /\ white w h d q.
Proof.
  intros Hwf Hp. split.
  - intros Hq. assert (inb w h q) as Hqb by apply Hq.
    destruct (decide (q = p)) as [->|Hne].
    + exfalso. eapply fill_not_white; [| exact Hq].
      rewrite (px_setPixelData w h Hw Hh) by done. by rewrite decide_True.
    + split; [done |]. eapply white_px; [| exact Hq].
      rewrite (px_setPixelData w h Hw Hh) by done. rewrite decide_False; [done | congruence].
  - intros [Hne Hq]. assert (inb w h q) as Hqb by apply Hq.
    eapply white_px; [| exact Hq].
    rewrite (px_setPixelData w h Hw Hh) by done. rewrite decide_False; [done | congruence].
Qed.

Lemma whites_setPixelData d p :
  wfData w h d -> white w h d p ->
  (whites w h (setPixelData d (pidx w p * 4) fillColor) < whites w h d)%nat.
Proof.
  intros Hwf [Hp Hwh]. unfold whites.
  apply filter_length_lt with (x := p).
  - by apply elem_of_coords.
  - done.
  - apply not_true_is_false. intros Hc.
    assert (white w h (setPixelData d (pidx w p * 4) fillColor) p) as Hq
      by (split; done).
    apply white_setPixelData in Hq; [| done | done]. by destruct Hq.
  - intros q Hqb Hq. apply (elem_of_coords w h) in Hqb.
    assert (white w h (setPixelData d (pidx w p * 4) fillColor) q) as Hq'
      by (split; done).
    apply white_setPixelData in Hq'; [| done | done]. apply Hq'.
Qed.


Lemma adj_pushed x y q :
  adj (x, y) q <->
  q ∈ [(x, y - 1); (x, y + 1); (x - 1, y); (x + 1, y)].
Proof.
  unfold adj, neighbors. rewrite !elem_of_cons, !elem_of_nil. tauto.
Qed.

Lemma fillInv_init d0 s : fillInv w h d0 s d0 [s].
Proof.
  unfold fillInv. split; [done |]. split; [by left |]. split; [tauto |].
  split.
  - intros _. apply list_elem_of_here.
  - intros q Hq%list_elem_of_singleton Hwq. subst q. by apply wreach_seed.
Qed.

(** Popping a coordinate that is out of range or not white. *)
Lemma fillInv_skip d0 s d p rest :
  ~ white w h d p -> fillInv w h d0 s d (p :: rest) -> fillInv w h d0 s d rest.
Proof.
  intros Hnw (Hlen & Hpx & Hcl & Hseed & Hst).
  split; [done |]. split; [done |]. split; [| split].
  - intros p' q Hp' Hnp' Hadj Hq.
    specialize (Hcl p' q Hp' Hnp' Hadj Hq).
    apply elem_of_cons in Hcl as [->|Hcl]; [contradiction | done].
  - intros Hs. specialize (Hseed Hs).
    apply elem_of_cons in Hseed as [->|Hseed]; [contradiction | done].
  - intros q Hq. apply Hst. by apply elem_of_cons; right.
Qed.

(** Popping a white pixel: it is overwritten and its neighbours pushed. *)
Lemma fillInv_fill d0 s d x y rest :
  wfData w h d0 -> white w h d (x, y) ->
  fillInv w h d0 s d ((x, y) :: rest) ->
  fillInv w h d0 s (setPixelData d (pidx w (x, y) * 4) fillColor)
    ((x, y - 1) :: (x, y + 1) :: (x - 1, y) :: (x + 1, y) :: rest).
Proof.
  intros Hwf0 Hwp (Hlen & Hpx & Hcl & Hseed & Hst).
  assert (wfData w h d) as Hwf by (unfold wfData in *; rewrite Hlen; done).
  assert (inb w h (x, y)) as Hp by apply Hwp.
  remember (x, y) as p eqn:Ep.
  assert (white w h d0 p /\ wreach w h d0 s p) as [Hw0 Hreach].
  { destruct (Hpx p Hp) as [Hsame|(? & Hfill & ?)].
    - assert (white w h d0 p) by (eapply white_px; [symmetry |]; done).
      split; [done |]. apply Hst; [apply list_elem_of_here | done].
    - exfalso. by eapply fill_not_white. }
  split; [by rewrite length_setPixelData |]. split; [| split; [| split]].
  - intros q Hq. rewrite (px_setPixelData w h Hw Hh) by done.
    case_decide as Hd; [subst q; by right | by apply Hpx].
  - intros p' q Hp' Hnp' Hadj Hq.
    apply white_setPixelData in Hq as [Hqp Hq]; [| done | done].
    destruct (decide (p' = p)) as [->|Hne].
    + rewrite Ep in Hadj. apply adj_pushed in Hadj.
      rewrite !elem_of_cons, elem_of_nil in Hadj. rewrite !elem_of_cons. tauto.
    + assert (~ white w h d p') as Hnp.
      { intros Hc. apply Hnp'. apply white_setPixelData; done. }
      specialize (Hcl p' q Hp' Hnp Hadj Hq).
      apply elem_of_cons in Hcl as [->|Hcl]; [done |].
      rewrite !elem_of_cons. tauto.
  - intros Hs. apply white_setPixelData in Hs as [Hsp Hs]; [| done | done].
    specialize (Hseed Hs).
    apply elem_of_cons in Hseed as [->|Hseed]; [done |].
    rewrite !elem_of_cons. tauto.
  - intros q Hq Hwq.
    assert (adj p q \/ q ∈ rest) as [Hadj|Hr].
    { rewrite Ep, adj_pushed. rewrite !elem_of_cons in Hq.
      rewrite !elem_of_cons, elem_of_nil. tauto. }
    + by eapply wreach_step.
    + apply Hst; [by apply elem_of_cons; right | done].
Qed.

Lemma floodFill_step_out d x y rest :
  ~ inb w h (x, y) -> floodFill_step w h d (x, y) rest = (d, rest).
Proof.
  intros Hn. unfold floodFill_step.
  destruct ((x <? 0) || (x >=? w) || (y <? 0) || (y >=? h)) eqn:E; [done |].
  exfalso. apply Hn. unfold inb; simpl.
  rewrite !orb_false_iff in E. destruct E as [[[E1 E2] E3] E4].
  apply Z.ltb_ge in E1, E3. rewrite Z.geb_leb in E2, E4.
  apply Z.leb_gt in E2, E4. lia.
Qed.

Lemma floodFill_step_in d x y rest :
  inb w h (x, y) ->
  floodFill_step w h d (x, y) rest =
  if isWhite d (pidx w (x, y) * 4)
  then (setPixelData d (pidx w (x, y) * 4) fillColor,
        (x, y - 1) :: (x, y + 1) :: (x - 1, y) :: (x + 1, y) :: rest)
  else (d, rest).
Proof.
  intros [Hx Hy]. simpl in *. unfold floodFill_step.
  destruct ((x <? 0) || (x >=? w) || (y <? 0) || (y >=? h)) eqn:E; [| done].
  exfalso. rewrite !orb_true_iff in E. rewrite !Z.ltb_lt in E.
  rewrite !Z.geb_leb, !Z.leb_le in E. lia.
Qed.

(** The loop terminates within the measure and keeps the invariant. *)
Lemma floodFill_loop_inv d0 s fuel :
  wfData w h d0 ->
  forall d stack,
    fillInv w h d0 s d stack ->
    (fillMeasure w h d stack <= fuel)%nat ->
    exists d', floodFill_loop fuel w h d stack = Some d' /\
               fillInv w h d0 s d' [].
Proof.
  intros Hwf0. induction fuel as [|fuel IH]; intros d stack Hinv Hm.
  - destruct stack as [|p rest]; [by exists d |].
    unfold fillMeasure in Hm. simpl in Hm. lia.
  - destruct stack as [|[x y] rest]; [by exists d |]. cbn [floodFill_loop].
    unfold fillMeasure in Hm. simpl length in Hm.
    destruct (decide (inb w h (x, y))) as [Hp|Hp].
    + rewrite floodFill_step_in by done.
      destruct (isWhite d (pidx w (x, y) * 4)) eqn:Hwh.
      * assert (white w h d (x, y)) as Hwp by (split; done).
        assert (wfData w h d) as Hwf.
        { destruct Hinv as [Hlen _]. unfold wfData in *. by rewrite Hlen. }
        pose proof (whites_setPixelData d (x, y) Hwf Hwp).
        apply IH; [by apply fillInv_fill |].
        unfold fillMeasure. simpl length. lia.
      * apply IH; [| unfold fillMeasure; lia].
        eapply fillInv_skip; [| exact Hinv].
        intros [_ Hc]. congruence.
    + rewrite floodFill_step_out by done.
      apply IH; [| unfold fillMeasure; lia].
      eapply fillInv_skip; [| exact Hinv]. intros [Hc _]. done.
Qed.

Lemma fillInv_closed d0 s d :
  fillInv w h d0 s d [] -> forall p, wreach w h d0 s p -> ~ white w h d p.
Proof.
  intros (Hlen & Hpx & Hcl & Hseed & Hst) p Hr. unfold wreach in Hr.
  induction Hr as [Hs|p q Hr IH Hadj Hq].
  - intros Hc. specialize (Hseed Hc). by apply elem_of_nil in Hseed.
  - intros Hc. apply wreach_white in Hr.
    specialize (Hcl p q Hr IH Hadj Hc). by apply elem_of_nil in Hcl.
Qed.

Lemma fillInv_filled d0 s d :
  fillInv w h d0 s d [] -> filled w h d0 (wreach w h d0 s) d.
Proof.
  intros Hinv. pose proof (fillInv_closed _ _ _ Hinv) as Hclosed.
  destruct Hinv as (Hlen & Hpx & _). split; [done |].
  intros p Hp. destruct (Hpx p Hp) as [Hsame|(Hw0 & Hfill & Hr)].
  - right. split; [| done]. intros Hr. apply (Hclosed p Hr).
    eapply white_px; [symmetry; exact Hsame |]. by eapply wreach_white.
  - left. done.
Qed.

Lemma floodFillFuel_enough d (s : Pixel) :
  wfData w h d -> (fillMeasure w h d [s] <= floodFillFuel d)%nat.
Proof.
  intros (_ & _ & Hlen). unfold fillMeasure, floodFillFuel, whites.
  pose proof (length_filter_le (fun p => isWhite d (pidx w p * 4)) (coords w h)).
  rewrite length_coords in *. simpl length. nia.
Qed.

(** [floodFill] overwrites exactly the white pixels joined to the seed. *)
Lemma floodFill_spec m sx sy :
  width m = w -> height m = h -> wf m -> inb w h (sx, sy) ->
  exists d', floodFill m sx sy = Some (mkImageData w h d') /\
             filled w h (data m) (wreach w h (data m) (sx, sy)) d'.
Proof.
  intros Ew Eh Hwf Hs. destruct m as [mw mh d]. simpl in *. subst mw mh.
  unfold floodFill. simpl width; simpl height; simpl data.
  change ((sy * w + sx) * 4) with (pidx w (sx, sy) * 4).
  set (i := pidx w (sx, sy) * 4).
  destruct (eqv (rd d i) 0 || eqv (rd d i) 255 && eqv (rd d (i + 1)) 0) eqn:E.
  - exists d. split; [done |]. split; [done |].
    intros p Hp. right. split; [| done]. intros Hr.
    apply wreach_seed_white in Hr as [_ Hwh].
    fold i in Hwh. unfold isWhite in Hwh.
    rewrite !andb_true_iff, !eqv_true in Hwh. destruct Hwh as [[Hr Hg] Hb].
    rewrite Hr, Hg in E. simpl in E. discriminate.
  - destruct (floodFill_loop_inv d (sx, sy) (floodFillFuel d) Hwf d [(sx, sy)])
      as (d' & Hrun & Hinv).
    + apply fillInv_init.
    + pose proof (floodFillFuel_enough d (sx, sy) Hwf). unfold fillMeasure in *.
      simpl length in *. done.
    + rewrite Hrun. exists d'. split; [done |]. by apply fillInv_filled.
Qed.

End Fill.

Section Fills.
Variables w h : Z.
Hypothesis Hw : 0 < w.
Hypothesis Hh : 0 < h.

Lemma filled_refl d0 : filled w h d0 (fun _ => False) d0.
Proof. split; [done |]. intros p _. right. tauto. Qed.

Lemma filled_equiv d0 (S1 S2 : Pixel -> Prop) d :
  (forall p, S1 p <-> S2 p) -> filled w h d0 S1 d -> filled w h d0 S2 d.
Proof.
  intros HS [Hlen Hpx]. split; [done |]. intros p Hp.
  destruct (Hpx p Hp) as [[? ?]|[? ?]]; [left | right]; rewrite <- HS; done.
Qed.

Lemma filled_unique d0 (S1 S2 : Pixel -> Prop) d1 d2 :
  wfData w h d0 -> (forall p, S1 p <-> S2 p) ->
  filled w h d0 S1 d1 -> filled w h d0 S2 d2 -> d1 = d2.
Proof.
  intros Hwf HS [Hl1 Hp1] [Hl2 Hp2].
  apply (data_ext w h Hw).
  - unfold wfData in *. by rewrite Hl1.
  - congruence.
  - intros p Hp.
    destruct (Hp1 p Hp) as [[Ha Hb]|[Ha Hb]],
             (Hp2 p Hp) as [[Hc Hd]|[Hc Hd]]; try congruence.
    + exfalso. apply Hc. by apply HS.
    + exfalso. apply Ha. by apply HS.
Qed.

Lemma filled_white d0 S d p :
  filled w h d0 S d -> white w h d p -> white w h d0 p /\ ~ S p.
Proof.
  intros [_ Hpx] Hwp. destruct (Hpx p (proj1 Hwp)) as [[_ Hf]|[Hn He]].
  - exfalso. by eapply fill_not_white.
  - split; [| done]. eapply white_px; [exact He | done].
Qed.

Lemma closedUnder_wreach d s : closedUnder w h d (wreach w h d s).
Proof. intros p q Hr Hadj Hq. by eapply wreach_step. Qed.

(** Filling from [c] after the pixels of a closed set [S] were filled
    fills what is white-reachable from [c] in the original buffer. *)
Lemma filled_compose d0 (S : Pixel -> Prop) d1 c d2 :
  closedUnder w h d0 S ->
  filled w h d0 S d1 ->
  filled w h d1 (wreach w h d1 c) d2 ->
  filled w h d0 (fun p => S p \/ wreach w h d0 c p) d2.
Proof.
  intros Hcl H1 H2.
  assert (forall p, wreach w h d1 c p -> wreach w h d0 c p) as Hmono.
  { intros p Hr. unfold wreach in *.
    induction Hr as [Hs|p q _ IH Hadj Hq].
    - apply joined_refl. by eapply filled_white.
    - eapply joined_step; [exact IH | done |]. by eapply filled_white. }
  assert (forall p, wreach w h d0 c p -> ~ S p -> wreach w h d1 c p) as Hback.
  { intros p Hr. unfold wreach in *.
    induction Hr as [Hs|p q Hr IH Hadj Hq]; intros HnS.
    - apply joined_refl.
      destruct H1 as [_ Hpx]. destruct (Hpx c (proj1 Hs)) as [[? _]|[_ He]];
        [done |]. eapply white_px; [symmetry; exact He | done].
    - eapply joined_step; [apply IH | done |].
      + intros HS. apply HnS. by eapply Hcl.
      + destruct H1 as [_ Hpx]. destruct (Hpx q (proj1 Hq)) as [[? _]|[_ He]];
          [done |]. eapply white_px; [symmetry; exact He | done]. }
  destruct H1 as [Hl1 Hp1], H2 as [Hl2 Hp2].
  split; [congruence |]. intros p Hp.
  destruct (Hp2 p Hp) as [[Hr Hf]|[Hnr He]].
  - left. split; [right; by apply Hmono | done].
  - destruct (Hp1 p Hp) as [[HS Hf]|[HnS He1]].
    + left. split; [by left | congruence].
    + right. split; [| congruence].
      intros [HS|Hr]; [done |]. apply Hnr. by apply Hback.
Qed.

Lemma filled_wf d0 S d : wfData w h d0 -> filled w h d0 S d -> wfData w h d.
Proof. intros Hwf [Hl _]. unfold wfData in *. by rewrite Hl. Qed.

Lemma floodFills_acc d0 seeds :
  wfData w h d0 ->
  (forall s, s ∈ seeds -> inb w h s) ->
  forall (S : Pixel -> Prop) d1,
    closedUnder w h d0 S -> filled w h d0 S d1 ->
    exists d', floodFills seeds (mkImageData w h d1) = Some (mkImageData w h d') /\
               filled w h d0 (fun p => S p \/ reachAny w h d0 seeds p) d'.
Proof.
  intros Hwf0. induction seeds as [|[sx sy] seeds IH]; intros Hin S d1 Hcl Hf.
  - exists d1. split; [done |]. eapply filled_equiv; [| exact Hf].
    intros p. split; [by left |]. intros [?|(s & Hs & _)]; [done |].
    by apply elem_of_nil in Hs.
  - simpl floodFills.
    destruct (floodFill_spec w h Hw Hh (mkImageData w h d1) sx sy) as (d2 & Hrun & H2);
      [done | done | by eapply filled_wf | apply Hin, list_elem_of_here |].
    rewrite Hrun. simpl in H2.
    pose proof (filled_compose d0 S d1 (sx, sy) d2 Hcl Hf H2) as H02.
    destruct (IH (fun s Hs => Hin s (list_elem_of_further _ _ _ Hs))
                 (fun p => S p \/ wreach w h d0 (sx, sy) p) d2) as (d' & Hrun' & H');
      [| exact H02 |].
    + intros p q [HS|Hr] Hadj Hq; [left; by eapply Hcl | right; by eapply wreach_step].
    + exists d'. split; [done |]. eapply filled_equiv; [| exact H'].
      intros p. unfold reachAny. split.
      * intros [[HS|Hr]|(s & Hs & Hr)]; [by left | |].
        -- right. exists (sx, sy). split; [apply list_elem_of_here | done].
        -- right. exists s. split; [by apply list_elem_of_further | done].
      * intros [HS|(s & Hs & Hr)]; [by left; left |].
        apply elem_of_cons in Hs as [->|Hs]; [by left; right |].
        right. by exists s.
Qed.

(** Filling from a list of in-range seeds overwrites exactly the pixels
    that are white-reachable from one of them. *)
Lemma floodFills_spec m seeds :
  width m = w -> height m = h -> wf m ->
  (forall s, s ∈ seeds -> inb w h s) ->
  exists d', floodFills seeds m = Some (mkImageData w h d') /\
             filled w h (data m) (reachAny w h (data m) seeds) d'.
Proof.
  intros Ew Eh Hwf Hin. destruct m as [mw mh d]. simpl in *. subst mw mh.
  destruct (floodFills_acc d seeds Hwf Hin (fun _ => False) d) as (d' & Hrun & Hf).
  - intros p q [].
  - apply filled_refl.
  - exists d'. split; [done |]. eapply filled_equiv; [| exact Hf].
    intros p. tauto.
Qed.

Lemma corners_inb s : s ∈ corners w h -> inb w h s.
Proof.
  unfold corners. rewrite !elem_of_cons, elem_of_nil.
  intros [->|[->|[->|[->|[]]]]]; unfold inb; simpl; lia.
Qed.

End Fills.

Lemma classify_fill : classify (colorQuad fillColor) = EXTERIOR.
Proof. reflexivity. Qed.

Lemma classify_line : classify (colorQuad lineColor) = STROKE.
Proof. reflexivity. Qed.

Lemma classify_white : classify (colorQuad whiteColor) = INTERIOR.
Proof. reflexivity. Qed.

Lemma white_not_classified w h d p :
  white w h d p -> classify (px w d p) = INTERIOR.
Proof.
  intros [_ Hwh]. apply isWhite_quad in Hwh as [a Ha].
  unfold px. by rewrite Ha.
Qed.

Lemma objectMask_white m p :
  objectMask m -> (white (width m) (height m) (data m) p <-> interiorAt m p).
Proof.
  intros [Hwf Hpx]. split.
  - intros Hwp. split; [apply Hwp | by eapply white_not_classified].
  - intros [Hp Hc]. split; [done |].
    destruct (Hpx p Hp) as [He|He]; rewrite He in Hc; [discriminate |].
    apply isWhite_quad. eexists. exact He.
Qed.

(** The labeller's test [data[idx * 4] === 0] and the class STROKE agree. *)
Lemma stroke_classify w h d p :
  stroke w h d p <-> inb w h p /\ classify (px w d p) = STROKE.
Proof.
  unfold stroke, classify, px, quad. apply and_iff_compat_l. split.
  - intros ->. done.
  - destruct (eqv (rd d (pidx w p * 4)) 255 && eqv (rd d (pidx w p * 4 + 1)) 0);
      [discriminate |].
    destruct (eqv (rd d (pidx w p * 4)) 0) eqn:E; [| discriminate].
    intros _. by apply eqv_true.
Qed.

(** A seed that is not classified INTERIOR makes [floodFill] return at once. *)
Lemma floodFill_noop m sx sy :
  classify (px (width m) (data m) (sx, sy)) <> INTERIOR ->
  floodFill m sx sy = Some m.
Proof.
  unfold classify, px, quad, floodFill, pidx. simpl fst; simpl snd.
  set (i := (sy * width m + sx) * 4).
  destruct (eqv (rd (data m) i) 255 && eqv (rd (data m) (i + 1)) 0) eqn:E1.
  - intros _. by rewrite orb_true_r.
  - destruct (eqv (rd (data m) i) 0); [done | congruence].
Qed.

Section FillTheorems.
Variables w h : Z.
Hypothesis Hw : 0 < w.
Hypothesis Hh : 0 < h.

Lemma not_white_reach_empty d s p : ~ white w h d s -> ~ wreach w h d s p.
Proof. intros Hn Hr. apply Hn. by eapply wreach_seed_white. Qed.

(** After a fill from [s], a fill from [s] changes nothing. *)
Lemma floodFill_again d0 d1 sx sy :
  wfData w h d0 -> inb w h (sx, sy) ->
  filled w h d0 (wreach w h d0 (sx, sy)) d1 ->
  floodFill (mkImageData w h d1) sx sy = Some (mkImageData w h d1).
Proof.
  intros Hwf Hs Hf.
  assert (wfData w h d1) as Hwf1 by (by eapply filled_wf).
  destruct (floodFill_spec w h Hw Hh (mkImageData w h d1) sx sy)
    as (d2 & Hrun & H2); [done | done | done | done |].
  rewrite Hrun. do 2 f_equal. simpl in H2.
  symmetry. eapply (filled_unique w h Hw d1); [done | | apply filled_refl | exact H2].
  intros p. split; [done |]. intros Hr.
  apply wreach_seed_white in Hr.
  destruct (filled_white w h _ _ _ _ Hf Hr) as [Hw0 Hn].
  apply Hn. by apply wreach_seed.
Qed.

Lemma reachAny_Permutation d (l1 l2 : list Pixel) p :
  Permutation l1 l2 -> reachAny w h d l1 p <-> reachAny w h d l2 p.
Proof.
  intros HP. unfold reachAny. split; intros (s & Hs & Hr); exists s; split; try done.
  - by rewrite <- HP.
  - by rewrite HP.
Qed.

(** All pixels of an all-white buffer are joined to the corner [(0, 0)]. *)
Lemma allwhite_reach d :
  (forall p, inb w h p -> white w h d p) ->
  forall p, inb w h p -> wreach w h d (0, 0) p.
Proof.
  intros Hall.
  assert (forall n : nat, Z.of_nat n < w -> wreach w h d (0, 0) (Z.of_nat n, 0)) as Hrow.
  { induction n as [|n IH]; intros Hn.
    - apply wreach_seed, Hall. unfold inb; simpl. lia.
    - eapply wreach_step; [apply IH; lia | |].
      + unfold adj, neighbors. rewrite Nat2Z.inj_succ.
        replace (Z.succ (Z.of_nat n)) with (Z.of_nat n + 1) by lia.
        apply list_elem_of_here.
      + apply Hall. unfold inb; simpl. lia. }
  assert (forall (n k : nat), Z.of_nat n < w -> Z.of_nat k < h ->
            wreach w h d (0, 0) (Z.of_nat n, Z.of_nat k)) as Hcol.
  { intros n. induction k as [|k IH]; intros Hn Hk.
    - by apply Hrow.
    - eapply wreach_step; [apply IH; lia | |].
      + unfold adj, neighbors. rewrite Nat2Z.inj_succ.
        replace (Z.succ (Z.of_nat k)) with (Z.of_nat k + 1) by lia.
        rewrite !elem_of_cons. tauto.
      + apply Hall. unfold inb; simpl. lia. }
  intros [x y] [Hx Hy]. simpl in *.
  specialize (Hcol (Z.to_nat x) (Z.to_nat y)).
  rewrite !Z2Nat.id in Hcol by lia. apply Hcol; lia.
Qed.

End FillTheorems.

(** C5. [floodFill] is idempotent, the four corner calls give the same mask
    in every order, and a call whose seed pixel is STROKE or EXTERIOR
    returns the mask unchanged. *)
Theorem floodFill_idempotent_order_insensitive (m : ImageData) :
  wf m ->
  (forall sx sy, inb (width m) (height m) (sx, sy) ->
     exists m1, floodFill m sx sy = Some m1 /\ floodFill m1 sx sy = Some m1) /\
  (exists m4,
     floodFills (corners (width m) (height m)) m = Some m4 /\
     (forall seeds, Permutation seeds (corners (width m) (height m)) ->
        floodFills seeds m = Some m4) /\
     floodFills (corners (width m) (height m)) m4 = Some m4) /\
  (forall sx sy,
     classify (px (width m) (data m) (sx, sy)) = STROKE \/
     classify (px (width m) (data m) (sx, sy)) = EXTERIOR ->
     floodFill m sx sy = Some m).
Proof.
  intros Hwf. destruct m as [w h d]. pose proof Hwf as (Hw & Hh & Hlen).
  cbn [width height data] in *. split; [| split].
  - intros sx sy Hs.
    destruct (floodFill_spec w h Hw Hh (mkImageData w h d) sx sy)
      as (d1 & Hrun & H1); [done | done | done | done |].
    eexists. split; [exact Hrun |]. by eapply floodFill_again.
  - destruct (floodFills_spec w h Hw Hh (mkImageData w h d) (corners w h))
      as (d4 & Hrun & H4); [done | done | done | apply corners_inb; lia |].
    cbn [data] in H4. eexists. split; [exact Hrun |]. split.
    + intros seeds HP.
      destruct (floodFills_spec w h Hw Hh (mkImageData w h d) seeds)
        as (d' & Hrun' & H'); [done | done | done | |].
      { intros s Hs. apply corners_inb; [lia | lia |]. by rewrite <- HP. }
      rewrite Hrun'. do 2 f_equal. cbn [data] in H'.
      eapply (filled_unique w h Hw d); [done | | exact H' | exact H4].
      intros p. by apply reachAny_Permutation.
    + assert (wfData w h d4) as Hwf4 by (by eapply filled_wf).
      destruct (floodFills_spec w h Hw Hh (mkImageData w h d4) (corners w h))
        as (d' & Hrun' & H'); [done | done | done | apply corners_inb; lia |].
      rewrite Hrun'. do 2 f_equal. cbn [data] in H'.
      symmetry. eapply (filled_unique w h Hw d4); [done | | apply filled_refl | exact H'].
      intros p. split; [done |]. intros (c & Hc & Hr).
      apply wreach_seed_white in Hr.
      destruct (filled_white w h _ _ _ _ H4 Hr) as [Hw0 Hn].
      apply Hn. exists c. split; [done |]. by apply wreach_seed.
  - intros sx sy Hc. apply floodFill_noop. cbn [width data]. destruct Hc as [-> | ->]; done.
Qed.

(** C4. After the four corner fills of an object mask, the EXTERIOR pixels
    are exactly the pixels joined to a corner by a 4-connected path of
    pixels that were INTERIOR; the other INTERIOR pixels stay INTERIOR and
    STROKE pixels keep their cells. *)
Theorem corner_fills_mark_exterior (m : ImageData) :
  objectMask m ->
  exists m',
    floodFills (corners (width m) (height m)) m = Some m' /\
    width m' = width m /\ height m' = height m /\
    forall p, inb (width m) (height m) p ->
      let before := classify (px (width m) (data m) p) in
      let after := classify (px (width m) (data m') p) in
      let joinedToCorner :=
        exists c, c ∈ corners (width m) (height m) /\ joined (interiorAt m) c p in
      (after = EXTERIOR <-> before = INTERIOR /\ joinedToCorner) /\
      (before = INTERIOR -> ~ joinedToCorner ->
         after = INTERIOR /\ px (width m) (data m') p = px (width m) (data m) p) /\
      (before = STROKE -> px (width m) (data m') p = px (width m) (data m) p).
Proof.
  intros Hobj. pose proof Hobj as [Hwf Hpx].
  pose proof Hwf as (Hw & Hh & Hlen).
  destruct (floodFills_spec (width m) (height m) Hw Hh m
              (corners (width m) (height m)))
    as (d' & Hrun & [Hl Hf]); [done | done | done | apply corners_inb; lia |].
  eexists. split; [exact Hrun |]. split; [done |]. split; [done |].
  intros p Hp. cbv zeta. cbn [data].
  assert ((exists c, c ∈ corners (width m) (height m) /\ joined (interiorAt m) c p)
          <-> reachAny (width m) (height m) (data m) (corners (width m) (height m)) p)
    as Hiff.
  { unfold reachAny, wreach. split; intros (c & Hc & Hr); exists c; split; try done.
    - eapply joined_iff; [| exact Hr]. intros q. by apply objectMask_white.
    - eapply joined_iff; [| exact Hr]. intros q. symmetry. by apply objectMask_white. }
  rewrite Hiff. clear Hiff.
  destruct (Hf p Hp) as [[Hr He]|[Hn He]]; rewrite He.
  - assert (classify (px (width m) (data m) p) = INTERIOR) as Hbefore.
    { destruct Hr as (c & _ & Hr). apply wreach_white in Hr.
      by eapply white_not_classified. }
    rewrite Hbefore. split; [done |]. split; [done | discriminate].
  - split; [| split].
    + split; [| tauto]. intros Hc.
      destruct (Hpx p Hp) as [Hq|Hq]; rewrite Hq in Hc; discriminate.
    + done.
    + done.
Qed.

(** ** Paths *)

Lemma adj_sym p q : adj p q -> adj q p.
Proof.
  destruct p as [x y], q as [x' y']. unfold adj, neighbors.
  rewrite !elem_of_cons, !elem_of_nil.
  intros [H|[H|[H|[H|[]]]]]; inversion H; subst.
  - right; left. f_equal; lia.
  - left. f_equal; lia.
  - right; right; right; left. f_equal; lia.
  - right; right; left. f_equal; lia.
Qed.

Lemma joined_trans (P : Pixel -> Prop) a b c :
  joined P a b -> joined P b c -> joined P a c.
Proof.
  intros Hab Hbc. induction Hbc as [_|p q _ IH Hadj Hq]; [done |].
  by eapply joined_step.
Qed.

Lemma joined_sym (P : Pixel -> Prop) a b : joined P a b -> joined P b a.
Proof.
  induction 1 as [Ha|p q Hap IH Hadj Hq]; [by apply joined_refl |].
  eapply joined_trans; [| exact IH].
  eapply joined_step; [by apply joined_refl | by apply adj_sym |].
  by eapply joined_holds.
Qed.

(** ** The component labeller *)

Section Labeller.
Variables w h : Z.
Hypothesis Hw : 0 < w.
Hypothesis Hh : 0 < h.
Variable d : list Z.

Lemma vis_unv_excl V p : vis w h V p -> unv w h V p -> False.
Proof. intros [_ H1] [_ H0]. congruence. Qed.

Lemma good_vis_or_unv V p :
  goodVisited w h V -> inb w h p -> vis w h V p \/ unv w h V p.
Proof.
  intros [Hlen Hval] Hp. pose proof (pidx_range w h Hw Hh p Hp) as Hr.
  destruct (rd_in_range V (pidx w p)) as [v Hv]; [lia |].
  destruct (Hval _ _ Hv) as [-> | ->]; [right | left]; done.
Qed.

Lemma rd_mark V n q :
  goodVisited w h V -> inb w h n -> inb w h q ->
  rd (wr V (pidx w n) 1) (pidx w q) =
  if decide (q = n) then Some 1 else rd V (pidx w q).
Proof.
  intros [Hlen _] Hn Hq. pose proof (pidx_range w h Hw Hh n Hn).
  case_decide as Hd.
  - subst q. apply rd_wr_eq. lia.
  - apply rd_wr_ne. intros He. apply Hd. symmetry. by eapply (pidx_inj w h Hw).
Qed.

Lemma good_mark V i : goodVisited w h V -> goodVisited w h (wr V i 1).
Proof.
  intros [Hlen Hval]. split; [by rewrite length_wr |].
  intros j v Hj. destruct (decide (i = j)) as [->|Hne].
  - pose proof (rd_Some_range _ _ _ Hj) as Hr. rewrite length_wr in Hr.
    rewrite rd_wr_eq in Hj by done. right. congruence.
  - rewrite rd_wr_ne in Hj by done. by eapply Hval.
Qed.

Lemma vis_mark V n q :
  goodVisited w h V -> inb w h n ->
  vis w h (wr V (pidx w n) 1) q <-> q = n \/ vis w h V q.
Proof.
  intros HV Hn. unfold vis. split.
  - intros [Hq Hr]. rewrite rd_mark in Hr by done.
    case_decide; [by left | by right].
  - intros [->|[Hq Hr]]; (split; [done |]); rewrite rd_mark by done.
    + by rewrite decide_True.
    + case_decide; done.
Qed.

Lemma count_mark V n :
  goodVisited w h V -> unv w h V n ->
  (unvisitedCount w h (wr V (pidx w n) 1) < unvisitedCount w h V)%nat.
Proof.
  intros HV [Hn H0]. unfold unvisitedCount.
  apply filter_length_lt with (x := n).
  - by apply elem_of_coords.
  - by apply eqv_true.
  - rewrite rd_mark by done. by rewrite decide_True.
  - intros q Hq%elem_of_coords. rewrite rd_mark by done.
    case_decide; [discriminate | done].
Qed.

Lemma visitNeighbor_take V stack n :
  stroke w h d n -> unv w h V n ->
  visitNeighbor w h d (V, stack) n = (wr V (pidx w n) 1, n :: stack).
Proof.
  intros [Hn Hs] [_ Hu]. unfold visitNeighbor.
  rewrite (proj2 (inRange_inb w h n) Hn).
  change (snd n * w + fst n) with (pidx w n).
  by rewrite Hs, Hu.
Qed.

Lemma visitNeighbor_leave V stack n :
  ~ (stroke w h d n /\ unv w h V n) ->
  visitNeighbor w h d (V, stack) n = (V, stack).
Proof.
  intros Hn. unfold visitNeighbor.
  destruct (inRange w h n) eqn:Hr; [| done].
  apply inRange_inb in Hr.
  change (snd n * w + fst n) with (pidx w n).
  destruct (eqv (rd d (pidx w n * 4)) 0 && eqv (rd V (pidx w n)) 0) eqn:E; [| done].
  exfalso. apply Hn. apply andb_true_iff in E as [E1 E2].
  apply eqv_true in E1, E2. split; split; done.
Qed.

(** One neighbour of the popped pixel [p]. *)
Lemma visitNeighbor_inv V0 s P V stack p n :
  nbInv w h d V0 s P V stack -> p ∈ P -> adj p n ->
  exists V' stack',
    visitNeighbor w h d (V, stack) n = (V', stack') /\
    nbInv w h d V0 s P V' stack' /\
    (forall q, vis w h V q -> vis w h V' q) /\
    (stroke w h d n -> vis w h V' n) /\
    (travMeasure w h V' stack' <= travMeasure w h V stack)%nat.
Proof.
  intros (HV & Hvis & Hnd & Hin) Hp Hadj.
  destruct (decide (inb w h n)) as [Hn|Hn].
  2:{ exists V, stack. split; [apply visitNeighbor_leave; intros [[? _] _]; done |].
      split; [done |]. split; [done |]. split; [| done].
      intros [? _]. done. }
  destruct (good_vis_or_unv V n HV Hn) as [Hv|Hu].
  { exists V, stack. split.
    - apply visitNeighbor_leave. intros [_ Hu]. by eapply vis_unv_excl.
    - done. }
  destruct (rd d (pidx w n * 4)) as [v|] eqn:Hrd.
  2:{ exists V, stack. split; [apply visitNeighbor_leave; intros [[_ ?] _]; congruence |].
      split; [done |]. split; [done |]. split; [| done].
      intros [_ ?]. congruence. }
  destruct (decide (v = 0)) as [->|Hv0].
  2:{ exists V, stack. split; [apply visitNeighbor_leave; intros [[_ ?] _]; congruence |].
      split; [done |]. split; [done |]. split; [| done].
      intros [_ ?]. congruence. }
  assert (stroke w h d n) as Hs by (split; done).
  exists (wr V (pidx w n) 1), (n :: stack).
  split; [by apply visitNeighbor_take |].
  assert (~ vis w h V n) as Hnv by (intros Hc; by eapply vis_unv_excl).
  split; [| split; [| split]].
  - split; [by apply good_mark |]. split; [| split].
    + intros q. rewrite vis_mark by done. rewrite Hvis, elem_of_cons. tauto.
    + apply NoDup_app. apply NoDup_app in Hnd as (HP & Hdis & Hst).
      split; [done |]. split.
      * intros q HqP Hq. apply elem_of_cons in Hq as [->|Hq]; [| by eapply Hdis].
        apply Hnv, Hvis. tauto.
      * apply NoDup_cons. split; [| done].
        intros Hc. apply Hnv, Hvis. tauto.
    + intros q Hq. rewrite elem_of_app, elem_of_cons in Hq.
      destruct Hq as [Hq|[->|Hq]].
      * apply Hin. apply elem_of_app. tauto.
      * split; [intros Hc; apply Hnv, Hvis; tauto |].
        eapply joined_step; [| exact Hadj | exact Hs].
        apply Hin. apply elem_of_app. tauto.
      * apply Hin. apply elem_of_app. tauto.
  - intros q Hq. apply vis_mark; [done | done | by right].
  - intros _. apply vis_mark; [done | done | by left].
  - pose proof (count_mark V n HV Hu). unfold travMeasure. simpl length. lia.
Qed.

(** The whole [for] loop over the neighbours. *)
Lemma visitNeighbors_inv V0 s P p ns :
  p ∈ P -> (forall n, n ∈ ns -> adj p n) ->
  forall V stack,
    nbInv w h d V0 s P V stack ->
    exists V' stack',
      fold_left (visitNeighbor w h d) ns (V, stack) = (V', stack') /\
      nbInv w h d V0 s P V' stack' /\
      (forall q, vis w h V q -> vis w h V' q) /\
      (forall n, n ∈ ns -> stroke w h d n -> vis w h V' n) /\
      (travMeasure w h V' stack' <= travMeasure w h V stack)%nat.
Proof.
  intros Hp. induction ns as [|n ns IH]; intros Hadj V stack Hinv.
  - exists V, stack. split; [done |]. split; [done |]. split; [done |].
    split; [| done]. intros n Hn. by apply elem_of_nil in Hn.
  - destruct (visitNeighbor_inv V0 s P V stack p n Hinv Hp)
      as (V1 & st1 & Hrun1 & Hinv1 & Hmono1 & Hn1 & Hm1);
      [apply Hadj, list_elem_of_here |].
    destruct (IH (fun n' Hn' => Hadj n' (list_elem_of_further _ _ _ Hn')) V1 st1 Hinv1)
      as (V2 & st2 & Hrun2 & Hinv2 & Hmono2 & Hn2 & Hm2).
    exists V2, st2. cbn [fold_left]. rewrite Hrun1. split; [done |].
    split; [done |]. split; [auto |]. split; [| lia].
    intros n' Hn' Hs. apply elem_of_cons in Hn' as [->|Hn']; auto.
Qed.

Lemma tightBox_boxInv c : tightBox c -> boxInv w h c.
Proof. intros [Hc Ht]. split; [done | by right]. Qed.

Lemma elem_of_snoc (P : list Pixel) (p q : Pixel) :
  q ∈ P ++ [p] <-> q ∈ P \/ q = p.
Proof. rewrite elem_of_app, list_elem_of_singleton. tauto. Qed.

Lemma boxInv_addPixel c p :
  inb w h p -> boxInv w h c -> tightBox (addPixel c p).
Proof.
  intros [Hx Hy] [Hcov Hcase]. destruct p as [cx cy]. simpl in Hx, Hy.
  unfold tightBox, boxCovers, boxTouched, addPixel in *.
  cbn [pixels minX minY maxX maxY].
  destruct Hcase as [(He & E1 & E2 & E3 & E4)|(H1 & H2 & H3 & H4)].
  - rewrite He, E1, E2, E3, E4. simpl app.
    destruct (Z.ltb_spec cx w); [| lia]. destruct (Z.ltb_spec cy h); [| lia].
    destruct (Z.gtb_spec cx (-1)); [| lia]. destruct (Z.gtb_spec cy (-1)); [| lia].
    split.
    + intros q Hq%list_elem_of_singleton. subst q. simpl. lia.
    + repeat split; exists (cx, cy); (split; [apply list_elem_of_here | done]).
  - destruct H1 as (q1 & Hq1 & E1), H2 as (q2 & Hq2 & E2),
      H3 as (q3 & Hq3 & E3), H4 as (q4 & Hq4 & E4).
    assert ((cx, cy) ∈ pixels c ++ [(cx, cy)]) as Hin by (apply elem_of_snoc; by right).
    split.
    + intros q Hq. apply elem_of_snoc in Hq as [Hq| ->].
      * specialize (Hcov q Hq).
        destruct (Z.ltb_spec cx (minX c)), (Z.ltb_spec cy (minY c)),
          (Z.gtb_spec cx (maxX c)), (Z.gtb_spec cy (maxY c)); lia.
      * simpl.
        destruct (Z.ltb_spec cx (minX c)), (Z.ltb_spec cy (minY c)),
          (Z.gtb_spec cx (maxX c)), (Z.gtb_spec cy (maxY c)); lia.
    + split; [| split; [| split]].
      * destruct (Z.ltb_spec cx (minX c)).
        -- by exists (cx, cy).
        -- exists q1. split; [apply elem_of_snoc; by left | done].
      * destruct (Z.gtb_spec cx (maxX c)).
        -- by exists (cx, cy).
        -- exists q2. split; [apply elem_of_snoc; by left | done].
      * destruct (Z.ltb_spec cy (minY c)).
        -- by exists (cx, cy).
        -- exists q3. split; [apply elem_of_snoc; by left | done].
      * destruct (Z.gtb_spec cy (maxY c)).
        -- by exists (cx, cy).
        -- exists q4. split; [apply elem_of_snoc; by left | done].
Qed.

End Labeller.

Lemma allPixels_snoc comps c : allPixels (comps ++ [c]) = allPixels comps ++ pixels c.
Proof.
  unfold allPixels. rewrite map_app, concat_app. simpl. by rewrite app_nil_r.
Qed.

Lemma elem_of_allPixels comps p :
  p ∈ allPixels comps <-> exists c, c ∈ comps /\ p ∈ pixels c.
Proof.
  unfold allPixels. rewrite list_elem_of_In, in_concat. split.
  - intros (l & Hl & Hp). apply in_map_iff in Hl as (c & <- & Hc).
    exists c. by rewrite !list_elem_of_In.
  - intros (c & Hc & Hp). exists (pixels c).
    rewrite <- !list_elem_of_In. split; [| done].
    apply list_elem_of_In, in_map, list_elem_of_In. done.
Qed.

Lemma pixels_addPixel c p : pixels (addPixel c p) = pixels c ++ [p].
Proof. by destruct p. Qed.

Section Traverse.
Variables w h : Z.
Hypothesis Hw : 0 < w.
Hypothesis Hh : 0 < h.
Variable d : list Z.

Lemma conn_inb s p : conn w h d s p -> inb w h p.
Proof. intros Hc. apply joined_holds in Hc. apply Hc. Qed.

Lemma conn_stroke s p : conn w h d s p -> stroke w h d p.
Proof. apply joined_holds. Qed.

(** One iteration of the [while] loop of the labeller. *)
Lemma traverse_step_inv V0 s V p rest c :
  travInv w h d V0 s V (p :: rest) c ->
  exists V' stack',
    fold_left (visitNeighbor w h d) (neighbors p) (V, rest) = (V', stack') /\
    travInv w h d V0 s V' stack' (addPixel c p) /\
    (travMeasure w h V' stack' < travMeasure w h V (p :: rest))%nat.
Proof.
  intros ((HV & Hvis & Hnd & Hin) & Hcl & Hbox & Hseed & Hhead).
  assert (nbInv w h d V0 s (pixels c ++ [p]) V rest) as Hnb.
  { split; [done |]. split; [| split].
    - intros q. rewrite Hvis, elem_of_snoc, elem_of_cons. tauto.
    - by rewrite <- app_assoc.
    - intros q Hq. apply Hin. by rewrite <- app_assoc in Hq. }
  assert (p ∈ pixels c ++ [p]) as Hp by (apply elem_of_snoc; by right).
  destruct (visitNeighbors_inv w h Hw Hh d V0 s (pixels c ++ [p]) p (neighbors p) Hp
              (fun n Hn => Hn) V rest Hnb)
    as (V' & stack' & Hrun & Hnb' & Hmono & Hnbs & Hm).
  exists V', stack'. split; [done |]. split.
  - split; [by rewrite pixels_addPixel |]. split; [| split; [| split]].
    + intros p' q Hp'. rewrite pixels_addPixel in Hp'.
      apply elem_of_snoc in Hp' as [Hp'| ->].
      * intros Hadj Hs. apply Hmono. by eapply Hcl.
      * intros Hadj Hs. by apply Hnbs.
    + apply (tightBox_boxInv w h), (boxInv_addPixel w h); [| done].
      eapply conn_inb, Hin. apply elem_of_app. right. apply list_elem_of_here.
    + rewrite pixels_addPixel.
      destruct Hnb' as (_ & Hvis' & _ & _).
      assert (vis w h V s) as Hvs by (apply Hvis; rewrite elem_of_app in Hseed; tauto).
      apply Hmono, Hvis' in Hvs. destruct Hvs as [Hv0|Hvs].
      * exfalso. by apply (Hin s Hseed).
      * apply elem_of_app. done.
    + right. rewrite pixels_addPixel.
      destruct Hhead as [[-> Hst]|Hhd].
      * inversion Hst. done.
      * destruct (pixels c); [done | done].
  - unfold travMeasure in *. simpl length. lia.
Qed.

Lemma traverse_inv V0 s fuel :
  forall V stack c,
    travInv w h d V0 s V stack c ->
    (travMeasure w h V stack <= fuel)%nat ->
    exists V' c', traverse fuel w h d V stack c = Some (V', c') /\
                  travInv w h d V0 s V' [] c'.
Proof.
  induction fuel as [|fuel IH]; intros V stack c Hinv Hm.
  - destruct stack as [|p rest]; [by exists V, c |].
    unfold travMeasure in Hm. simpl in Hm. lia.
  - destruct stack as [|p rest]; [by exists V, c |].
    cbn [traverse].
    destruct (traverse_step_inv V0 s V p rest c Hinv)
      as (V' & stack' & Hrun & Hinv' & Hm').
    rewrite Hrun. apply IH; [done | lia].
Qed.

Lemma unvisitedCount_le V :
  goodVisited w h V -> (unvisitedCount w h V <= length V)%nat.
Proof.
  intros [Hlen _]. unfold unvisitedCount.
  pose proof (length_filter_le (fun p => eqv (rd V (pidx w p)) 0) (coords w h)) as Hle.
  rewrite length_coords in Hle. nia.
Qed.

(** A finished traversal collected exactly the group of its seed. *)
Lemma travInv_group V0 s V c :
  (forall p q, vis w h V0 p -> conn w h d p q -> vis w h V0 q) ->
  (forall p, vis w h V0 p -> stroke w h d p) ->
  travInv w h d V0 s V [] c ->
  isGroup w h d c /\ tightBox c /\ NoDup (pixels c) /\
  (forall q, q ∈ pixels c -> ~ vis w h V0 q) /\
  (forall q, vis w h V q <-> vis w h V0 q \/ q ∈ pixels c) /\
  s ∈ pixels c /\ head (pixels c) = Some s.
Proof.
  intros Hclosed Hstroke ((HV & Hvis & Hnd & Hin) & Hcl & Hbox & Hseed & Hhead).
  rewrite app_nil_r in *.
  assert (forall q, q ∈ pixels c -> conn w h d s q) as Hconn by (intros q Hq; by apply Hin).
  assert (forall p q, p ∈ pixels c -> adj p q -> stroke w h d q -> q ∈ pixels c) as Hstep.
  { intros p q Hp Hadj Hs.
    destruct (proj1 (Hvis q) (Hcl p q Hp Hadj Hs)) as [Hv0|[Hq|Hq]]; [| done |].
    - exfalso. apply (Hin p Hp). apply (Hclosed q p Hv0).
      eapply joined_step; [by apply joined_refl | by apply adj_sym |].
      by eapply conn_stroke, Hconn.
    - by apply elem_of_nil in Hq. }
  assert (forall q, conn w h d s q -> q ∈ pixels c) as Hall.
  { intros q Hq. unfold conn in Hq.
    induction Hq as [_|p q _ IH Hadj Hs]; [done | by eapply Hstep]. }
  split; [| split; [| split; [| split; [| split; [| split]]]]].
  - split.
    + intros He. rewrite He in Hseed. by apply elem_of_nil in Hseed.
    + intros p q Hp. split.
      * intros Hq. eapply joined_trans; [apply joined_sym, Hconn | apply Hconn]; done.
      * intros Hpq. apply Hall. eapply joined_trans; [apply Hconn |]; done.
  - destruct Hbox as [Hcov [(He & _)|Ht]]; [| done].
    rewrite He in Hseed. by apply elem_of_nil in Hseed.
  - done.
  - intros q Hq. by apply Hin.
  - intros q. rewrite Hvis, elem_of_nil. tauto.
  - done.
  - destruct Hhead as [[_ ?]|?]; done.
Qed.

End Traverse.

Section Scan.
Variables w h : Z.
Hypothesis Hw : 0 < w.
Hypothesis Hh : 0 < h.
Variable d : list Z.

Lemma scanInv_closed seen V comps :
  scanInv w h d seen V comps ->
  (forall p q, vis w h V p -> conn w h d p q -> vis w h V q) /\
  (forall p, vis w h V p -> stroke w h d p).
Proof.
  intros (HV & Hvis & Hnd & Hgrp & Hseen & _). split.
  - intros p q Hp Hpq. apply Hvis, elem_of_allPixels in Hp as (c & Hc & Hp).
    apply Hvis, elem_of_allPixels. exists c. split; [done |].
    destruct (Hgrp c Hc) as [[_ Hg] _]. by apply (Hg p q Hp).
  - intros p Hp. apply Hvis, elem_of_allPixels in Hp as (c & Hc & Hp).
    destruct (Hgrp c Hc) as [[_ Hg] _].
    eapply conn_stroke. by apply (Hg p p Hp).
Qed.

Lemma scanPixel_skip V comps p :
  ~ (stroke w h d p /\ unv w h V p) -> inb w h p ->
  scanPixel w h d (V, comps) p = Some (V, comps).
Proof.
  intros Hn Hp. unfold scanPixel.
  change (snd p * w + fst p) with (pidx w p).
  destruct (eqv (rd d (pidx w p * 4)) 0 && eqv (rd V (pidx w p)) 0) eqn:E; [| done].
  exfalso. apply Hn. apply andb_true_iff in E as [E1 E2].
  apply eqv_true in E1, E2. split; split; done.
Qed.

Lemma scanPixel_start V comps p :
  stroke w h d p -> unv w h V p ->
  scanPixel w h d (V, comps) p =
  match traverse (traverseFuel V) w h d (wr V (pidx w p) 1) [p]
          (mkComponent [] w h (-1) (-1)) with
  | Some (V', c) => Some (V', comps ++ [c])
  | None => None
  end.
Proof.
  intros [_ Hs] [_ Hu]. unfold scanPixel.
  change (snd p * w + fst p) with (pidx w p).
  by rewrite Hs, Hu.
Qed.

Lemma head_snoc {A} (l : list A) (x y : A) :
  head l = Some y -> head (l ++ [x]) = Some y.
Proof. by destruct l. Qed.

(** The body of the scan at an in-range pixel [p] that comes after the
    pixels seen so far and before every other pixel. *)
Lemma scanPixel_inv seen V comps p :
  inb w h p ->
  (forall q, q ∈ seen -> pidx w q < pidx w p) ->
  (forall q, inb w h q -> q ∉ seen -> pidx w p <= pidx w q) ->
  scanInv w h d seen V comps ->
  exists V' comps',
    scanPixel w h d (V, comps) p = Some (V', comps') /\
    scanInv w h d (p :: seen) V' comps'.
Proof.
  intros Hp Hlt Hge Hinv. pose proof (scanInv_closed _ _ _ Hinv) as [Hclosed Hstroke].
  destruct Hinv as (HV & Hvis & Hnd & Hgrp & Hseen & Hhd & Hord).
  assert (~ (stroke w h d p /\ unv w h V p) ->
          (stroke w h d p -> vis w h V p) ->
          exists V' comps',
            scanPixel w h d (V, comps) p = Some (V', comps') /\
            scanInv w h d (p :: seen) V' comps') as Hskip.
  { intros Hn Hsv. exists V, comps. split; [by apply scanPixel_skip |].
    split; [done |]. split; [done |]. split; [done |]. split; [done |].
    split; [| split; [| done]].
    - intros q Hq Hs. apply elem_of_cons in Hq as [->|Hq]; auto.
    - intros c s Hc Hs. apply list_elem_of_further. by eapply Hhd. }
  destruct (good_vis_or_unv w h Hw Hh V p HV Hp) as [Hv|Hu].
  { apply Hskip; [| done]. intros [_ Hu]. by eapply vis_unv_excl. }
  destruct (rd d (pidx w p * 4)) as [v|] eqn:Hrd.
  2:{ apply Hskip; intros [[_ ?] ?]; congruence. }
  destruct (decide (v = 0)) as [->|Hv0].
  2:{ apply Hskip; intros [[_ ?] ?]; congruence. }
  clear Hskip.
  assert (stroke w h d p) as Hs by (split; done).
  assert (~ vis w h V p) as Hnv by (intros Hc; by eapply vis_unv_excl).
  assert (travInv w h d V p (wr V (pidx w p) 1) [p] (mkComponent [] w h (-1) (-1)))
    as Hstart.
  { split; [| split; [| split; [| split]]].
    - split; [by apply good_mark |]. split; [| split].
      + intros q. rewrite vis_mark by done. cbn [pixels].
        rewrite elem_of_nil, list_elem_of_singleton. tauto.
      + cbn [pixels]. simpl. apply NoDup_singleton.
      + intros q Hq. cbn [pixels] in Hq. simpl in Hq.
        apply list_elem_of_singleton in Hq. subst q.
        split; [done | by apply joined_refl].
    - intros p' q Hp'. cbn [pixels] in Hp'. by apply elem_of_nil in Hp'.
    - split.
      + intros q Hq. cbn [pixels] in Hq. by apply elem_of_nil in Hq.
      + left. done.
    - cbn [pixels]. simpl. apply list_elem_of_here.
    - left. done. }
  destruct (traverse_inv w h Hw Hh d V p (traverseFuel V) _ _ _ Hstart)
    as (V' & c & Hrun & Hfin).
  { assert (unvisitedCount w h (wr V (pidx w p) 1)
            <= length (wr V (pidx w p) 1))%nat as Hle
      by (apply unvisitedCount_le; first [done | by apply good_mark]).
    rewrite length_wr in Hle. unfold travMeasure, traverseFuel. simpl length. lia. }
  destruct (travInv_group w h d V p V' c Hclosed Hstroke Hfin)
    as (Hg & Ht & Hndc & Hfresh & Hvis' & Hpc & Hhead).
  assert (forall q, q ∈ pixels c -> pidx w p <= pidx w q) as Hleast.
  { intros q Hq. destruct Hg as [_ Hg].
    assert (stroke w h d q) as Hsq by (eapply conn_stroke, (Hg p q); done).
    apply Hge; [apply Hsq |]. intros Hqs. apply (Hfresh q Hq). by apply Hseen. }
  exists V', (comps ++ [c]). split.
  - rewrite scanPixel_start by done. by rewrite Hrun.
  - split; [apply Hfin |]. split; [| split; [| split; [| split; [| split]]]].
    + intros q. rewrite Hvis', allPixels_snoc, elem_of_app, Hvis. done.
    + rewrite allPixels_snoc. apply NoDup_app. split; [done |]. split; [| done].
      intros q Hq Hqc. apply (Hfresh q Hqc). by apply Hvis.
    + intros c' Hc'. apply elem_of_app in Hc' as [Hc'|Hc']; [by apply Hgrp |].
      apply list_elem_of_singleton in Hc'. by subst c'.
    + intros q Hq Hsq. apply Hvis'.
      apply elem_of_cons in Hq as [->|Hq]; [by right | left; auto].
    + intros c' s Hc' Hs'. apply elem_of_app in Hc' as [Hc'|Hc'].
      * apply list_elem_of_further. by eapply Hhd.
      * apply list_elem_of_singleton in Hc'. subst c'.
        rewrite Hhead in Hs'. inversion Hs'. apply list_elem_of_here.
    + destruct Hord as [Hmin Hinc]. split.
      * intros c' s q Hc' Hs' Hq. apply elem_of_app in Hc' as [Hc'|Hc'];
          [by eapply Hmin |].
        apply list_elem_of_singleton in Hc'. subst c'.
        rewrite Hhead in Hs'. inversion Hs'; subst s. by apply Hleast.
      * intros i j ci cj si sj Hi Hj Hsi Hsj Hij.
        apply lookup_snoc_Some in Hi as [[Hil Hi]|[-> <-]],
                               Hj as [[Hjl Hj]|[-> <-]].
        -- by eapply (Hinc i j ci cj).
        -- rewrite Hhead in Hsj. inversion Hsj; subst sj.
           apply Hlt. eapply Hhd; [| done]. by eapply list_elem_of_lookup_2.
        -- lia.
        -- lia.
Qed.

Lemma scan_inv ps :
  forall seen V comps,
    (forall p, p ∈ ps -> inb w h p) ->
    rowMajor w ps ->
    (forall q p, q ∈ seen -> p ∈ ps -> pidx w q < pidx w p) ->
    (forall q, inb w h q -> q ∈ seen \/ q ∈ ps) ->
    scanInv w h d seen V comps ->
    exists V' comps',
      scan w h d ps (V, comps) = Some (V', comps') /\
      scanInv w h d (rev ps ++ seen) V' comps'.
Proof.
  induction ps as [|p ps IH]; intros seen V comps Hin Hsort Hlt Hcov Hinv.
  - by exists V, comps.
  - apply StronglySorted_inv in Hsort as [Hsort Hp].
    rewrite Forall_forall in Hp.
    destruct (scanPixel_inv seen V comps p) as (V1 & comps1 & Hrun1 & Hinv1).
    + apply Hin, list_elem_of_here.
    + intros q Hq. apply Hlt; [done | apply list_elem_of_here].
    + intros q Hq Hns. destruct (Hcov q Hq) as [?|Hqp]; [done |].
      apply elem_of_cons in Hqp as [->|Hqp]; [lia |].
      apply Z.lt_le_incl, Hp. done.
    + done.
    + destruct (IH (p :: seen) V1 comps1) as (V2 & comps2 & Hrun2 & Hinv2).
      * intros q Hq. apply Hin. by apply list_elem_of_further.
      * done.
      * intros q p' Hq Hp'. apply elem_of_cons in Hq as [->|Hq].
        -- by apply Hp.
        -- apply Hlt; [done | by apply list_elem_of_further].
      * intros q Hq. destruct (Hcov q Hq) as [?|Hqp].
        -- left. by apply list_elem_of_further.
        -- apply elem_of_cons in Hqp as [->|Hqp];
             [left; apply list_elem_of_here | by right].
      * done.
      * exists V2, comps2. cbn [scan]. rewrite Hrun1. split; [done |].
        simpl rev. by rewrite <- app_assoc.
Qed.

Lemma scanInv_init :
  scanInv w h d [] (replicate (Z.to_nat (w * h)) 0) [].
Proof.
  assert (forall p, ~ vis w h (replicate (Z.to_nat (w * h)) 0) p) as Hnv.
  { intros p [Hp Hr]. pose proof (pidx_range w h Hw Hh p Hp).
    rewrite rd_replicate in Hr by lia. discriminate. }
  split; [| split; [| split; [| split; [| split; [| split]]]]].
  - split; [rewrite length_replicate; nia |].
    intros i v Hr. pose proof (rd_Some_range _ _ _ Hr) as Hi.
    rewrite length_replicate in Hi. rewrite rd_replicate in Hr by lia.
    left. congruence.
  - intros p. split; [intros Hc; by apply Hnv in Hc |].
    intros Hc. by apply elem_of_nil in Hc.
  - apply NoDup_nil_2.
  - intros c Hc. by apply elem_of_nil in Hc.
  - intros p Hp. by apply elem_of_nil in Hp.
  - intros c s Hc. by apply elem_of_nil in Hc.
  - split.
    + intros c s q Hc. by apply elem_of_nil in Hc.
    + intros i j ci cj si sj Hi. done.
Qed.

Lemma rowMajor_row y (xs : list Z) :
  StronglySorted Z.lt xs -> rowMajor w (map (fun x => (x, y)) xs).
Proof.
  induction 1 as [|x xs Hs IH Hx]; [constructor |].
  simpl. constructor; [done |].
  rewrite Forall_forall in Hx. apply Forall_forall.
  intros q Hq%list_elem_of_fmap. destruct Hq as (x' & -> & Hx').
  unfold pidx. simpl. specialize (Hx x' Hx'). lia.
Qed.

Lemma zrange_sorted n : StronglySorted Z.lt (zrange n).
Proof.
  unfold zrange. generalize 0%nat as a. induction (Z.to_nat n) as [|k IH]; intros a.
  - constructor.
  - simpl. constructor; [apply IH |].
    apply Forall_forall. intros x Hx%list_elem_of_fmap.
    destruct Hx as (i & -> & Hi). apply elem_of_seq in Hi. lia.
Qed.

Lemma rowMajor_app l1 l2 :
  rowMajor w l1 -> rowMajor w l2 ->
  (forall a b, a ∈ l1 -> b ∈ l2 -> pidx w a < pidx w b) ->
  rowMajor w (l1 ++ l2).
Proof.
  intros H1 H2 H12. induction H1 as [|a l1 Hs IH Ha]; [done |].
  simpl. constructor.
  - apply IH. intros a' b Ha' Hb. apply H12; [by apply list_elem_of_further | done].
  - apply Forall_app. split; [done |].
    apply Forall_forall. intros b Hb. apply H12; [apply list_elem_of_here | done].
Qed.

Lemma rowMajor_rows (ys : list Z) :
  StronglySorted Z.lt ys -> (forall y, y ∈ ys -> 0 <= y) ->
  rowMajor w (flat_map (fun y => map (fun x => (x, y)) (zrange w)) ys).
Proof.
  induction 1 as [|y ys Hs IH Hy]; intros Hpos; [constructor |].
  simpl. apply rowMajor_app.
  - apply rowMajor_row, zrange_sorted.
  - apply IH. intros y' Hy'. apply Hpos. by apply list_elem_of_further.
  - intros a b Ha%list_elem_of_fmap Hb.
    destruct Ha as (x & -> & Hx%elem_of_zrange).
    apply list_elem_of_In, in_flat_map in Hb as (y' & Hy' & Hb).
    apply list_elem_of_In in Hy'.
    apply list_elem_of_In, list_elem_of_fmap in Hb as (x' & -> & Hx'%elem_of_zrange).
    rewrite Forall_forall in Hy. specialize (Hy y' Hy').
    unfold pidx. simpl. nia.
Qed.

Lemma coords_rowMajor : rowMajor w (coords w h).
Proof.
  apply rowMajor_rows; [apply zrange_sorted |].
  intros y Hy%elem_of_zrange. lia.
Qed.

(** What one labelling pass returns. *)
Lemma labelComponents_spec :
  exists comps,
    labelComponents w h d = Some comps /\
    NoDup (allPixels comps) /\
    (forall p, p ∈ allPixels comps <-> stroke w h d p) /\
    (forall c, c ∈ comps -> isGroup w h d c /\ tightBox c) /\
    discoveryOrder w comps.
Proof.
  destruct (scan_inv (coords w h) [] (replicate (Z.to_nat (w * h)) 0) [])
    as (V & comps & Hrun & Hinv).
  { intros p Hp. by apply elem_of_coords. }
  { apply coords_rowMajor. }
  { intros q p Hq. by apply elem_of_nil in Hq. }
  { intros q Hq. right. by apply elem_of_coords. }
  { apply scanInv_init. }
  exists comps. unfold labelComponents. rewrite Hrun. split; [done |].
  pose proof (scanInv_closed _ _ _ Hinv) as [_ Hstroke].
  destruct Hinv as (HV & Hvis & Hnd & Hgrp & Hseen & _ & Hord).
  split; [done |]. split; [| done].
  intros p. rewrite <- Hvis. split; [apply Hstroke |].
  intros Hs. apply Hseen; [| done].
  apply elem_of_app. left.
  apply list_elem_of_In, (proj1 (in_rev _ _)), list_elem_of_In, elem_of_coords.
  apply Hs.
Qed.

End Scan.

(** ** Components as a partition *)

Lemma concat_NoDup_unique {A} (ls : list (list A)) :
  NoDup (concat ls) ->
  forall i j l1 l2 x,
    ls !! i = Some l1 -> ls !! j = Some l2 -> x ∈ l1 -> x ∈ l2 -> i = j.
Proof.
  induction ls as [|l ls IH]; intros Hnd i j l1 l2 x Hi Hj H1 H2; [done |].
  simpl in Hnd. apply NoDup_app in Hnd as (Hl & Hdis & Hrest).
  assert (forall k l', ls !! k = Some l' -> x ∈ l' -> x ∈ concat ls) as Hin.
  { intros k l' Hk Hx. apply list_elem_of_In, in_concat. exists l'.
    rewrite <- !list_elem_of_In. split; [by eapply list_elem_of_lookup_2 | done]. }
  destruct i as [|i], j as [|j]; simpl in Hi, Hj.
  - done.
  - inversion Hi; subst l1. exfalso. eapply Hdis; [exact H1 | by eapply Hin].
  - inversion Hj; subst l2. exfalso. eapply Hdis; [exact H2 | by eapply Hin].
  - f_equal. by eapply (IH Hrest i j l1 l2 x).
Qed.

Lemma concat_NoDup_each {A} (ls : list (list A)) l :
  NoDup (concat ls) -> l ∈ ls -> NoDup l.
Proof.
  induction ls as [|l' ls IH]; intros Hnd Hl; [by apply elem_of_nil in Hl |].
  simpl in Hnd. apply NoDup_app in Hnd as (Hl' & _ & Hrest).
  apply elem_of_cons in Hl as [->|Hl]; auto.
Qed.

Lemma tightBox_ordered c : tightBox c -> minX c <= maxX c /\ minY c <= maxY c.
Proof.
  intros [Hcov ((p & Hp & _) & _)]. specialize (Hcov p Hp). lia.
Qed.

Lemma tightBox_area c : tightBox c -> 0 <= area c.
Proof. intros Ht%tightBox_ordered. unfold area. nia. Qed.

(** The components of one labelling pass, in full. *)
Lemma labelComponents_groups (m : ImageData) :
  wf m ->
  exists comps,
    labelComponents (width m) (height m) (data m) = Some comps /\
    NoDup (allPixels comps) /\
    (forall c, c ∈ comps -> NoDup (pixels c)) /\
    (forall i j c1 c2 p,
       comps !! i = Some c1 -> comps !! j = Some c2 ->
       p ∈ pixels c1 -> p ∈ pixels c2 -> i = j) /\
    (forall p, stroke (width m) (height m) (data m) p <->
               exists c, c ∈ comps /\ p ∈ pixels c) /\
    (forall c, c ∈ comps ->
       isGroup (width m) (height m) (data m) c /\ tightBox c) /\
    discoveryOrder (width m) comps.
Proof.
  intros (Hw & Hh & _).
  destruct (labelComponents_spec (width m) (height m) Hw Hh (data m))
    as (comps & Hrun & Hnd & Hcover & Hgrp & Hord).
  exists comps. split; [done |]. split; [done |]. split; [| split; [| split; [| split]]].
  - intros c Hc. eapply (concat_NoDup_each (map pixels comps)); [exact Hnd |].
    apply list_elem_of_fmap. by exists c.
  - intros i j c1 c2 p Hi Hj H1 H2.
    eapply (concat_NoDup_unique (map pixels comps) Hnd i j);
      [| | exact H1 | exact H2]; rewrite list_lookup_fmap.
    + by rewrite Hi.
    + by rewrite Hj.
  - intros p. by rewrite <- Hcover, elem_of_allPixels.
  - done.
  - done.
Qed.

(** C3. One labelling pass partitions the STROKE pixels of the mask: the
    pixel lists are duplicate-free and pairwise disjoint, together they hold
    exactly the STROKE pixels, each list is a whole 4-connected group of
    STROKE pixels, and each box is the minimum and maximum of the member
    coordinates. *)
Theorem labelComponents_partition (m : ImageData) :
  wf m ->
  exists comps,
    labelComponents (width m) (height m) (data m) = Some comps /\
    NoDup (allPixels comps) /\
    (forall c, c ∈ comps -> NoDup (pixels c)) /\
    (forall i j c1 c2 p,
       comps !! i = Some c1 -> comps !! j = Some c2 ->
       p ∈ pixels c1 -> p ∈ pixels c2 -> i = j) /\
    (forall p, stroke (width m) (height m) (data m) p <->
               exists c, c ∈ comps /\ p ∈ pixels c) /\
    (forall c, c ∈ comps ->
       isGroup (width m) (height m) (data m) c /\ tightBox c).
Proof.
  intros (Hw & Hh & _).
  destruct (labelComponents_spec (width m) (height m) Hw Hh (data m))
    as (comps & Hrun & Hnd & Hcover & Hgrp & _).
  exists comps. split; [done |]. split; [done |]. split; [| split; [| split]].
  - intros c Hc. apply (concat_NoDup_each (map pixels comps)); [exact Hnd |].
    apply list_elem_of_fmap. by exists c.
  - intros i j c1 c2 p Hi Hj H1 H2.
    apply (concat_NoDup_unique (map pixels comps) Hnd i j (pixels c1) (pixels c2) p);
      [| | exact H1 | exact H2]; rewrite list_lookup_fmap.
    + by rewrite Hi.
    + by rewrite Hj.
  - intros p. rewrite <- Hcover. by rewrite elem_of_allPixels.
  - exact Hgrp.
Qed.

(** ** Selection of the main frame *)

Section Select.
Variable comps : list Component.
Hypothesis Hnonneg : forall c, c ∈ comps -> 0 <= area c.

Lemma mainFrameStep_selected n st c :
  comps !! n = Some c -> selected comps n st -> selected comps (S n) (mainFrameStep st (n, c)).
Proof.
  intros Hc Hsel. right. destruct st as [k a]. unfold mainFrameStep.
  cbn [fst snd].
  assert (0 <= area c) as Hpos by (eapply Hnonneg, list_elem_of_lookup_2; done).
  destruct Hsel as [[-> Hst]|(mf & Hk & Hmf & Ha & Hmax)].
  - inversion Hst; subst k a.
    destruct (Z.gtb_spec (area c) (-1)); [| lia].
    exists c. cbn [fst snd]. split; [lia |]. split; [done |]. split; [done |].
    intros j c' Hj Hc'. assert (j = 0%nat) as -> by lia.
    rewrite Hc in Hc'. inversion Hc'; subst c'. split; [lia | lia].
  - cbn [fst snd] in *. subst a.
    destruct (Z.gtb_spec (area c) (area mf)).
    + exists c. cbn [fst snd]. split; [lia |]. split; [done |]. split; [done |].
      intros j c' Hj Hc'. destruct (decide (j = n)) as [->|Hne].
      * rewrite Hc in Hc'. inversion Hc'; subst c'. split; lia.
      * destruct (Hmax j c' ltac:(lia) Hc'). split; lia.
    + exists mf. cbn [fst snd]. split; [lia |]. split; [done |]. split; [done |].
      intros j c' Hj Hc'. destruct (decide (j = n)) as [->|Hne].
      * rewrite Hc in Hc'. inversion Hc'; subst c'. split; lia.
      * by apply Hmax; [lia |].
Qed.

Lemma selected_fold l2 :
  forall l1 st, comps = l1 ++ l2 -> selected comps (length l1) st ->
    selected comps (length comps)
      (fold_left mainFrameStep (combine (seq (length l1) (length l2)) l2) st).
Proof.
  induction l2 as [|c l2 IH]; intros l1 st He Hsel.
  - simpl. assert (length comps = length l1) as ->
      by (by rewrite He, app_nil_r). done.
  - simpl. specialize (IH (l1 ++ [c]) (mainFrameStep st (length l1, c))).
    rewrite length_app in IH. simpl in IH.
    replace (length l1 + 1)%nat with (S (length l1)) in IH by lia.
    apply IH.
    + by rewrite <- app_assoc.
    + apply mainFrameStep_selected; [| done].
      rewrite He. by apply list_lookup_middle.
Qed.

Lemma selectMainFrame_spec :
  comps <> [] ->
  exists mf,
    comps !! selectMainFrame comps = Some mf /\
    forall j c, comps !! j = Some c ->
      area c <= area mf /\ ((j < selectMainFrame comps)%nat -> area c < area mf).
Proof.
  intros Hne. unfold selectMainFrame, indexed.
  pose proof (selected_fold comps [] (0%nat, -1) eq_refl) as Hsel.
  simpl length in Hsel at 1 2.
  destruct Hsel as [[Hlen _]|(mf & Hk & Hmf & _ & Hmax)]; [by left | |].
  - destruct comps; [done | discriminate].
  - exists mf. split; [done |]. intros j c Hc. apply Hmax; [| done].
    by eapply lookup_lt_Some.
Qed.

End Select.

(** C2. On the components of a labelling pass, which come in row-major
    discovery order, the main frame has the largest bounding-box area and
    every component of the same area comes at or after it: the
    earliest-discovered component of maximal area is kept. *)
Theorem mainFrame_maximal_earliest (m : ImageData) :
  wf m ->
  exists comps,
    labelComponents (width m) (height m) (data m) = Some comps /\
    discoveryOrder (width m) comps /\
    (comps <> [] ->
     exists mainFrame,
       comps !! selectMainFrame comps = Some mainFrame /\
       (forall c, c ∈ comps -> area c <= area mainFrame) /\
       (forall j c, comps !! j = Some c ->
          area c = area mainFrame -> (selectMainFrame comps <= j)%nat) /\
       (forall j c, comps !! j = Some c ->
          (j < selectMainFrame comps)%nat -> area c < area mainFrame)).
Proof.
  intros Hwf. destruct (labelComponents_groups m Hwf)
    as (comps & Hrun & _ & _ & _ & _ & Hgrp & Hord).
  exists comps. split; [done |]. split; [done |]. intros Hne.
  destruct (selectMainFrame_spec comps) as (mf & Hmf & Hmax); [| done |].
  { intros c Hc. apply tightBox_area. by apply Hgrp. }
  exists mf. split; [done |]. split; [| split].
  - intros c Hc. apply list_elem_of_lookup in Hc as (j & Hj). by apply (Hmax j c).
  - intros j c Hj He. destruct (Hmax j c Hj) as [_ Hlt].
    destruct (decide (selectMainFrame comps <= j)%nat); [done |].
    assert (area c < area mf) by (apply Hlt; lia). lia.
  - intros j c Hj Hlt. by apply (Hmax j c Hj).
Qed.

(** ** Painting the retained components *)

Lemma centerX_boxCenterX c : (centerX c == boxCenterX c)%Q.
Proof.
  unfold centerX, boxCenterX. unfold Z.sub.
  rewrite !inject_Z_plus, inject_Z_opp. field.
Qed.

Lemma centerY_boxCenterY c : (centerY c == boxCenterY c)%Q.
Proof.
  unfold centerY, boxCenterY. unfold Z.sub.
  rewrite !inject_Z_plus, inject_Z_opp. field.
Qed.

Lemma insideFrame_centerInside mf c :
  insideFrame mf c = true <-> centerInside mf c.
Proof.
  unfold insideFrame, centerInside.
  rewrite !andb_true_iff, !Qle_bool_iff.
  rewrite !centerX_boxCenterX, !centerY_boxCenterY. tauto.
Qed.

Lemma elem_of_combine_seq {A} (l : list A) n j (c : A) :
  (j, c) ∈ combine (seq n (length l)) l <->
  (n <= j)%nat /\ l !! (j - n)%nat = Some c.
Proof.
  revert n. induction l as [|a l IH]; intros n; simpl.
  - rewrite elem_of_nil. split; [done | intros [_ ?]; done].
  - rewrite elem_of_cons, IH. split.
    + intros [He|[Hn Hl]].
      * inversion He; subst. split; [lia |]. by rewrite Nat.sub_diag.
      * split; [lia |]. replace (j - n)%nat with (S (j - S n)) by lia. done.
    + intros [Hn Hl]. destruct (decide (j = n)) as [->|Hne].
      * left. rewrite Nat.sub_diag in Hl. simpl in Hl. congruence.
      * right. split; [lia |].
        replace (j - n)%nat with (S (j - S n)) in Hl by lia. done.
Qed.

Lemma elem_of_indexed {A} (l : list A) j (c : A) :
  (j, c) ∈ indexed l <-> l !! j = Some c.
Proof.
  unfold indexed. rewrite elem_of_combine_seq, Nat.sub_0_r.
  split; [tauto | split; [lia | done]].
Qed.

Lemma elem_of_objectComponents comps k mf c :
  c ∈ objectComponents comps k mf <->
  c = mf \/ exists j, comps !! j = Some c /\ j <> k /\ insideFrame mf c = true.
Proof.
  unfold objectComponents. rewrite elem_of_cons, list_elem_of_fmap.
  apply or_iff_compat_l. split.
  - intros ([j c'] & -> & Hin). apply list_elem_of_In, filter_In in Hin as [Hin Hret].
    apply list_elem_of_In, elem_of_indexed in Hin.
    unfold retained in Hret. cbn [fst snd] in *.
    apply andb_true_iff in Hret as [Hne Hins].
    exists j. split; [done |]. split; [| done].
    apply negb_true_iff, Nat.eqb_neq in Hne. done.
  - intros (j & Hj & Hne & Hins). exists (j, c). split; [done |].
    apply list_elem_of_In, filter_In. split.
    + by apply list_elem_of_In, elem_of_indexed.
    + unfold retained. cbn [fst snd]. rewrite Hins, andb_true_r.
      by apply negb_true_iff, Nat.eqb_neq.
Qed.

Lemma paintComponents_flat w cs d :
  fold_left (paintComponent w) cs d = fold_left (paintPixel w) (allPixels cs) d.
Proof.
  revert d. induction cs as [|c cs IH]; intros d; [done |].
  unfold allPixels. simpl. rewrite fold_left_app. apply IH.
Qed.

Section Paint.
Variables w h : Z.
Hypothesis Hw : 0 < w.
Hypothesis Hh : 0 < h.

Lemma paintPixels_spec ps :
  (forall p, p ∈ ps -> inb w h p) ->
  forall d, wfData w h d ->
    wfData w h (fold_left (paintPixel w) ps d) /\
    forall q, inb w h q ->
      px w (fold_left (paintPixel w) ps d) q =
      if decide (q ∈ ps) then colorQuad lineColor else px w d q.
Proof.
  induction ps as [|p ps IH]; intros Hin d Hwf.
  - split; [done |]. intros q Hq. rewrite decide_False; [done |].
    apply not_elem_of_nil.
  - cbn [fold_left].
    assert (inb w h p) as Hp by apply Hin, list_elem_of_here.
    assert (wfData w h (paintPixel w d p)) as Hwf'
      by (unfold paintPixel; by apply wfData_setPixelData).
    destruct (IH (fun q Hq => Hin q (list_elem_of_further _ _ _ Hq)) _ Hwf')
      as [Hwf'' Hpx].
    split; [done |]. intros q Hq. rewrite (Hpx q Hq).
    destruct (decide (q ∈ ps)) as [Hqs|Hqs].
    + rewrite decide_True; [done |]. by apply list_elem_of_further.
    + unfold paintPixel. change (snd p * w + fst p) with (pidx w p).
      rewrite (px_setPixelData w h Hw Hh) by done.
      destruct (decide (p = q)) as [->|Hne].
      * rewrite decide_True; [done | apply list_elem_of_here].
      * rewrite decide_False; [done |].
        rewrite elem_of_cons. intros [->|?]; done.
Qed.

Lemma px_replicate v q :
  inb w h q ->
  px w (replicate (Z.to_nat (4 * w * h)) v) q = (Some v, Some v, Some v, Some v).
Proof.
  intros Hq. pose proof (pidx_range w h Hw Hh q Hq).
  unfold px, quad. rewrite !rd_replicate by lia. done.
Qed.

Lemma wfData_replicate v : wfData w h (replicate (Z.to_nat (4 * w * h)) v).
Proof. split; [done |]. split; [done |]. rewrite length_replicate. nia. Qed.

(** The mask built by the selector, pixel by pixel. *)
Lemma selectObject_spec comps c0 :
  (forall c p, c ∈ comps -> p ∈ pixels c -> inb w h p) ->
  comps !! selectMainFrame comps = Some c0 ->
  wf (selectObject w h comps) /\
  width (selectObject w h comps) = w /\ height (selectObject w h comps) = h /\
  forall q, inb w h q ->
    px w (data (selectObject w h comps)) q =
    if decide (q ∈ allPixels (objectComponents comps (selectMainFrame comps) c0))
    then colorQuad lineColor else colorQuad whiteColor.
Proof.
  intros Hin Hmf. unfold selectObject.
  destruct comps as [|c1 comps']; [done |].
  set (comps := c1 :: comps') in *.
  assert (nth (selectMainFrame comps) comps c1 = c0) as ->.
  { apply nth_lookup_Some with (d := c1) in Hmf. done. }
  cbn [data newImageData]. rewrite length_replicate, paintComponents_flat.
  destruct (paintPixels_spec (allPixels (objectComponents comps (selectMainFrame comps) c0)))
    with (d := replicate (Z.to_nat (4 * w * h)) 255) as [Hwf Hpx].
  - intros p Hp. apply elem_of_allPixels in Hp as (c & Hc & Hp).
    apply elem_of_objectComponents in Hc as [->|(j & Hj & _)].
    + eapply Hin; [| done]. by eapply list_elem_of_lookup_2.
    + eapply Hin; [| done]. by eapply list_elem_of_lookup_2.
  - apply wfData_replicate.
  - split; [done |]. split; [done |]. split; [done |].
    intros q Hq. rewrite (Hpx q Hq). case_decide; [done |].
    by apply px_replicate.
Qed.

End Paint.

(** C1. A component other than the main frame has its pixels painted with
    the line colour in the object mask exactly when the centre of its
    bounding box lies in the main frame's box, bounds included; otherwise
    its pixels are left white. *)
Theorem secondary_painted_iff_center_inside (m : ImageData) :
  wf m ->
  exists comps,
    labelComponents (width m) (height m) (data m) = Some comps /\
    findObjectContours m = Some (selectObject (width m) (height m) comps) /\
    forall mainFrame j comp p,
      comps !! selectMainFrame comps = Some mainFrame ->
      comps !! j = Some comp -> j <> selectMainFrame comps ->
      p ∈ pixels comp ->
      let painted :=
        px (width m) (data (selectObject (width m) (height m) comps)) p in
      (painted = colorQuad lineColor <-> centerInside mainFrame comp) /\
      (~ centerInside mainFrame comp -> painted = colorQuad whiteColor).
Proof.
  intros Hwf. pose proof Hwf as (Hw & Hh & _).
  destruct (labelComponents_groups m Hwf)
    as (comps & Hrun & _ & _ & Hdisj & Hcover & _ & _).
  exists comps. split; [done |]. split; [unfold findObjectContours; by rewrite Hrun |].
  intros mf j comp p Hmf Hj Hne Hp. cbv zeta.
  assert (forall c q, c ∈ comps -> q ∈ pixels c ->
            inb (width m) (height m) q) as Hin.
  { intros c q Hc Hq. eapply proj1, Hcover. eauto. }
  destruct (selectObject_spec (width m) (height m) Hw Hh comps mf Hin Hmf)
    as (_ & _ & _ & Hpx).
  rewrite (Hpx p (Hin comp p (list_elem_of_lookup_2 _ _ _ Hj) Hp)).
  rewrite <- insideFrame_centerInside.
  assert (p ∈ allPixels (objectComponents comps (selectMainFrame comps) mf)
          <-> insideFrame mf comp = true) as Hiff.
  { rewrite elem_of_allPixels. split.
    - intros (c & Hc & Hpc). apply elem_of_objectComponents in Hc as [->|(j' & Hj' & _ & Hins)].
      + exfalso. apply Hne. by eapply (Hdisj j _ comp mf p).
      + assert (j' = j) as -> by (by eapply (Hdisj j' j c comp p)).
        congruence.
    - intros Hins. exists comp. split; [| done].
      apply elem_of_objectComponents. right. by exists j. }
  case_decide as Hd.
  - split; [by split; [intros _; apply Hiff |] |].
    intros Hn. exfalso. apply Hn. by apply Hiff.
  - split; [| done]. split; [discriminate |]. intros Hins. exfalso. by apply Hd, Hiff.
Qed.

(** ** Loops that write every pixel once *)

Lemma elem_of_pixelStarts len i :
  i ∈ pixelStarts len <-> 0 <= i < Z.of_nat len /\ i mod 4 = 0.
Proof.
  unfold pixelStarts. rewrite list_elem_of_fmap.
  pose proof (Nat.div_mod_eq (len + 3) 4) as Hdm.
  pose proof (Nat.mod_upper_bound (len + 3) 4 ltac:(lia)) as Hm.
  split.
  - intros (k & -> & Hk). apply elem_of_seq in Hk.
    split; [lia |]. rewrite Z.mul_comm. apply Z_mod_mult.
  - intros [Hi Hmod]. exists (Z.to_nat (i / 4)).
    pose proof (Z.div_mod i 4 ltac:(lia)) as Hd.
    assert (0 <= i / 4) by (apply Z.div_pos; lia).
    split; [lia |]. apply elem_of_seq. lia.
Qed.

Lemma pixelwise_fold (f : Z -> Color) (ks : list Z) :
  forall out,
    (forall i, i ∈ ks -> 0 <= i /\ i + 3 < Z.of_nat (length out) /\ i mod 4 = 0) ->
    length (fold_left (fun o i => setPixelData o i (f i)) ks out) = length out /\
    forall j, j mod 4 = 0 ->
      quad (fold_left (fun o i => setPixelData o i (f i)) ks out) j =
      if decide (j ∈ ks) then colorQuad (f j) else quad out j.
Proof.
  induction ks as [|i ks IH]; intros out Hks.
  - split; [done |]. intros j _. rewrite decide_False; [done | apply not_elem_of_nil].
  - cbn [fold_left].
    destruct (Hks i (list_elem_of_here _ _)) as (Hi0 & Hi3 & Himod).
    destruct (IH (setPixelData out i (f i))) as [Hlen Hq].
    { intros i' Hi'. rewrite length_setPixelData.
      apply Hks. by apply list_elem_of_further. }
    rewrite length_setPixelData in Hlen. split; [done |].
    intros j Hj. rewrite (Hq j Hj).
    destruct (decide (j ∈ ks)) as [Hjk|Hjk].
    + rewrite decide_True; [done | by apply list_elem_of_further].
    + destruct (decide (j = i)) as [->|Hne].
      * rewrite decide_True by apply list_elem_of_here.
        by apply quad_setPixelData_same.
      * rewrite decide_False by (rewrite elem_of_cons; intros [?|?]; done).
        apply quad_setPixelData_other.
        pose proof (Z.div_mod i 4 ltac:(lia)). pose proof (Z.div_mod j 4 ltac:(lia)).
        lia.
Qed.

Section Pixelwise.
Variables w h : Z.
Hypothesis Hw : 0 < w.
Hypothesis Hh : 0 < h.

Lemma pixelwise_px (f : Z -> Color) len out :
  Z.of_nat len = 4 * w * h -> Z.of_nat (length out) = 4 * w * h ->
  wfData w h (fold_left (fun o i => setPixelData o i (f i)) (pixelStarts len) out) /\
  forall p, inb w h p ->
    px w (fold_left (fun o i => setPixelData o i (f i)) (pixelStarts len) out) p =
    colorQuad (f (pidx w p * 4)).
Proof.
  intros Hlen Hout.
  destruct (pixelwise_fold f (pixelStarts len) out) as [Hl Hq].
  { intros i Hi%elem_of_pixelStarts.
    pose proof (Z.div_mod i 4 ltac:(lia)). lia. }
  split; [split; [done | split; [done | by rewrite Hl]] |].
  intros p Hp. pose proof (pidx_range w h Hw Hh p Hp).
  unfold px. rewrite Hq by apply Z_mod_mult.
  rewrite decide_True; [done |].
  apply elem_of_pixelStarts. split; [lia | apply Z_mod_mult].
Qed.

End Pixelwise.

Lemma createMask_step_color d md i :
  createMask_step d md i = setPixelData md i (maskColor d i).
Proof. unfold createMask_step, maskColor. by destruct (_ <? _)%float. Qed.

Lemma composite_step_color src out i :
  composite_step src out i = setPixelData out i (outputColor src i).
Proof.
  unfold composite_step, outputColor, classify, quad.
  destruct (eqv (rd src i) 255 && eqv (rd src (i + 1)) 0); [done |].
  by destruct (eqv (rd src i) 0).
Qed.

Lemma fold_left_ext_step {A B} (f g : A -> B -> A) l a :
  (forall x y, f x y = g x y) -> fold_left f l a = fold_left g l a.
Proof. intros He. revert a. induction l as [|b l IH]; intros a; simpl; [done |]. by rewrite IH, He. Qed.

(** What [createMask] writes at each pixel. *)
Lemma createMask_spec (img : ImageData) :
  wf img ->
  width (createMask img) = width img /\
  height (createMask img) = height img /\
  wf (createMask img) /\
  forall p, inb (width img) (height img) p ->
    px (width img) (data (createMask img)) p =
    colorQuad (maskColor (data img) (pidx (width img) p * 4)).
Proof.
  intros (Hw & Hh & Hlen). unfold createMask. cbn [width height data newImageData].
  rewrite (fold_left_ext_step _ _ _ _ (createMask_step_color (data img))).
  destruct (pixelwise_px (width img) (height img) Hw Hh (maskColor (data img))
              (length (data img)) (replicate (Z.to_nat (4 * width img * height img)) 0))
    as [Hwf Hpx]; [done | rewrite length_replicate; nia |].
  done.
Qed.

(** What the last loop of [process] writes at each pixel. *)
Lemma composite_spec (m : ImageData) :
  wf m ->
  wfData (width m) (height m) (data (composite (width m) (height m) m)) /\
  forall p, inb (width m) (height m) p ->
    px (width m) (data (composite (width m) (height m) m)) p =
    colorQuad (outputColor (data m) (pidx (width m) p * 4)).
Proof.
  intros (Hw & Hh & Hlen). unfold composite. cbn [width height data newImageData].
  rewrite (fold_left_ext_step _ _ _ _ (composite_step_color (data m))).
  destruct (pixelwise_px (width m) (height m) Hw Hh (outputColor (data m))
              (length (data m)) (replicate (Z.to_nat (4 * width m * height m)) 0))
    as [Hwf Hpx]; [done | rewrite length_replicate; nia |].
  done.
Qed.

Lemma maskColor_isDark d i r g b :
  rd d i = Some r -> rd d (i + 1) = Some g -> rd d (i + 2) = Some b ->
  maskColor d i = if isDark r g b then lineColor else whiteColor.
Proof. intros Hr Hg Hb. unfold maskColor, isDark. by rewrite Hr, Hg, Hb. Qed.

(** The colour written at a pixel whose three colour cells are defined. *)
Lemma createMask_px (img : ImageData) p r g b a :
  wf img -> inb (width img) (height img) p ->
  px (width img) (data img) p = (Some r, Some g, Some b, Some a) ->
  px (width img) (data (createMask img)) p =
  colorQuad (if isDark r g b then lineColor else whiteColor).
Proof.
  intros Hwf Hp Hq. destruct (createMask_spec img Hwf) as (_ & _ & _ & Hpx).
  rewrite (Hpx p Hp). unfold px, quad in Hq. inversion Hq as [[Hr Hg Hb Ha]].
  by rewrite (maskColor_isDark _ _ r g b).
Qed.

(** C6, as the code has it. At every pixel the thresholder writes the line
    colour when the binary64 value of
    [0.2126 * R + 0.7152 * G + 0.0722 * B] is below 100 and the white
    colour otherwise; the mask has the width and height of the input. *)
Theorem createMask_threshold (img : ImageData) :
  wf img ->
  width (createMask img) = width img /\
  height (createMask img) = height img /\
  wf (createMask img) /\
  forall p r g b a,
    inb (width img) (height img) p ->
    px (width img) (data img) p = (Some r, Some g, Some b, Some a) ->
    px (width img) (data (createMask img)) p =
    colorQuad (if isDark r g b then lineColor else whiteColor).
Proof.
  intros Hwf. destruct (createMask_spec img Hwf) as (Ew & Eh & Hwf' & Hpx).
  split; [exact Ew |]. split; [exact Eh |]. split; [exact Hwf' |].
  intros p r g b a Hp Hq. rewrite (Hpx p Hp).
  unfold px, quad in Hq. inversion Hq as [[Hr Hg Hb Ha]].
  unfold maskColor, isDark. by rewrite Hr, Hg, Hb.
Qed.

(** C6, as the specification states it, fails: the pixel (4, 114, 244) has
    luminance exactly 100 in exact arithmetic, so it is not below the
    threshold, but the three rounded products add up to
    99.99999999999999 in binary64 and [createMask] writes the line colour. *)
Lemma createMask_exact_threshold_counterexample :
  wf (mkImageData 1 1 [4; 114; 244; 255]) /\
  px 1 (data (createMask (mkImageData 1 1 [4; 114; 244; 255]))) (0, 0)
    = colorQuad lineColor /\
  luminance (Some 4) (Some 114) (Some 244) = 0x1.8ffffffffffffp+6%float /\
  (exactLuminance 4 114 244 == 100)%Q /\
  ~ (exactLuminance 4 114 244 < 100)%Q.
Proof.
  split; [unfold wf, wfData; simpl; lia |].
  split; [reflexivity |]. split; [reflexivity |].
  split; [reflexivity |]. unfold Qlt. simpl. lia.
Qed.

(** The four colours of exact luminance 100 that round below the threshold,
    and one that does not. *)
Lemma createMask_rounding_cases :
  Forall (fun c : Z * Z * Z =>
            let '(r, g, b) := c in
            isDark r g b = true /\ (exactLuminance r g b == 100)%Q)
    [(4, 114, 244); (69, 97, 221); (151, 70, 247); (165, 83, 77)] /\
  isDark 100 100 100 = false /\ (exactLuminance 100 100 100 == 100)%Q.
Proof. repeat constructor. Qed.

(** ** The stages composed *)

Lemma wf_px_Some m p :
  wf m -> inb (width m) (height m) p ->
  exists r g b a, px (width m) (data m) p = (Some r, Some g, Some b, Some a).
Proof.
  intros (Hw & Hh & Hlen) Hp. pose proof (pidx_range _ _ Hw Hh p Hp).
  unfold px, quad.
  destruct (rd_in_range (data m) (pidx (width m) p * 4)) as [r ->]; [lia |].
  destruct (rd_in_range (data m) (pidx (width m) p * 4 + 1)) as [g ->]; [lia |].
  destruct (rd_in_range (data m) (pidx (width m) p * 4 + 2)) as [b ->]; [lia |].
  destruct (rd_in_range (data m) (pidx (width m) p * 4 + 3)) as [a ->]; [lia |].
  by exists r, g, b, a.
Qed.

(** [findObjectContours] returns, and what it returns is an object mask of
    the size of its argument. *)
Lemma findObjectContours_spec (m : ImageData) :
  wf m ->
  exists comps om,
    labelComponents (width m) (height m) (data m) = Some comps /\
    findObjectContours m = Some om /\
    om = selectObject (width m) (height m) comps /\
    width om = width m /\ height om = height m /\ objectMask om.
Proof.
  intros Hwf. pose proof Hwf as (Hw & Hh & _).
  destruct (labelComponents_groups m Hwf)
    as (comps & Hrun & _ & _ & _ & Hcover & Hgrp & _).
  exists comps, (selectObject (width m) (height m) comps).
  split; [done |]. split; [unfold findObjectContours; by rewrite Hrun |].
  split; [done |].
  destruct comps as [|c0 comps'] eqn:Ec.
  - cbn [selectObject width height data newImageData]. rewrite length_replicate.
    split; [done |]. split; [done |]. split; [by apply wfData_replicate |].
    intros p Hp. right. cbn [width height data] in *. by rewrite (px_replicate _ _ Hw Hh).
  - rewrite <- Ec in *.
    destruct (selectMainFrame_spec comps) as (mf & Hmf & _).
    { intros c Hc. apply tightBox_area. by apply Hgrp. }
    { rewrite Ec. done. }
    destruct (selectObject_spec (width m) (height m) Hw Hh comps mf)
      as (Hwfo & Ew & Eh & Hpx); [| done |].
    { intros c q Hc Hq. eapply proj1, Hcover. eauto. }
    split; [done |]. split; [done |]. split; [done |].
    rewrite Ew, Eh. intros p Hp. rewrite (Hpx p Hp). case_decide; [by left | by right].
Qed.

(** [process] returns on every well-formed image. *)
Lemma process_total (img : ImageData) :
  wf img -> exists out, process img = Some out.
Proof.
  intros Hwf. destruct (createMask_spec img Hwf) as (Ew & Eh & Hwfm & _).
  destruct (findObjectContours_spec _ Hwfm) as (comps & om & _ & Hfind & _ & Ew' & Eh' & [Hwfo _]).
  pose proof Hwfo as (Hw & Hh & _).
  destruct (floodFills_spec (width om) (height om) Hw Hh om (corners (width om) (height om)))
    as (d' & Hrun & _); [done | done | done | apply corners_inb; lia |].
  unfold process. rewrite Hfind, Hrun. eauto.
Qed.

Lemma uniformlyLight_noStroke (img : ImageData) :
  wf img -> uniformlyLight img -> noStroke (createMask img).
Proof.
  intros Hwf Hlight p [Hp Hs].
  destruct (createMask_spec img Hwf) as (Ew & Eh & _ & _).
  rewrite Ew, Eh in *.
  destruct (wf_px_Some img p Hwf Hp) as (r & g & b & a & Hq).
  pose proof (createMask_px img p r g b a Hwf Hp Hq) as Hpx.
  rewrite (Hlight p r g b a Hp Hq) in Hpx.
  unfold px, quad in Hpx. rewrite Hs in Hpx. discriminate.
Qed.

Lemma imageData_eq m1 m2 :
  width m1 = width m2 -> height m1 = height m2 -> data m1 = data m2 -> m1 = m2.
Proof. destruct m1, m2. simpl. by intros -> -> ->. Qed.

(** The stages after the thresholder on a mask without STROKE pixel. *)
Lemma noStroke_stages (bm : ImageData) :
  wf bm -> noStroke bm ->
  exists om filled,
    labelComponents (width bm) (height bm) (data bm) = Some [] /\
    findObjectContours bm = Some om /\
    width om = width bm /\ height om = height bm /\
    (forall p, inb (width bm) (height bm) p ->
       px (width bm) (data om) p = colorQuad whiteColor) /\
    floodFills (corners (width om) (height om)) om = Some filled /\
    (forall p, inb (width bm) (height bm) p ->
       px (width bm) (data filled) p = colorQuad fillColor) /\
    composite (width bm) (height bm) filled
      = transparentImage (width bm) (height bm).
Proof.
  intros Hwf Hno. pose proof Hwf as (Hw & Hh & _).
  destruct (findObjectContours_spec bm Hwf)
    as (comps & om & Hrun & Hfind & Hom & Ew & Eh & Hobj).
  destruct (labelComponents_groups bm Hwf)
    as (comps' & Hrun' & _ & _ & _ & Hcover & Hgrp & _).
  rewrite Hrun in Hrun'. inversion Hrun'; subst comps'. clear Hrun'.
  assert (comps = []) as ->.
  { destruct comps as [|c comps]; [done |]. exfalso.
    destruct (Hgrp c (list_elem_of_here _ _)) as [[Hne _] _].
    destruct (pixels c) as [|p ps] eqn:Ep; [done |].
    apply (Hno p). apply Hcover. exists c.
    split; [apply list_elem_of_here |]. rewrite Ep. apply list_elem_of_here. }
  assert (forall p, inb (width bm) (height bm) p ->
            px (width bm) (data om) p = colorQuad whiteColor) as Hwhite.
  { intros p Hp. subst om. cbn [selectObject data newImageData].
    rewrite length_replicate. by apply px_replicate. }
  destruct Hobj as [Hwfo _].
  destruct (floodFills_spec (width bm) (height bm) Hw Hh om
              (corners (width bm) (height bm)))
    as (d' & Hfill & [Hlen Hpx]); [done | done | done | apply corners_inb; lia |].
  assert (forall p, inb (width bm) (height bm) p ->
            px (width bm) d' p = colorQuad fillColor) as Hred.
  { intros p Hp. destruct (Hpx p Hp) as [[_ He]|[Hn _]]; [done |].
    exfalso. apply Hn. exists (0, 0). split; [apply list_elem_of_here |].
    apply allwhite_reach; [done | done | | done].
    intros q Hq. split; [done |]. apply isWhite_quad.
    eexists. apply (Hwhite q Hq). }
  exists om, (mkImageData (width bm) (height bm) d').
  split; [done |]. split; [done |]. split; [done |]. split; [done |].
  split; [done |]. split; [by rewrite Ew, Eh |]. split; [done |].
  assert (wf (mkImageData (width bm) (height bm) d')) as Hwfd.
  { split; [done |]. split; [done |]. cbn [data]. rewrite Hlen.
    rewrite <- Ew, <- Eh. apply Hwfo. }
  destruct (composite_spec _ Hwfd) as [Hwfc Hcpx].
  cbn [width height data] in Hcpx, Hwfc.
  apply imageData_eq; [done | done |]. cbn [transparentImage data].
  apply (data_ext (width bm) (height bm) Hw).
  - apply Hwfc.
  - rewrite length_replicate. destruct Hwfc as (_ & _ & Hl). lia.
  - intros p Hp. rewrite (Hcpx p Hp), (px_replicate _ _ Hw Hh) by done.
    unfold outputColor. specialize (Hred p Hp). unfold px in Hred.
    by rewrite Hred.
Qed.

(** C8. When the binary mask has no STROKE pixel, as for an image that is
    uniformly light under the comparison of [createMask] (the luminance
    evaluated on doubles), every stage returns: there is no component, the
    object mask is all white, the corner fills mark every pixel, and the
    output is (0, 0, 0, 0) at every pixel. *)
Theorem no_stroke_fully_transparent (img : ImageData) :
  wf img ->
  noStroke (createMask img) \/ uniformlyLight img ->
  exists om filled,
    labelComponents (width img) (height img) (data (createMask img)) = Some [] /\
    findObjectContours (createMask img) = Some om /\
    (forall p, inb (width img) (height img) p ->
       px (width img) (data om) p = colorQuad whiteColor /\
       classify (px (width img) (data om) p) = INTERIOR) /\
    floodFills (corners (width om) (height om)) om = Some filled /\
    (forall p, inb (width img) (height img) p ->
       classify (px (width img) (data filled) p) = EXTERIOR) /\
    process img = Some (transparentImage (width img) (height img)) /\
    forall p, inb (width img) (height img) p ->
      px (width img) (data (transparentImage (width img) (height img))) p
      = colorQuad transparent.
Proof.
  intros Hwf Hcase. pose proof Hwf as (Hw & Hh & _).
  assert (noStroke (createMask img)) as Hno.
  { destruct Hcase as [?|Hl]; [done | by apply uniformlyLight_noStroke]. }
  destruct (createMask_spec img Hwf) as (Ew & Eh & Hwfm & _).
  destruct (noStroke_stages (createMask img) Hwfm Hno)
    as (om & filled & Hlab & Hfind & Ewo & Eho & Hwhite & Hfill & Hred & Hcomp).
  rewrite Ew, Eh in *.
  exists om, filled. split; [done |]. split; [done |]. split; [| split; [done |]].
  { intros p Hp. rewrite (Hwhite p Hp). done. }
  split; [intros p Hp; by rewrite (Hred p Hp) |]. split.
  - unfold process. rewrite Hfind, Hfill. by rewrite Hcomp.
  - intros p Hp. cbn [transparentImage data]. by apply px_replicate.
Qed.

(** With the luminance of C8 read in exact arithmetic the last part fails:
    the one-pixel image of colour (4, 114, 244) has no pixel of exact
    luminance below 100, yet its mask has a STROKE pixel, the labeller
    returns one component, and the output is opaque black, not
    transparent. *)
Lemma uniformly_light_exact_counterexample :
  wf roundingImage /\
  exactlyLight roundingImage /\
  ~ uniformlyLight roundingImage /\
  ~ noStroke (createMask roundingImage) /\
  labelComponents 1 1 (data (createMask roundingImage))
    = Some [mkComponent [(0, 0)] 0 0 0 0] /\
  process roundingImage = Some (mkImageData 1 1 [0; 0; 0; 255]) /\
  process roundingImage <> Some (transparentImage 1 1).
Proof.
  assert (inb 1 1 (0, 0)) as H00 by (unfold inb; simpl; lia).
  split; [unfold wf, wfData; simpl; lia |].
  split.
  { intros [x y] r g b a Hp Hpx.
    assert (x = 0 /\ y = 0) as [-> ->] by (unfold inb in Hp; simpl in Hp; lia).
    vm_compute in Hpx. injection Hpx as <- <- <- <-.
    unfold Qlt. simpl. lia. }
  split.
  { intros Hl. specialize (Hl (0, 0) 4 114 244 255 H00 eq_refl). discriminate. }
  split.
  { intros Hn. apply (Hn (0, 0)). split; [exact H00 | reflexivity]. }
  split; [reflexivity |]. split; [reflexivity | discriminate].
Qed.

(** C9. Two runs on inputs of the same width and height holding the same
    cells return the same output. *)
Theorem pipeline_deterministic (img1 img2 : ImageData) :
  wf img1 ->
  width img1 = width img2 -> height img1 = height img2 ->
  (forall i, rd (data img1) i = rd (data img2) i) ->
  exists out,
    process img1 = Some out /\ process img2 = Some out.
Proof.
  intros Hwf Ew Eh Hrd.
  assert (img1 = img2) as <-.
  { apply imageData_eq; [done | done |]. apply list_eq. intros n.
    specialize (Hrd (Z.of_nat n)). unfold rd in Hrd.
    destruct (Z.ltb_spec (Z.of_nat n) 0); [lia |]. by rewrite Nat2Z.id in Hrd. }
  destruct (process_total img1 Hwf) as [out Hout]. by exists out.
Qed.

(** ** Scenario B *)

Lemma forallb_coords w h (f : Pixel -> bool) :
  forallb f (coords w h) = true -> forall p, inb w h p -> f p = true.
Proof.
  intros Hall p Hp. rewrite forallb_forall in Hall.
  apply Hall, list_elem_of_In, elem_of_coords. done.
Qed.

Lemma ringImage_wf : wf ringImage.
Proof. unfold wf, wfData. split; [done |]. split; [done |]. reflexivity. Qed.

Lemma ringImage_dark p r g b a :
  inb 10 10 p ->
  px 10 (data ringImage) p = (Some r, Some g, Some b, Some a) ->
  isDark r g b = onRing p.
Proof.
  intros Hp.
  pose (f := fun p : Pixel =>
    match px 10 (data ringImage) p with
    | (Some r, Some g, Some b, Some a) => Bool.eqb (isDark r g b) (onRing p)
    | _ => false
    end).
  assert (f p = true) as Hf by (apply (forallb_coords 10 10); [by vm_compute | done]).
  unfold f in Hf. intros Hq. rewrite Hq in Hf. by apply eqb_prop.
Qed.

(** C7. Every 10 by 10 image that is dark exactly on the one-pixel ring of
    rows and columns 2 to 7 comes out with the ring opaque black, the
    pixels of rows and columns 3 to 6 opaque white and all other pixels
    transparent. *)
Theorem ring_scenario (img : ImageData) :
  wf img -> width img = 10 -> height img = 10 ->
  (forall p r g b a,
     inb 10 10 p ->
     px 10 (data img) p = (Some r, Some g, Some b, Some a) ->
     isDark r g b = onRing p) ->
  exists out,
    process img = Some out /\
    width out = 10 /\ height out = 10 /\
    forall p, inb 10 10 p -> px 10 (data out) p = colorQuad (ringExpected p).
Proof.
  intros Hwf Ew Eh Hdark.
  assert (createMask img = createMask ringImage) as Hmask.
  { destruct (createMask_spec img Hwf) as (Ew1 & Eh1 & Hwf1 & _).
    destruct (createMask_spec ringImage ringImage_wf) as (Ew2 & Eh2 & Hwf2 & _).
    pose proof (fun p r g b a => createMask_px img p r g b a Hwf) as Hpx1.
    pose proof (fun p r g b a => createMask_px ringImage p r g b a ringImage_wf) as Hpx2.
    rewrite Ew, Eh in *. cbn [ringImage width height] in Ew2, Eh2, Hpx2.
    apply imageData_eq; [congruence | congruence |].
    apply (data_ext 10 10 ltac:(lia)).
    - unfold wf in Hwf1. by rewrite Ew1, Eh1 in Hwf1.
    - destruct Hwf1 as (_ & _ & Hl1), Hwf2 as (_ & _ & Hl2).
      rewrite Ew1, Eh1 in Hl1. rewrite Ew2, Eh2 in Hl2. lia.
    - intros p Hp.
      destruct (wf_px_Some img p Hwf) as (r & g & b & a & Hq);
        [by rewrite Ew, Eh |]. rewrite Ew in Hq.
      destruct (wf_px_Some ringImage p ringImage_wf) as (r' & g' & b' & a' & Hq');
        [done |]. cbn [ringImage width] in Hq'.
      rewrite (Hpx1 p r g b a Hp Hq), (Hpx2 p r' g' b' a' Hp Hq').
      by rewrite (Hdark p r g b a Hp Hq), (ringImage_dark p r' g' b' a' Hp Hq'). }
  assert (process img = process ringImage) as ->.
  { unfold process. rewrite Hmask, Ew, Eh. done. }
  destruct (process ringImage) as [out|] eqn:Hout; [| by vm_compute in Hout].
  exists out. split; [done |].
  assert (Some out = process ringImage) as Hout' by done.
  vm_compute in Hout'. inversion Hout' as [Hval]. clear Hout' Hout.
  split; [done |]. split; [done |]. intros p Hp.
  match goal with |- px 10 (data ?o) p = _ => set (o' := o) end.
  pose (f := fun p : Pixel =>
    match px 10 (data o') p, colorQuad (ringExpected p) with
    | (Some r, Some g, Some b, Some a), (Some r', Some g', Some b', Some a') =>
        (r =? r') && (g =? g') && (b =? b') && (a =? a')
    | _, _ => false
    end).
  assert (f p = true) as Hf by (apply (forallb_coords 10 10); [by vm_compute | done]).
  unfold f in Hf.
  destruct (px 10 (data o') p) as [[[[r|] [g|]] [b|]] [a|]]; try discriminate.
  destruct (colorQuad (ringExpected p)) as [[[[r'|] [g'|]] [b'|]] [a'|]]; try discriminate.
  rewrite !andb_true_iff, !Z.eqb_eq in Hf. destruct Hf as [[[-> ->] ->] ->]. done.
Qed.

(** ** Buffer accesses of the two loops *)

Section Safety.
Variables w h : Z.
Hypothesis Hw : 0 < w.
Hypothesis Hh : 0 < h.

Lemma floodFill_accesses_ok d p : Forall (inBuffer (4 * w * h) (w * h)) (floodFill_accesses w h d p).
Proof.
  destruct p as [x y]. unfold floodFill_accesses.
  destruct ((x <? 0) || (x >=? w) || (y <? 0) || (y >=? h)) eqn:E; [constructor |].
  rewrite !orb_false_iff in E. destruct E as [[[E1 E2] E3] E4].
  apply Z.ltb_ge in E1, E3. rewrite Z.geb_leb in E2, E4. apply Z.leb_gt in E2, E4.
  assert (0 <= y * w + x < w * h) as Hi by nia.
  repeat first [ constructor | simpl; lia
               | match goal with |- Forall _ (if ?c then _ else _) => destruct c end ].
Qed.

Lemma floodFill_trace_ok fuel :
  forall d stack d',
    floodFill_loop fuel w h d stack = Some d' ->
    exists t, floodFill_trace fuel w h d stack = Some t /\ Forall (inBuffer (4 * w * h) (w * h)) t.
Proof.
  induction fuel as [|fuel IH]; intros d stack d' Hrun.
  - destruct stack; [| done]. exists []. split; [done | constructor].
  - destruct stack as [|p rest]; [exists []; split; [done | constructor] |].
    cbn [floodFill_loop floodFill_trace] in *.
    destruct (floodFill_step w h d p rest) as [d1 stack1].
    destruct (IH d1 stack1 d' Hrun) as (t & Ht & Hok).
    rewrite Ht. eexists. split; [done |].
    apply Forall_app. split; [apply floodFill_accesses_ok | done].
Qed.

Lemma neighbor_accesses_ok d V n : Forall (inBuffer (4 * w * h) (w * h)) (neighbor_accesses w h d V n).
Proof.
  unfold neighbor_accesses. destruct (inRange w h n) eqn:E; [| constructor].
  apply inRange_inb in E. pose proof (pidx_range w h Hw Hh n E) as Hi.
  unfold pidx in Hi.
  repeat first [ constructor | simpl; lia
               | match goal with |- Forall _ (if ?c then _ else _) => destruct c end ].
Qed.

Lemma neighbors_trace_ok d ns : forall st, Forall (inBuffer (4 * w * h) (w * h)) (neighbors_trace w h d ns st).
Proof.
  induction ns as [|n ns IH]; intros st; simpl; [constructor |].
  apply Forall_app. split; [apply neighbor_accesses_ok | apply IH].
Qed.

Lemma traverse_trace_ok d fuel :
  forall V stack c r,
    traverse fuel w h d V stack c = Some r ->
    exists t, traverse_trace fuel w h d V stack = Some t /\ Forall (inBuffer (4 * w * h) (w * h)) t.
Proof.
  induction fuel as [|fuel IH]; intros V stack c r Hrun.
  - destruct stack; [| done]. exists []. split; [done | constructor].
  - destruct stack as [|p rest]; [exists []; split; [done | constructor] |].
    cbn [traverse traverse_trace] in *.
    destruct (fold_left (visitNeighbor w h d) (neighbors p) (V, rest)) as [V1 stack1].
    destruct (IH V1 stack1 _ r Hrun) as (t & Ht & Hok).
    rewrite Ht. eexists. split; [done |].
    apply Forall_app. split; [apply neighbors_trace_ok | done].
Qed.

Lemma scanPixel_trace_ok d V comps p st' :
  inb w h p ->
  scanPixel w h d (V, comps) p = Some st' ->
  exists t, scanPixel_trace w h d V p = Some t /\ Forall (inBuffer (4 * w * h) (w * h)) t.
Proof.
  intros Hp Hrun. pose proof (pidx_range w h Hw Hh p Hp) as Hi. unfold pidx in Hi.
  unfold scanPixel, scanPixel_trace in *.
  destruct (eqv (rd d ((snd p * w + fst p) * 4)) 0); cbn [andb] in Hrun.
  2:{ eexists. split; [done |]. repeat constructor; simpl; lia. }
  destruct (eqv (rd V (snd p * w + fst p)) 0).
  2:{ eexists. split; [done |]. repeat constructor; simpl; lia. }
  destruct (traverse (traverseFuel V) w h d (wr V (snd p * w + fst p) 1) [p]
              (mkComponent [] w h (-1) (-1)))
    as [r|] eqn:Htr; [| done].
  destruct (traverse_trace_ok d _ _ _ _ _ Htr) as (t & Ht & Hok).
  rewrite Ht. eexists. split; [done |].
  repeat (constructor; [simpl; lia |]). done.
Qed.

Lemma scan_trace_ok d ps :
  (forall p, p ∈ ps -> inb w h p) ->
  forall st st',
    scan w h d ps st = Some st' ->
    exists t, scan_trace w h d ps st = Some t /\ Forall (inBuffer (4 * w * h) (w * h)) t.
Proof.
  induction ps as [|p ps IH]; intros Hin st st' Hrun.
  - exists []. split; [done | constructor].
  - cbn [scan scan_trace] in *.
    destruct (scanPixel w h d st p) as [st1|] eqn:Hp; [| done].
    destruct st as [V comps].
    destruct (scanPixel_trace_ok d V comps p st1 (Hin p (list_elem_of_here _ _)) Hp)
      as (t & Ht & Hok).
    cbn [fst]. rewrite Ht.
    destruct (IH (fun q Hq => Hin q (list_elem_of_further _ _ _ Hq)) st1 st' Hrun)
      as (t' & Ht' & Hok').
    rewrite Ht'. eexists. split; [done |]. by apply Forall_app.
Qed.

End Safety.

(** C10. On every image of positive width and height, each cell touched by
    the loop of [floodFill], from any seed, and by the loops of the labeller
    lies inside its buffer; the seed test of [floodFill] is in range for an
    in-range seed; and the stack of [floodFill] does hold out-of-range
    coordinates. *)
Theorem loops_stay_in_buffers (m : ImageData) :
  wf m ->
  let w := width m in
  let h := height m in
  let d := data m in
  (forall sx sy, exists t,
     floodFill_trace (floodFillFuel d) w h d [(sx, sy)] = Some t /\
     Forall (inBuffer (Z.of_nat (length d)) (w * h)) t) /\
  (exists t,
     labelComponents_trace w h d = Some t /\
     Forall (inBuffer (Z.of_nat (length d)) (w * h)) t) /\
  (forall sx sy, inb w h (sx, sy) ->
     0 <= (sy * w + sx) * 4 /\ (sy * w + sx) * 4 + 1 < Z.of_nat (length d)) /\
  snd (floodFill_step 1 1 [255; 255; 255; 255] (0, 0) [])
    = [(0, -1); (0, 1); (-1, 0); (1, 0)].
Proof.
  intros Hwf. pose proof Hwf as (Hw & Hh & Hlen). cbv zeta.
  rewrite Hlen. split; [| split; [| split]].
  - intros sx sy.
    destruct (floodFill_loop_inv (width m) (height m) Hw Hh (data m) (sx, sy)
                (floodFillFuel (data m)) Hwf (data m) [(sx, sy)])
      as (d' & Hrun & _).
    + apply fillInv_init.
    + by apply floodFillFuel_enough.
    + by eapply floodFill_trace_ok.
  - destruct (labelComponents_spec (width m) (height m) Hw Hh (data m))
      as (comps & Hrun & _).
    unfold labelComponents in Hrun. unfold labelComponents_trace.
    destruct (scan (width m) (height m) (data m) (coords (width m) (height m)) _)
      as [st'|] eqn:Hscan; [| done].
    eapply scan_trace_ok; [done | done | | exact Hscan].
    intros p Hp. by apply elem_of_coords.
  - intros sx sy Hs. pose proof (pidx_range _ _ Hw Hh _ Hs) as Hi.
    unfold pidx in Hi. simpl in Hi. lia.
  - reflexivity.
Qed.

(** ** Concrete runs *)

Lemma wfb_wf m : wfb m = true -> wf m.
Proof.
  unfold wfb, wf, wfData. rewrite !andb_true_iff, !Z.ltb_lt, Z.eqb_eq. tauto.
Defined.

Lemma quadEqb_eq q1 q2 : quadEqb q1 q2 = true -> q1 = q2.
Proof.
  destruct q1 as [[[[r|] [g|]] [b|]] [a|]]; try discriminate.
  destruct q2 as [[[[r'|] [g'|]] [b'|]] [a'|]]; try discriminate.
  simpl. rewrite !andb_true_iff, !Z.eqb_eq. intros [[[-> ->] ->] ->]. done.
Qed.

Lemma objectMaskb_objectMask m : objectMaskb m = true -> objectMask m.
Proof.
  unfold objectMaskb. rewrite andb_true_iff. intros [Hwf Hall].
  split; [by apply wfb_wf |]. intros p Hp.
  pose proof (forallb_coords _ _ _ Hall p Hp) as Hq. cbn beta in Hq.
  apply orb_true_iff in Hq as [Hq|Hq]; apply quadEqb_eq in Hq; [by left | by right].
Qed.

Lemma uniformlyLightb_uniformlyLight img :
  uniformlyLightb img = true -> uniformlyLight img.
Proof.
  intros Hall p r g b a Hp Hq.
  pose proof (forallb_coords _ _ _ Hall p Hp) as Hf. cbn beta in Hf.
  rewrite Hq in Hf. by apply negb_true_iff.
Qed.

(** The labeller on Scenario C: three components in discovery order. *)
Example frameMask_components :
  labelComponents 7 7 (data frameMask) =
  Some [ mkComponent [(0, 0)] 0 0 0 0;
         mkComponent [(1, 1); (1, 2); (1, 3); (1, 4); (1, 5); (2, 5); (3, 5);
                      (4, 5); (5, 5); (5, 4); (5, 3); (5, 2); (5, 1); (4, 1);
                      (3, 1); (2, 1)] 1 1 5 5;
         mkComponent [(3, 3)] 3 3 3 3 ].
Proof. vm_compute. reflexivity. Qed.

(** The selector keeps the frame and the centre dot and drops the corner. *)
Example frameMask_object :
  findObjectContours frameMask = Some frameObjectMask.
Proof. vm_compute. reflexivity. Qed.

(** The whole pipeline on Scenario C, seen as an input image. *)
Example frameMask_output :
  process frameMask =
  Some (imageOf 7 7 (fun p =>
          if onFrame p || ((fst p =? 3) && (snd p =? 3)) then lineColor
          else if (2 <=? fst p) && (fst p <=? 4) && (2 <=? snd p) && (snd p <=? 4)
               then whiteColor else transparent)).
Proof. vm_compute. reflexivity. Qed.

Lemma secondary_painted_iff_center_inside_witness :
  wf frameMask /\
  exists comps,
    labelComponents 7 7 (data frameMask) = Some comps /\
    findObjectContours frameMask = Some (selectObject 7 7 comps).
Proof.
  split; [apply wfb_wf; reflexivity |].
  destruct (secondary_painted_iff_center_inside frameMask) as (comps & H1 & H2 & _);
    [apply wfb_wf; reflexivity |].
  exists comps. split; [exact H1 | exact H2].
Defined.

Lemma mainFrame_maximal_earliest_witness :
  wf frameMask /\
  exists comps, labelComponents 7 7 (data frameMask) = Some comps.
Proof.
  split; [apply wfb_wf; reflexivity |].
  destruct (mainFrame_maximal_earliest frameMask) as (comps & H1 & _);
    [apply wfb_wf; reflexivity |].
  exists comps. exact H1.
Defined.

Lemma labelComponents_partition_witness :
  wf frameMask /\
  exists comps,
    labelComponents 7 7 (data frameMask) = Some comps /\ NoDup (allPixels comps).
Proof.
  split; [apply wfb_wf; reflexivity |].
  destruct (labelComponents_partition frameMask) as (comps & H1 & H2 & _);
    [apply wfb_wf; reflexivity |].
  exists comps. split; [exact H1 | exact H2].
Defined.

Lemma corner_fills_mark_exterior_witness :
  objectMask frameObjectMask /\
  exists m', floodFills (corners 7 7) frameObjectMask = Some m'.
Proof.
  split; [apply objectMaskb_objectMask; vm_compute; reflexivity |].
  destruct (corner_fills_mark_exterior frameObjectMask) as (m' & H1 & _);
    [apply objectMaskb_objectMask; vm_compute; reflexivity |].
  exists m'. exact H1.
Defined.

Lemma floodFill_idempotent_order_insensitive_witness :
  wf frameObjectMask /\
  exists m4,
    floodFills (corners 7 7) frameObjectMask = Some m4 /\
    floodFills (corners 7 7) m4 = Some m4.
Proof.
  split; [apply wfb_wf; reflexivity |].
  destruct (floodFill_idempotent_order_insensitive frameObjectMask)
    as (_ & (m4 & H1 & _ & H2) & _); [apply wfb_wf; reflexivity |].
  exists m4. split; [exact H1 | exact H2].
Defined.

Lemma createMask_threshold_witness :
  wf lightImage /\ wf (createMask lightImage).
Proof.
  split; [apply wfb_wf; reflexivity |].
  destruct (createMask_threshold lightImage) as (_ & _ & H & _);
    [apply wfb_wf; reflexivity |].
  exact H.
Defined.

Lemma ring_scenario_witness :
  wf ringImage /\
  exists out,
    process ringImage = Some out /\
    forall p, inb 10 10 p -> px 10 (data out) p = colorQuad (ringExpected p).
Proof.
  split; [apply wfb_wf; reflexivity |].
  destruct (ring_scenario ringImage) as (out & H1 & _ & _ & H2).
  - apply wfb_wf; reflexivity.
  - reflexivity.
  - reflexivity.
  - apply ringImage_dark.
  - exists out. split; [exact H1 | exact H2].
Defined.

Lemma no_stroke_fully_transparent_witness :
  wf lightImage /\ uniformlyLight lightImage /\
  process lightImage = Some (transparentImage 3 2).
Proof.
  split; [apply wfb_wf; reflexivity |].
  split; [apply uniformlyLightb_uniformlyLight; vm_compute; reflexivity |].
  destruct (no_stroke_fully_transparent lightImage)
    as (om & filled & _ & _ & _ & _ & _ & H & _).
  - apply wfb_wf; reflexivity.
  - right. apply uniformlyLightb_uniformlyLight; vm_compute; reflexivity.
  - exact H.
Defined.

Lemma pipeline_deterministic_witness :
  wf frameMask /\
  exists out,
    process frameMask = Some out /\ process frameMask = Some out.
Proof.
  split; [apply wfb_wf; reflexivity |].
  apply (pipeline_deterministic frameMask frameMask).
  - apply wfb_wf; reflexivity.
  - reflexivity.
  - reflexivity.
  - intros i. reflexivity.
Defined.

Lemma loops_stay_in_buffers_witness :
  wf frameMask /\
  exists t,
    labelComponents_trace 7 7 (data frameMask) = Some t /\
    Forall (inBuffer 196 49) t.
Proof.
  split; [apply wfb_wf; reflexivity |].
  destruct (loops_stay_in_buffers frameMask) as (_ & H & _);
    [apply wfb_wf; reflexivity |].
  exact H.
Defined.

(** ** Further properties of the exterior filler *)

(** X1. From an in-range seed on a well-formed mask, [floodFill] returns a
    mask of the same size in which exactly the white pixels joined to the
    seed by white pixels hold the fill colour; every other pixel keeps its
    four cells. *)
Theorem floodFill_fills_white_region (m : ImageData) (sx sy : Z) :
  wf m -> inb (width m) (height m) (sx, sy) ->
  exists m',
    floodFill m sx sy = Some m' /\
    width m' = width m /\ height m' = height m /\
    length (data m') = length (data m) /\
    forall p, inb (width m) (height m) p ->
      (wreach (width m) (height m) (data m) (sx, sy) p /\
       px (width m) (data m') p = colorQuad fillColor)
      \/ (~ wreach (width m) (height m) (data m) (sx, sy) p /\
          px (width m) (data m') p = px (width m) (data m) p).
Proof.
  intros Hwf Hs. pose proof Hwf as (Hw & Hh & _).
  destruct (floodFill_spec (width m) (height m) Hw Hh m sx sy eq_refl eq_refl Hwf Hs)
    as (d' & Hrun & Hlen & Hpx).
  exists (mkImageData (width m) (height m) d').
  split; [exact Hrun |]. split; [reflexivity |]. split; [reflexivity |].
  split; [exact Hlen | exact Hpx].
Qed.

(** X2. A seed outside the image makes [floodFill] return the mask as it
    is: either the seed test returns at once or the only popped coordinate
    fails the range test. *)
Theorem floodFill_seed_out_of_range (m : ImageData) (sx sy : Z) :
  ~ inb (width m) (height m) (sx, sy) -> floodFill m sx sy = Some m.
Proof.
  intros Hout. unfold floodFill.
  destruct (eqv _ 0 || _); [reflexivity |].
  unfold floodFillFuel. cbn [floodFill_loop].
  rewrite floodFill_step_out by exact Hout.
  destruct m as [w h d]. cbn [width height data].
  destruct (5 * length d)%nat; reflexivity.
Qed.

(** X3. The mask left by a sequence of fills depends only on the set of
    seeds: two lists of in-range seeds with the same elements, in any order
    and with any repetitions, give the same mask. *)
Theorem floodFills_depend_on_seed_set (m : ImageData) (seeds1 seeds2 : list Pixel) :
  wf m ->
  (forall s, s ∈ seeds1 -> inb (width m) (height m) s) ->
  (forall s, s ∈ seeds1 <-> s ∈ seeds2) ->
  exists m', floodFills seeds1 m = Some m' /\ floodFills seeds2 m = Some m'.
Proof.
  intros Hwf Hin Hsame. pose proof Hwf as (Hw & Hh & _).
  destruct (floodFills_spec (width m) (height m) Hw Hh m seeds1 eq_refl eq_refl Hwf Hin)
    as (d1 & Hrun1 & H1).
  destruct (floodFills_spec (width m) (height m) Hw Hh m seeds2 eq_refl eq_refl Hwf)
    as (d2 & Hrun2 & H2).
  { intros s Hs. apply Hin. by apply Hsame. }
  exists (mkImageData (width m) (height m) d1). split; [exact Hrun1 |].
  rewrite Hrun2. do 2 f_equal. symmetry.
  apply (filled_unique (width m) (height m) Hw (data m)
           (reachAny (width m) (height m) (data m) seeds1)
           (reachAny (width m) (height m) (data m) seeds2)); [done | | done | done].
  intros p. unfold reachAny. split; intros (s & Hs & Hr); exists s; split; try done.
  - by apply Hsame.
  - by apply Hsame.
Qed.

(** ** Further properties of the thresholder *)

Lemma maskColor_cases d i : maskColor d i = lineColor \/ maskColor d i = whiteColor.
Proof. unfold maskColor. destruct (_ <? _)%float; [by left | by right]. Qed.

(** X4. The mask of [createMask] has two colours only: every pixel is
    (0,0,0,255) or (255,255,255,255), whatever the input cells are. *)
Theorem createMask_two_colours (img : ImageData) :
  wf img ->
  wf (createMask img) /\
  forall p, inb (width img) (height img) p ->
    px (width img) (data (createMask img)) p = colorQuad lineColor \/
    px (width img) (data (createMask img)) p = colorQuad whiteColor.
Proof.
  intros Hwf. destruct (createMask_spec img Hwf) as (_ & _ & Hwf' & Hpx).
  split; [exact Hwf' |]. intros p Hp. rewrite (Hpx p Hp).
  destruct (maskColor_cases (data img) (pidx (width img) p * 4)) as [-> | ->];
    [by left | by right].
Qed.

(** X5. [createMask] never reads the alpha cells: two images of the same
    size with the same red, green and blue cells have the same mask, and
    so the same output of [process]. *)
Theorem createMask_ignores_alpha (img1 img2 : ImageData) :
  wf img1 -> wf img2 ->
  width img1 = width img2 -> height img1 = height img2 ->
  sameRGB (width img1) (height img1) (data img1) (data img2) ->
  createMask img1 = createMask img2 /\ process img1 = process img2.
Proof.
  intros Hwf1 Hwf2 Ew Eh Hsame. pose proof Hwf1 as (Hw & Hh & _).
  assert (createMask img1 = createMask img2) as Hmask;
    [| split; [exact Hmask | unfold process; by rewrite Hmask, Ew, Eh]].
  destruct (createMask_spec img1 Hwf1) as (Ew1 & Eh1 & Hm1 & Hpx1).
  destruct (createMask_spec img2 Hwf2) as (Ew2 & Eh2 & Hm2 & Hpx2).
  apply imageData_eq; [congruence | congruence |].
  apply (data_ext (width img1) (height img1) Hw).
  - unfold wf in Hm1. by rewrite Ew1, Eh1 in Hm1.
  - destruct Hm1 as (_ & _ & Hl1), Hm2 as (_ & _ & Hl2).
    rewrite Ew1, Eh1 in Hl1. rewrite Ew2, Eh2, <- Ew, <- Eh in Hl2. lia.
  - intros p Hp. rewrite (Hpx1 p Hp).
    rewrite <- Ew, <- Eh in Hpx2. rewrite (Hpx2 p Hp).
    destruct (Hsame p Hp) as (Hr & Hg & Hb).
    unfold maskColor. by rewrite Hr, Hg, Hb.
Qed.

Lemma maskColor_fixed d i c :
  c = lineColor \/ c = whiteColor -> quad d i = colorQuad c -> maskColor d i = c.
Proof.
  intros Hc Hq. unfold quad in Hq.
  assert (rd d i = Some (fst (fst (fst c))) /\ rd d (i + 1) = Some (snd (fst (fst c)))
          /\ rd d (i + 2) = Some (snd (fst c))) as (Hr & Hg & Hb).
  { destruct c as [[[c0 c1] c2] c3]. simpl in *. by inversion Hq. }
  unfold maskColor. rewrite Hr, Hg, Hb. by destruct Hc as [-> | ->].
Qed.

(** X6. Thresholding is idempotent: the mask of a mask is the mask. *)
Theorem createMask_idempotent (img : ImageData) :
  wf img -> createMask (createMask img) = createMask img.
Proof.
  intros Hwf. pose proof Hwf as (Hw & Hh & _).
  destruct (createMask_spec img Hwf) as (Ew & Eh & Hm & Hpx).
  destruct (createMask_spec (createMask img) Hm) as (Ew' & Eh' & Hm' & Hpx').
  apply imageData_eq; [congruence | congruence |].
  rewrite Ew, Eh in Hpx'.
  apply (data_ext (width img) (height img) Hw).
  - unfold wf in Hm'. by rewrite Ew', Eh', Ew, Eh in Hm'.
  - destruct Hm' as (_ & _ & Hl'), Hm as (_ & _ & Hl).
    rewrite Ew', Eh' in Hl'. lia.
  - intros p Hp. rewrite (Hpx' p Hp).
    pose proof (Hpx p Hp) as Hq. rewrite Hq. f_equal.
    apply maskColor_fixed; [apply maskColor_cases | exact Hq].
Qed.

Lemma channelCheck_bytes v : 0 <= v <= 255 -> channelCheck v = true.
Proof.
  intros Hv.
  assert (forallb channelCheck (zrange 256) = true) as Hall by (vm_compute; reflexivity).
  rewrite forallb_forall in Hall. apply Hall, list_elem_of_In, elem_of_zrange. lia.
Qed.

(** X7. On cell values 0..255 and in the arithmetic of the code: a grey
    pixel is a line pixel exactly below 100, a pixel with only red or only
    blue is a line pixel at every intensity, and a pixel with only green is
    a line pixel exactly below 140. *)
Theorem threshold_by_channel (v : Z) :
  0 <= v <= 255 ->
  isDark v v v = (v <? 100) /\
  isDark v 0 0 = true /\
  isDark 0 0 v = true /\
  isDark 0 v 0 = (v <? 140).
Proof.
  intros Hv. pose proof (channelCheck_bytes v Hv) as Hc.
  unfold channelCheck in Hc. rewrite !andb_true_iff in Hc.
  destruct Hc as [[[H1 H2] H3] H4].
  split; [by apply eqb_prop |]. split; [done |]. split; [done |]. by apply eqb_prop.
Qed.

(** ** [setPixelData] *)

(** X18. [setPixelData] keeps the length of the buffer and every cell
    outside [i .. i + 3]; when the four cells lie in the buffer and the
    components of the colour are cell values (0..255), the four cells hold
    the colour afterwards; a call entirely outside the buffer changes
    nothing. *)
Theorem setPixelData_frame (d : list Z) (i : Z) (c : Color) :
  length (setPixelData d i c) = length d /\
  (forall j, j < i \/ i + 3 < j -> rd (setPixelData d i c) j = rd d j) /\
  (byteColor c -> 0 <= i -> i + 3 < Z.of_nat (length d) ->
   quad (setPixelData d i c) i = colorQuad c) /\
  (i + 3 < 0 \/ Z.of_nat (length d) <= i -> setPixelData d i c = d).
Proof.
  split; [apply length_setPixelData |]. split; [| split].
  - intros j Hj. by apply rd_setPixelData_other.
  - intros _ H0 H3. by apply quad_setPixelData_same.
  - intros Hout. apply list_eq. intros n.
    pose proof (rd_setPixelData_other d i c (Z.of_nat n)) as Hrd.
    unfold rd in Hrd. destruct (Z.ltb_spec (Z.of_nat n) 0); [lia |].
    rewrite Nat2Z.id in Hrd.
    destruct (decide (Z.of_nat n < i \/ i + 3 < Z.of_nat n)) as [Hn|Hn]; [by apply Hrd |].
    rewrite !lookup_ge_None_2; [done | lia |]. rewrite length_setPixelData. lia.
Qed.

(** ** Further properties of the selector *)

(** The components and the object mask of a well-formed mask, with what is
    known of both. *)
Lemma findObjectContours_pixels (m : ImageData) :
  wf m ->
  exists comps om,
    labelComponents (width m) (height m) (data m) = Some comps /\
    findObjectContours m = Some om /\
    width om = width m /\ height om = height m /\ wf om /\
    (forall p, stroke (width m) (height m) (data m) p <->
               exists c, c ∈ comps /\ p ∈ pixels c) /\
    (forall c, c ∈ comps ->
       isGroup (width m) (height m) (data m) c /\ tightBox c) /\
    ((comps = [] /\
      forall q, inb (width m) (height m) q ->
        px (width m) (data om) q = colorQuad whiteColor)
     \/
     (exists mf,
        comps !! selectMainFrame comps = Some mf /\
        forall q, inb (width m) (height m) q ->
          px (width m) (data om) q =
          if decide (q ∈ allPixels (objectComponents comps (selectMainFrame comps) mf))
          then colorQuad lineColor else colorQuad whiteColor)).
Proof.
  intros Hwf. pose proof Hwf as (Hw & Hh & _).
  destruct (labelComponents_groups m Hwf)
    as (comps & Hrun & _ & _ & _ & Hcover & Hgrp & _).
  exists comps, (selectObject (width m) (height m) comps).
  split; [done |]. split; [unfold findObjectContours; by rewrite Hrun |].
  destruct comps as [|c0 comps'] eqn:Ec.
  - cbn [selectObject width height data newImageData]. rewrite length_replicate.
    split; [done |]. split; [done |]. split; [by apply wfData_replicate |].
    split; [done |]. split; [done |]. left. split; [done |].
    intros q Hq. by apply px_replicate.
  - rewrite <- Ec in *.
    destruct (selectMainFrame_spec comps) as (mf & Hmf & _).
    { intros c Hc. apply tightBox_area. by apply Hgrp. }
    { rewrite Ec. done. }
    destruct (selectObject_spec (width m) (height m) Hw Hh comps mf)
      as (Hwfo & Ew & Eh & Hpx); [| done |].
    { intros c q Hc Hq. eapply proj1, Hcover. eauto. }
    split; [done |]. split; [done |]. split; [done |].
    split; [done |]. split; [done |]. right. by exists mf.
Qed.

Lemma objectComponents_sub comps k mf c :
  comps !! k = Some mf -> c ∈ objectComponents comps k mf -> c ∈ comps.
Proof.
  intros Hmf Hc. apply elem_of_objectComponents in Hc as [->|(j & Hj & _)];
    by eapply list_elem_of_lookup_2.
Qed.

(** X8. The object mask has the size of its input and two colours, and a
    line pixel of the object mask is a STROKE pixel of the input: selection
    removes lines, it never draws one. *)
Theorem findObjectContours_only_removes (m : ImageData) :
  wf m ->
  exists om,
    findObjectContours m = Some om /\
    width om = width m /\ height om = height m /\ wf om /\
    forall p, inb (width m) (height m) p ->
      (px (width m) (data om) p = colorQuad lineColor /\
       stroke (width m) (height m) (data m) p)
      \/ px (width m) (data om) p = colorQuad whiteColor.
Proof.
  intros Hwf. destruct (findObjectContours_pixels m Hwf)
    as (comps & om & _ & Hfind & Ew & Eh & Hwfo & Hcover & _ & Hcase).
  exists om. split; [done |]. split; [done |]. split; [done |]. split; [done |].
  intros p Hp. destruct Hcase as [[_ Hall]|(mf & Hmf & Hpx)].
  - right. by apply Hall.
  - rewrite (Hpx p Hp). case_decide as Hd; [left | by right].
    split; [done |]. apply elem_of_allPixels in Hd as (c & Hc & Hpc).
    apply Hcover. exists c. split; [| done]. by eapply objectComponents_sub.
Qed.

(** X9. Every pixel of the main frame is a line pixel of the object mask. *)
Theorem mainFrame_always_painted (m : ImageData) :
  wf m ->
  exists comps om,
    labelComponents (width m) (height m) (data m) = Some comps /\
    findObjectContours m = Some om /\
    forall mainFrame p,
      comps !! selectMainFrame comps = Some mainFrame ->
      p ∈ pixels mainFrame ->
      px (width m) (data om) p = colorQuad lineColor.
Proof.
  intros Hwf. destruct (findObjectContours_pixels m Hwf)
    as (comps & om & Hrun & Hfind & _ & _ & _ & Hcover & _ & Hcase).
  exists comps, om. split; [done |]. split; [done |].
  intros mf p Hmf Hp. destruct Hcase as [[-> _]|(mf' & Hmf' & Hpx)]; [done |].
  rewrite Hmf in Hmf'. inversion Hmf'; subst mf'.
  assert (inb (width m) (height m) p) as Hpb.
  { eapply proj1, Hcover. exists mf. split; [by eapply list_elem_of_lookup_2 | done]. }
  rewrite (Hpx p Hpb). rewrite decide_True; [done |].
  apply elem_of_allPixels. exists mf. split; [| done].
  apply elem_of_objectComponents. by left.
Qed.

(** X10. When the labeller finds at most one component, the line pixels of
    the object mask are exactly the STROKE pixels of the input, and a
    two-coloured input comes back unchanged. *)
Theorem single_component_kept (m : ImageData) (comps : list Component) :
  wf m ->
  labelComponents (width m) (height m) (data m) = Some comps ->
  (length comps <= 1)%nat ->
  exists om,
    findObjectContours m = Some om /\
    (forall p, inb (width m) (height m) p ->
       (px (width m) (data om) p = colorQuad lineColor <->
        stroke (width m) (height m) (data m) p)) /\
    (objectMask m -> om = m).
Proof.
  intros Hwf Hrun Hlen. pose proof Hwf as (Hw & Hh & _).
  destruct (findObjectContours_pixels m Hwf)
    as (comps' & om & Hrun' & Hfind & Ew & Eh & Hwfo & Hcover & Hgrp & Hcase).
  rewrite Hrun in Hrun'. inversion Hrun'; subst comps'. clear Hrun'.
  exists om. split; [done |].
  assert (forall p, inb (width m) (height m) p ->
            (px (width m) (data om) p = colorQuad lineColor /\
             stroke (width m) (height m) (data m) p)
            \/ (px (width m) (data om) p = colorQuad whiteColor /\
                ~ stroke (width m) (height m) (data m) p)) as Hpix.
  { intros p Hp. destruct Hcase as [[-> Hall]|(mf & Hmf & Hpx)].
    - right. split; [by apply Hall |]. intros Hs.
      apply Hcover in Hs as (c & Hc & _). by apply elem_of_nil in Hc.
    - rewrite (Hpx p Hp).
      assert (forall c, c ∈ comps -> c = mf) as Hone.
      { intros c Hc. apply list_elem_of_lookup in Hc as (j & Hj).
        pose proof (lookup_lt_Some _ _ _ Hj). pose proof (lookup_lt_Some _ _ _ Hmf).
        assert (j = selectMainFrame comps) as -> by lia. congruence. }
      case_decide as Hd.
      + left. split; [done |]. apply elem_of_allPixels in Hd as (c & Hc & Hpc).
        apply Hcover. exists c. split; [| done]. by eapply objectComponents_sub.
      + right. split; [done |]. intros Hs. apply Hd.
        apply Hcover in Hs as (c & Hc & Hpc). rewrite (Hone c Hc) in Hpc.
        apply elem_of_allPixels. exists mf. split; [| done].
        apply elem_of_objectComponents. by left. }
  split.
  - intros p Hp. destruct (Hpix p Hp) as [[He Hs]|[He Hs]]; rewrite He.
    + done.
    + split; [discriminate | done].
  - intros [_ Htwo]. apply imageData_eq; [done | done |].
    apply (data_ext (width m) (height m) Hw).
    + unfold wf in Hwfo. by rewrite Ew, Eh in Hwfo.
    + destruct Hwfo as (_ & _ & Hl), Hwf as (_ & _ & Hl'). rewrite Ew, Eh in Hl. lia.
    + intros p Hp. destruct (Hpix p Hp) as [[He Hs]|[He Hs]]; rewrite He.
      * destruct (Htwo p Hp) as [Hq|Hq]; [done |].
        destruct Hs as [_ Hs]. unfold px, quad in Hq. rewrite Hs in Hq. discriminate.
      * destruct (Htwo p Hp) as [Hq|Hq]; [| done].
        exfalso. apply Hs. split; [done |]. unfold px, quad in Hq. by inversion Hq.
Qed.

(** X16. The box of every component lies in the image, and so does every
    member pixel. *)
Theorem component_boxes_in_image (m : ImageData) :
  wf m ->
  exists comps,
    labelComponents (width m) (height m) (data m) = Some comps /\
    forall c, c ∈ comps ->
      boxInImage (width m) (height m) c /\
      forall p, p ∈ pixels c -> inb (width m) (height m) p.
Proof.
  intros Hwf. destruct (labelComponents_groups m Hwf)
    as (comps & Hrun & _ & _ & _ & Hcover & Hgrp & _).
  exists comps. split; [done |]. intros c Hc.
  assert (forall p, p ∈ pixels c -> inb (width m) (height m) p) as Hin.
  { intros p Hp. eapply proj1, Hcover. eauto. }
  split; [| done].
  destruct (Hgrp c Hc) as [_ [Hcov ((p1 & H1 & E1) & (p2 & H2 & E2) & (p3 & H3 & E3) & (p4 & H4 & E4))]].
  pose proof (Hin p1 H1) as [? ?]. pose proof (Hin p2 H2) as [? ?].
  pose proof (Hin p3 H3) as [? ?]. pose proof (Hin p4 H4) as [? ?].
  pose proof (Hcov p1 H1). unfold boxInImage. lia.
Qed.

(** X17. The area is [(maxX - minX) * (maxY - minY)], without the usual
    [+ 1]: a component lying in one row or one column has area 0. When every
    component is such a straight stroke, the main frame is the first
    component of the scan. *)
Theorem straight_strokes_first_kept (m : ImageData) (comps : list Component) :
  wf m ->
  labelComponents (width m) (height m) (data m) = Some comps ->
  comps <> [] ->
  (forall c, c ∈ comps -> minX c = maxX c \/ minY c = maxY c) ->
  (forall c, c ∈ comps -> area c = 0) /\ selectMainFrame comps = 0%nat.
Proof.
  intros Hwf Hrun Hne Hstraight.
  assert (forall c, c ∈ comps -> area c = 0) as Hzero.
  { intros c Hc. unfold area. destruct (Hstraight c Hc) as [-> | ->]; lia. }
  split; [done |].
  destruct (selectMainFrame_spec comps) as (mf & Hmf & Hmax); [| done |].
  { intros c Hc. rewrite (Hzero c Hc). lia. }
  destruct (selectMainFrame comps) as [|k] eqn:Ek; [done |]. exfalso.
  destruct comps as [|c0 comps']; [done |].
  destruct (Hmax 0%nat c0 eq_refl) as [_ Hlt].
  specialize (Hlt ltac:(lia)).
  rewrite (Hzero c0 (list_elem_of_here _ _)) in Hlt.
  rewrite (Hzero mf (list_elem_of_lookup_2 _ _ _ Hmf)) in Hlt. lia.
Qed.

Lemma Qle_half_l a b c : a <= b -> b <= c -> (inject_Z a <= inject_Z (b + c) / 2)%Q.
Proof.
  intros Hab Hbc. apply Qle_shift_div_l; [reflexivity |].
  unfold Qle, Qmult, inject_Z. simpl. lia.
Qed.

Lemma Qle_half_r a b c : a <= b -> b <= c -> (inject_Z (a + b) / 2 <= inject_Z c)%Q.
Proof.
  intros Hab Hbc. apply Qle_shift_div_r; [reflexivity |].
  unfold Qle, Qmult, inject_Z. simpl. lia.
Qed.

(** X19. A component whose box lies inside the box of the main frame is
    always kept: all its pixels are line pixels of the object mask. *)
Theorem contained_component_kept (m : ImageData) :
  wf m ->
  exists comps om,
    labelComponents (width m) (height m) (data m) = Some comps /\
    findObjectContours m = Some om /\
    forall mainFrame c p,
      comps !! selectMainFrame comps = Some mainFrame ->
      c ∈ comps -> p ∈ pixels c ->
      minX mainFrame <= minX c -> maxX c <= maxX mainFrame ->
      minY mainFrame <= minY c -> maxY c <= maxY mainFrame ->
      px (width m) (data om) p = colorQuad lineColor.
Proof.
  intros Hwf. destruct (findObjectContours_pixels m Hwf)
    as (comps & om & Hrun & Hfind & _ & _ & _ & Hcover & Hgrp & Hcase).
  exists comps, om. split; [done |]. split; [done |].
  intros mf c p Hmf Hc Hp Hx1 Hx2 Hy1 Hy2.
  destruct Hcase as [[-> _]|(mf' & Hmf' & Hpx)]; [by apply elem_of_nil in Hc |].
  rewrite Hmf in Hmf'. inversion Hmf'; subst mf'.
  assert (inb (width m) (height m) p) as Hpb by (eapply proj1, Hcover; eauto).
  rewrite (Hpx p Hpb). rewrite decide_True; [done |].
  apply elem_of_allPixels. exists c. split; [| done].
  apply elem_of_objectComponents.
  apply list_elem_of_lookup in Hc as (j & Hj).
  destruct (decide (j = selectMainFrame comps)) as [->|Hne]; [left; congruence |].
  right. exists j. split; [done |]. split; [done |].
  apply insideFrame_centerInside.
  destruct (Hgrp c (list_elem_of_lookup_2 _ _ _ Hj)) as [_ Ht].
  apply tightBox_ordered in Ht as [Hox Hoy].
  unfold centerInside, boxCenterX, boxCenterY.
  split; [apply Qle_half_l; lia |]. split; [apply Qle_half_r; lia |].
  split; [apply Qle_half_l; lia | apply Qle_half_r; lia].
Qed.

(** ** Further properties of the whole pipeline *)

Lemma outputColor_line d i :
  quad d i = colorQuad lineColor -> outputColor d i = lineColor.
Proof. intros Hq. unfold outputColor. by rewrite Hq. Qed.

Lemma outputColor_white d i :
  quad d i = colorQuad whiteColor -> outputColor d i = whiteColor.
Proof. intros Hq. unfold outputColor. by rewrite Hq. Qed.

Lemma outputColor_fill d i :
  quad d i = colorQuad fillColor -> outputColor d i = transparent.
Proof. intros Hq. unfold outputColor. by rewrite Hq. Qed.

Lemma quad_red d i c : quad d i = colorQuad c -> rd d i = Some (fst (fst (fst c))).
Proof. destruct c as [[[c0 c1] c2] c3]. unfold quad. simpl. by inversion 1. Qed.

Lemma white_quad w h d p :
  inb w h p -> px w d p = colorQuad whiteColor -> white w h d p.
Proof. intros Hp Hq. split; [done |]. apply isWhite_quad. eexists. exact Hq. Qed.

Lemma line_not_white w h d p :
  px w d p = colorQuad lineColor -> ~ white w h d p.
Proof.
  intros Hq [_ Hwh]. apply isWhite_quad in Hwh as [a Ha].
  unfold px in Hq. rewrite Hq in Ha. discriminate.
Qed.

(** The output of [process], pixel by pixel, from the object mask. *)
Lemma process_pixels (img : ImageData) :
  wf img ->
  exists om out,
    findObjectContours (createMask img) = Some om /\
    width om = width img /\ height om = height img /\
    process img = Some out /\
    width out = width img /\ height out = height img /\ wf out /\
    forall p, inb (width img) (height img) p ->
      (px (width img) (data om) p = colorQuad lineColor /\
       stroke (width img) (height img) (data (createMask img)) p /\
       px (width img) (data out) p = colorQuad lineColor)
      \/ (px (width img) (data om) p = colorQuad whiteColor /\
          reachAny (width img) (height img) (data om)
            (corners (width img) (height img)) p /\
          px (width img) (data out) p = colorQuad transparent)
      \/ (px (width img) (data om) p = colorQuad whiteColor /\
          ~ reachAny (width img) (height img) (data om)
              (corners (width img) (height img)) p /\
          px (width img) (data out) p = colorQuad whiteColor).
Proof.
  intros Hwf. pose proof Hwf as (Hw & Hh & _).
  destruct (createMask_spec img Hwf) as (Ew & Eh & Hwfm & _).
  destruct (findObjectContours_pixels (createMask img) Hwfm)
    as (comps & om & _ & Hfind & Ewo & Eho & Hwfo & Hcover & _ & Hcase).
  rewrite Ew, Eh in *.
  destruct (floodFills_spec (width img) (height img) Hw Hh om
              (corners (width img) (height img)))
    as (d' & Hfill & [Hlen Hpx]); [done | done | done | apply corners_inb; lia |].
  assert (wf (mkImageData (width img) (height img) d')) as Hwfd.
  { split; [done |]. split; [done |]. cbn [data]. rewrite Hlen.
    rewrite <- Ewo, <- Eho. apply Hwfo. }
  destruct (composite_spec _ Hwfd) as [Hwfc Hcpx]. cbn [width height data] in Hwfc, Hcpx.
  exists om, (composite (width img) (height img) (mkImageData (width img) (height img) d')).
  split; [done |]. split; [done |]. split; [done |]. split.
  { unfold process. rewrite Hfind, Ewo, Eho, Hfill. done. }
  split; [done |]. split; [done |]. split; [exact Hwfc |].
  intros p Hp. rewrite (Hcpx p Hp).
  assert (px (width img) (data om) p = colorQuad lineColor /\
          stroke (width img) (height img) (data (createMask img)) p
          \/ px (width img) (data om) p = colorQuad whiteColor) as Hom.
  { destruct Hcase as [[_ Hall]|(mf & Hmf & Hq)]; [right; by apply Hall |].
    rewrite (Hq p Hp). case_decide as Hd; [left | by right].
    split; [done |]. apply elem_of_allPixels in Hd as (c & Hc & Hpc).
    apply Hcover. exists c. split; [| done]. by eapply objectComponents_sub. }
  destruct (Hpx p Hp) as [[Hr He]|[Hn He]].
  - right. left. destruct Hom as [[Hl _]|Hwh].
    + exfalso. destruct Hr as (c & _ & Hr). apply wreach_white in Hr.
      by eapply line_not_white.
    + split; [done |]. split; [done |]. f_equal. by apply outputColor_fill.
  - destruct Hom as [[Hl Hs]|Hwh].
    + left. split; [done |]. split; [done |]. f_equal.
      apply outputColor_line. unfold px in He, Hl. by rewrite He.
    + right. right. split; [done |]. split; [done |]. f_equal.
      apply outputColor_white. unfold px in He, Hwh. by rewrite He.
Qed.

(** X13. On every well-formed image [process] returns an image of the same
    size in which each pixel is opaque black, transparent or opaque white:
    black where the object mask has a line, transparent where the object
    mask is white and joined to a corner by white pixels, white where it is
    white and not joined to any corner. *)
Theorem process_output_pixels (img : ImageData) :
  wf img ->
  exists om out,
    findObjectContours (createMask img) = Some om /\
    process img = Some out /\
    width out = width img /\ height out = height img /\ wf out /\
    forall p, inb (width img) (height img) p ->
      (px (width img) (data om) p = colorQuad lineColor /\
       px (width img) (data out) p = colorQuad lineColor)
      \/ (px (width img) (data om) p = colorQuad whiteColor /\
          reachAny (width img) (height img) (data om)
            (corners (width img) (height img)) p /\
          px (width img) (data out) p = colorQuad transparent)
      \/ (px (width img) (data om) p = colorQuad whiteColor /\
          ~ reachAny (width img) (height img) (data om)
              (corners (width img) (height img)) p /\
          px (width img) (data out) p = colorQuad whiteColor).
Proof.
  intros Hwf. destruct (process_pixels img Hwf)
    as (om & out & Hfind & _ & _ & Hrun & Ew & Eh & Hwfo & Hpx).
  exists om, out. split; [done |]. split; [done |]. split; [done |].
  split; [done |]. split; [done |].
  intros p Hp. destruct (Hpx p Hp) as [(H1 & _ & H2)|[H|H]]; tauto.
Qed.

(** X14. [process] draws no black pixel where the input is light: an
    opaque black output pixel was below the luminance threshold in the
    input. *)
Theorem process_black_was_dark (img : ImageData) :
  wf img ->
  exists out,
    process img = Some out /\
    forall p r g b a,
      inb (width img) (height img) p ->
      px (width img) (data img) p = (Some r, Some g, Some b, Some a) ->
      px (width img) (data out) p = colorQuad lineColor ->
      isDark r g b = true.
Proof.
  intros Hwf. destruct (process_pixels img Hwf)
    as (om & out & _ & _ & _ & Hrun & _ & _ & _ & Hpx).
  exists out. split; [done |]. intros p r g b a Hp Hq Hout.
  destruct (Hpx p Hp) as [(_ & Hs & _)|[(_ & _ & He)|(_ & _ & He)]].
  - pose proof (createMask_px img p r g b a Hwf Hp Hq) as Hm.
    destruct (isDark r g b); [done |].
    destruct Hs as [_ Hs]. unfold px, quad in Hm. rewrite Hs in Hm. discriminate.
  - rewrite He in Hout. discriminate.
  - rewrite He in Hout. discriminate.
Qed.

(** X15. The four corner pixels of the output are never opaque white: a
    corner is opaque black or transparent. *)
Theorem process_corners_not_white (img : ImageData) :
  wf img ->
  exists out,
    process img = Some out /\
    forall c, c ∈ corners (width img) (height img) ->
      px (width img) (data out) c = colorQuad lineColor \/
      px (width img) (data out) c = colorQuad transparent.
Proof.
  intros Hwf. pose proof Hwf as (Hw & Hh & _).
  destruct (process_pixels img Hwf)
    as (om & out & _ & _ & _ & Hrun & _ & _ & _ & Hpx).
  exists out. split; [done |]. intros c Hc.
  pose proof (corners_inb _ _ Hw Hh c Hc) as Hcb.
  destruct (Hpx c Hcb) as [(_ & _ & He)|[(_ & _ & He)|(Hwh & Hn & _)]];
    [by left | by right |].
  exfalso. apply Hn. exists c. split; [done |].
  apply wreach_seed. by apply white_quad.
Qed.

(** All pixels of a grid whose pixels all satisfy [P] are joined. *)
Lemma grid_joined w h (P : Pixel -> Prop) :
  (forall p, inb w h p -> P p) ->
  forall p, inb w h p -> joined P (0, 0) p.
Proof.
  intros Hall.
  assert (forall n : nat, Z.of_nat n < w -> 0 < h -> joined P (0, 0) (Z.of_nat n, 0)) as Hrow.
  { induction n as [|n IH]; intros Hn Hh.
    - apply joined_refl, Hall. unfold inb; simpl. lia.
    - eapply joined_step; [apply IH; lia | |].
      + unfold adj, neighbors. rewrite Nat2Z.inj_succ.
        replace (Z.succ (Z.of_nat n)) with (Z.of_nat n + 1) by lia.
        apply list_elem_of_here.
      + apply Hall. unfold inb; simpl. lia. }
  assert (forall (n k : nat), Z.of_nat n < w -> Z.of_nat k < h ->
            joined P (0, 0) (Z.of_nat n, Z.of_nat k)) as Hcol.
  { intros n. induction k as [|k IH]; intros Hn Hk.
    - by apply Hrow.
    - eapply joined_step; [apply IH; lia | |].
      + unfold adj, neighbors. rewrite Nat2Z.inj_succ.
        replace (Z.succ (Z.of_nat k)) with (Z.of_nat k + 1) by lia.
        rewrite !elem_of_cons. tauto.
      + apply Hall. unfold inb; simpl. lia. }
  intros [x y] [Hx Hy]. simpl in *.
  specialize (Hcol (Z.to_nat x) (Z.to_nat y)).
  rewrite !Z2Nat.id in Hcol by lia. apply Hcol; lia.
Qed.

(** The output of an image that is dark everywhere. *)
Lemma allDark_output (img : ImageData) :
  wf img -> uniformlyDark img ->
  exists out,
    process img = Some out /\
    width out = width img /\ height out = height img /\
    forall p, inb (width img) (height img) p ->
      px (width img) (data out) p = colorQuad lineColor.
Proof.
  intros Hwf Hdark. pose proof Hwf as (Hw & Hh & _).
  destruct (createMask_spec img Hwf) as (Ew & Eh & Hwfm & _).
  assert (forall p, inb (width img) (height img) p ->
            stroke (width img) (height img) (data (createMask img)) p) as Hall.
  { intros p Hp. split; [done |].
    destruct (wf_px_Some img p Hwf Hp) as (r & g & b & a & Hq).
    pose proof (createMask_px img p r g b a Hwf Hp Hq) as Hm.
    rewrite (Hdark p r g b a Hp Hq) in Hm. by apply quad_red in Hm. }
  destruct (findObjectContours_pixels (createMask img) Hwfm)
    as (comps & om & _ & Hfind & _ & _ & _ & Hcover & Hgrp & Hcase).
  rewrite Ew, Eh in *.
  destruct (process_pixels img Hwf)
    as (om' & out & Hfind' & _ & _ & Hrun & Ewo & Eho & _ & Hpx).
  rewrite Hfind in Hfind'. inversion Hfind'; subst om'. clear Hfind'.
  exists out. split; [done |]. split; [done |]. split; [done |].
  intros p Hp.
  assert (px (width img) (data om) p = colorQuad lineColor) as Hline.
  { destruct Hcase as [[-> _]|(mf & Hmf & Hq)].
    - exfalso. destruct (proj1 (Hcover p) (Hall p Hp)) as (c & Hc & _).
      by apply elem_of_nil in Hc.
    - rewrite (Hq p Hp). rewrite decide_True; [done |].
      apply elem_of_allPixels. exists mf.
      split; [apply elem_of_objectComponents; by left |].
      destruct (Hgrp mf (list_elem_of_lookup_2 _ _ _ Hmf)) as [[Hne Hg] _].
      destruct (pixels mf) as [|p0 ps] eqn:Ep; [done |].
      assert (p0 ∈ p0 :: ps) as Hp0 by apply list_elem_of_here.
      apply (Hg p0 p Hp0).
      assert (inb (width img) (height img) p0) as Hp0b.
      { eapply proj1, Hcover. exists mf.
        split; [by eapply list_elem_of_lookup_2 | by rewrite Ep]. }
      eapply joined_trans.
      + apply joined_sym. by apply (grid_joined (width img) (height img)).
      + by apply (grid_joined (width img) (height img)). }
  destruct (Hpx p Hp) as [(_ & _ & He)|[(Hwh & _)|(Hwh & _)]]; [done | |];
    rewrite Hline in Hwh; discriminate.
Qed.

(** X11. An image that is below the luminance threshold everywhere comes
    out opaque black everywhere. *)
Theorem all_dark_all_black (img : ImageData) :
  wf img -> uniformlyDark img ->
  exists out,
    process img = Some out /\
    width out = width img /\ height out = height img /\
    forall p, inb (width img) (height img) p ->
      px (width img) (data out) p = colorQuad lineColor.
Proof.
  intros Hwf Hdark.
  destruct (allDark_output img Hwf Hdark) as (out & Hrun & Ew & Eh & Hpx).
  exists out. split; [exact Hrun |]. split; [exact Ew |]. split; [exact Eh | exact Hpx].
Qed.

(** X12. [process] is not idempotent, because transparent pixels have
    luminance 0: a uniformly light image comes out fully transparent, and
    this fully transparent image comes out opaque black everywhere. *)
Theorem process_twice_on_light_image (img : ImageData) :
  wf img -> uniformlyLight img ->
  exists out2,
    process img = Some (transparentImage (width img) (height img)) /\
    process (transparentImage (width img) (height img)) = Some out2 /\
    forall p, inb (width img) (height img) p ->
      px (width img) (data (transparentImage (width img) (height img))) p
        = colorQuad transparent /\
      px (width img) (data out2) p = colorQuad lineColor.
Proof.
  intros Hwf Hlight. pose proof Hwf as (Hw & Hh & _).
  destruct (createMask_spec img Hwf) as (Ew & Eh & Hwfm & _).
  destruct (noStroke_stages (createMask img) Hwfm (uniformlyLight_noStroke img Hwf Hlight))
    as (om & filled & _ & Hfind & _ & _ & _ & Hfill & _ & Hcomp).
  rewrite Ew, Eh in Hcomp.
  assert (process img = Some (transparentImage (width img) (height img))) as Hrun.
  { unfold process. rewrite Hfind, Hfill. by rewrite Hcomp. }
  assert (wf (transparentImage (width img) (height img))) as Hwft
    by (by apply wfData_replicate).
  destruct (allDark_output (transparentImage (width img) (height img)) Hwft)
    as (out2 & Hrun2 & _ & _ & Hpx).
  { intros p r g b a Hp Hq. cbn [transparentImage width height data] in Hp, Hq.
    rewrite (px_replicate _ _ Hw Hh) in Hq by done. by inversion Hq. }
  exists out2. split; [done |]. split; [done |].
  intros p Hp. split; [by apply px_replicate |]. by apply Hpx.
Qed.

(** ** Concrete runs of the further properties *)

Lemma uniformlyDarkb_uniformlyDark img :
  uniformlyDarkb img = true -> uniformlyDark img.
Proof.
  intros Hall p r g b a Hp Hq.
  pose proof (forallb_coords _ _ _ Hall p Hp) as Hf. cbn beta in Hf.
  by rewrite Hq in Hf.
Qed.

Lemma optEqb_eq o1 o2 : optEqb o1 o2 = true -> o1 = o2.
Proof.
  destruct o1, o2; simpl; try discriminate; [| done].
  intros He%Z.eqb_eq. by subst.
Qed.

Lemma sameRGBb_sameRGB w h d1 d2 : sameRGBb w h d1 d2 = true -> sameRGB w h d1 d2.
Proof.
  intros Hall p Hp.
  pose proof (forallb_coords _ _ _ Hall p Hp) as Hf. cbn beta in Hf.
  rewrite !andb_true_iff in Hf. destruct Hf as [[H1 H2] H3].
  split; [by apply optEqb_eq |]. split; by apply optEqb_eq.
Qed.

(** The two straight strokes of [strokesMask]: both have area 0. *)
Example strokesMask_components :
  labelComponents 5 4 (data strokesMask) =
  Some [ mkComponent [(0, 0); (1, 0); (2, 0)] 0 0 2 0;
         mkComponent [(4, 1); (4, 2); (4, 3)] 4 1 4 3 ].
Proof. vm_compute. reflexivity. Qed.

Lemma floodFill_fills_white_region_witness :
  wf frameObjectMask /\ inb 7 7 (0, 0) /\
  exists m', floodFill frameObjectMask 0 0 = Some m'.
Proof.
  split; [apply wfb_wf; reflexivity |].
  split; [unfold inb; simpl; lia |].
  destruct (floodFill_fills_white_region frameObjectMask 0 0) as (m' & H & _).
  - apply wfb_wf; reflexivity.
  - unfold inb; simpl; lia.
  - exists m'. exact H.
Defined.

Lemma floodFill_seed_out_of_range_witness :
  ~ inb 7 7 (7, 0) /\ floodFill frameObjectMask 7 0 = Some frameObjectMask.
Proof.
  split; [unfold inb; simpl; lia |].
  apply (floodFill_seed_out_of_range frameObjectMask 7 0).
  unfold inb; simpl; lia.
Defined.

Lemma floodFills_depend_on_seed_set_witness :
  wf frameObjectMask /\
  exists m',
    floodFills [(0, 0); (6, 6)] frameObjectMask = Some m' /\
    floodFills [(6, 6); (0, 0); (0, 0)] frameObjectMask = Some m'.
Proof.
  split; [apply wfb_wf; reflexivity |].
  apply (floodFills_depend_on_seed_set frameObjectMask).
  - apply wfb_wf; reflexivity.
  - intros s. rewrite !elem_of_cons, elem_of_nil.
    intros [->|[->|[]]]; unfold inb; simpl; lia.
  - intros s. rewrite !elem_of_cons, !elem_of_nil. tauto.
Defined.

Lemma createMask_two_colours_witness :
  wf lightImage /\ wf (createMask lightImage).
Proof.
  split; [apply wfb_wf; reflexivity |].
  destruct (createMask_two_colours lightImage) as [H _];
    [apply wfb_wf; reflexivity | exact H].
Defined.

Lemma createMask_ignores_alpha_witness :
  sameRGB 3 2 (data lightImage) (data lightImageFaded) /\
  createMask lightImage = createMask lightImageFaded /\
  process lightImage = process lightImageFaded.
Proof.
  split; [apply sameRGBb_sameRGB; vm_compute; reflexivity |].
  apply (createMask_ignores_alpha lightImage lightImageFaded).
  - apply wfb_wf; reflexivity.
  - apply wfb_wf; reflexivity.
  - reflexivity.
  - reflexivity.
  - apply sameRGBb_sameRGB; vm_compute; reflexivity.
Defined.

Lemma createMask_idempotent_witness :
  wf frameMask /\ createMask (createMask frameMask) = createMask frameMask.
Proof.
  split; [apply wfb_wf; reflexivity |].
  apply (createMask_idempotent frameMask). apply wfb_wf; reflexivity.
Defined.

Lemma threshold_by_channel_witness :
  isDark 139 139 139 = false /\ isDark 139 0 0 = true /\
  isDark 0 0 139 = true /\ isDark 0 139 0 = true.
Proof.
  destruct (threshold_by_channel 139) as (H1 & H2 & H3 & H4); [lia |].
  split; [exact H1 |]. split; [exact H2 |]. split; [exact H3 | exact H4].
Defined.

Lemma findObjectContours_only_removes_witness :
  wf frameMask /\ exists om, findObjectContours frameMask = Some om /\ wf om.
Proof.
  split; [apply wfb_wf; reflexivity |].
  destruct (findObjectContours_only_removes frameMask) as (om & H1 & _ & _ & H2 & _);
    [apply wfb_wf; reflexivity |].
  exists om. split; [exact H1 | exact H2].
Defined.

Lemma mainFrame_always_painted_witness :
  wf frameMask /\
  exists comps om,
    labelComponents 7 7 (data frameMask) = Some comps /\
    findObjectContours frameMask = Some om.
Proof.
  split; [apply wfb_wf; reflexivity |].
  destruct (mainFrame_always_painted frameMask) as (comps & om & H1 & H2 & _);
    [apply wfb_wf; reflexivity |].
  exists comps, om. split; [exact H1 | exact H2].
Defined.

Lemma single_component_kept_witness :
  wf ringImage /\
  labelComponents 10 10 (data ringImage) = Some ringComponents /\
  (length ringComponents <= 1)%nat /\ objectMask ringImage /\
  findObjectContours ringImage = Some ringImage.
Proof.
  split; [apply wfb_wf; reflexivity |].
  split; [vm_compute; reflexivity |].
  split; [simpl; lia |].
  split; [apply objectMaskb_objectMask; vm_compute; reflexivity |].
  destruct (single_component_kept ringImage ringComponents) as (om & H1 & _ & H2).
  - apply wfb_wf; reflexivity.
  - vm_compute; reflexivity.
  - simpl; lia.
  - rewrite H1. f_equal. apply H2.
    apply objectMaskb_objectMask; vm_compute; reflexivity.
Defined.

Lemma all_dark_all_black_witness :
  wf darkImage /\ uniformlyDark darkImage /\
  exists out,
    process darkImage = Some out /\
    forall p, inb 2 3 p -> px 2 (data out) p = colorQuad lineColor.
Proof.
  split; [apply wfb_wf; reflexivity |].
  split; [apply uniformlyDarkb_uniformlyDark; vm_compute; reflexivity |].
  destruct (all_dark_all_black darkImage) as (out & H1 & _ & _ & H2).
  - apply wfb_wf; reflexivity.
  - apply uniformlyDarkb_uniformlyDark; vm_compute; reflexivity.
  - exists out. split; [exact H1 | exact H2].
Defined.

Lemma process_twice_on_light_image_witness :
  wf lightImage /\ uniformlyLight lightImage /\
  exists out2,
    process lightImage = Some (transparentImage 3 2) /\
    process (transparentImage 3 2) = Some out2.
Proof.
  split; [apply wfb_wf; reflexivity |].
  split; [apply uniformlyLightb_uniformlyLight; vm_compute; reflexivity |].
  destruct (process_twice_on_light_image lightImage) as (out2 & H1 & H2 & _).
  - apply wfb_wf; reflexivity.
  - apply uniformlyLightb_uniformlyLight; vm_compute; reflexivity.
  - exists out2. split; [exact H1 | exact H2].
Defined.

Lemma process_output_pixels_witness :
  wf frameMask /\ exists out, process frameMask = Some out /\ wf out.
Proof.
  split; [apply wfb_wf; reflexivity |].
  destruct (process_output_pixels frameMask) as (om & out & _ & H1 & _ & _ & H2 & _);
    [apply wfb_wf; reflexivity |].
  exists out. split; [exact H1 | exact H2].
Defined.

Lemma process_black_was_dark_witness :
  wf frameMask /\ exists out, process frameMask = Some out.
Proof.
  split; [apply wfb_wf; reflexivity |].
  destruct (process_black_was_dark frameMask) as (out & H1 & _);
    [apply wfb_wf; reflexivity |].
  exists out. exact H1.
Defined.

Lemma process_corners_not_white_witness :
  wf frameMask /\
  exists out,
    process frameMask = Some out /\
    (px 7 (data out) (0, 0) = colorQuad lineColor \/
     px 7 (data out) (0, 0) = colorQuad transparent).
Proof.
  split; [apply wfb_wf; reflexivity |].
  destruct (process_corners_not_white frameMask) as (out & H1 & H2);
    [apply wfb_wf; reflexivity |].
  exists out. split; [exact H1 |]. apply (H2 (0, 0)). apply list_elem_of_here.
Defined.

Lemma component_boxes_in_image_witness :
  wf frameMask /\
  exists comps, labelComponents 7 7 (data frameMask) = Some comps.
Proof.
  split; [apply wfb_wf; reflexivity |].
  destruct (component_boxes_in_image frameMask) as (comps & H1 & _);
    [apply wfb_wf; reflexivity |].
  exists comps. exact H1.
Defined.

Lemma straight_strokes_first_kept_witness :
  wf strokesMask /\
  labelComponents 5 4 (data strokesMask) = Some strokesComponents /\
  selectMainFrame strokesComponents = 0%nat.
Proof.
  split; [apply wfb_wf; reflexivity |].
  split; [vm_compute; reflexivity |].
  apply (straight_strokes_first_kept strokesMask strokesComponents).
  - apply wfb_wf; reflexivity.
  - vm_compute; reflexivity.
  - discriminate.
  - intros c Hc. unfold strokesComponents in Hc.
    rewrite !elem_of_cons, elem_of_nil in Hc.
    destruct Hc as [->|[->|[]]]; [right; reflexivity | left; reflexivity].
Defined.

Lemma contained_component_kept_witness :
  wf frameMask /\
  exists comps om,
    labelComponents 7 7 (data frameMask) = Some comps /\
    findObjectContours frameMask = Some om.
Proof.
  split; [apply wfb_wf; reflexivity |].
  destruct (contained_component_kept frameMask) as (comps & om & H1 & H2 & _);
    [apply wfb_wf; reflexivity |].
  exists comps, om. split; [exact H1 | exact H2].
Defined.

Lemma setPixelData_frame_witness :
  byteColor (255, 0, 128, 255) /\
  quad (setPixelData [9; 9; 9; 9; 7] 0 (255, 0, 128, 255)) 0
    = colorQuad (255, 0, 128, 255) /\
  rd (setPixelData [9; 9; 9; 9; 7] 0 (255, 0, 128, 255)) 4 = Some 7.
Proof.
  assert (byteColor (255, 0, 128, 255)) as Hb by (unfold byteColor, isByte; lia).
  split; [exact Hb |].
  destruct (setPixelData_frame [9; 9; 9; 9; 7] 0 (255, 0, 128, 255))
    as (_ & Hother & Hsame & _).
  split.
  - apply Hsame; [exact Hb | lia | simpl; lia].
  - rewrite Hother by lia. reflexivity.
Defined.

